(** * Poedit catalog core: a shallow embedding of [src/catalog.cpp]

    The development follows the layout of the source file: the text helpers
    of wxWidgets the code relies on, [Catalog::HeaderData] (the header
    key/value store and its codec), [CatalogItem] (one translation unit) and
    [Catalog] (the aggregate).  Definitions come first, theorems after. *)

From Stdlib Require Import Ascii String List ZArith Lia Bool.
From Stdlib Require Import DecimalString DecimalN Sorted.
From stdpp Require Import base list gmap strings.

Local Open Scope bool_scope.

(** ** wxString

    A [wxString] is a sequence of characters.  Literals of the source
    ([wxS("...")], ["..."], [_T('c')]) are written [wxS "..."] and
    ["c"%char]. *)

Abbreviation wxString := (list ascii).
Abbreviation wxArrayString := (list (list ascii)).

Definition wxS (s : string) : wxString := list_ascii_of_string s.

Definition wxEmptyString : wxString := [].

Module Wx.

(** [wxIsspace]: the C locale's [isspace] (tab, LF, VT, FF, CR, space). *)
Definition wxIsspace (c : ascii) : bool := Ascii.is_space c.

(** [wxString::empty], [operator==]. *)
Definition empty (s : wxString) : bool :=
  match s with [] => true | _ => false end.

Definition eqb (a b : wxString) : bool := bool_decide (a = b).

(** [wxString::Trim(false)]: drop leading white space. *)
Fixpoint Trim_left (s : wxString) : wxString :=
  match s with
  | [] => []
  | c :: s' => if wxIsspace c then Trim_left s' else s
  end.

(** [wxString::Trim(true)]: drop trailing white space. *)
Definition Trim_right (s : wxString) : wxString := rev (Trim_left (rev s)).

Inductive stripType := leading | trailing | both.

(** [wxString::Strip(w)]: a copy, trimmed left if [w] has [leading] and then
    right if it has [trailing]. *)
Definition Strip (w : stripType) (s : wxString) : wxString :=
  match w with
  | leading => Trim_left s
  | trailing => Trim_right s
  | both => Trim_right (Trim_left s)
  end.

(** [s.find(c)]: position of the first [c], [None] for [npos]. *)
Fixpoint find_char (c : ascii) (s : wxString) : option nat :=
  match s with
  | [] => None
  | x :: s' => if Ascii.eqb x c then Some 0 else option_map S (find_char c s')
  end.

(** [s.starts_with(p)]. *)
Fixpoint starts_with (p s : wxString) : bool :=
  match p, s with
  | [], _ => true
  | _ :: _, [] => false
  | a :: p', b :: s' => Ascii.eqb a b && starts_with p' s'
  end.

(** [s.find(sub)]: position of the first occurrence of [sub]. *)
Fixpoint find (sub s : wxString) : option nat :=
  if starts_with sub s then Some 0
  else match s with
       | [] => None
       | _ :: s' => option_map S (find sub s')
       end.

(** Membership of a character in a character set given as a string. *)
Definition one_of (chars : wxString) (c : ascii) : bool :=
  existsb (Ascii.eqb c) chars.

Fixpoint find_last_of_scan (chars s : wxString) (i : nat) (last : option nat)
  : option nat :=
  match s with
  | [] => last
  | c :: s' =>
      find_last_of_scan chars s' (S i) (if one_of chars c then Some i else last)
  end.

(** [s.find_last_of(chars, pos)]: the last position [<= pos] holding one of
    [chars]. *)
Definition find_last_of (chars s : wxString) (pos : nat) : option nat :=
  find_last_of_scan chars (take (S pos) s) 0 None.

(** [s.find_first_of(chars)]. *)
Fixpoint find_first_of (chars s : wxString) : option nat :=
  match s with
  | [] => None
  | c :: s' => if one_of chars c then Some 0 else option_map S (find_first_of chars s')
  end.

(** [s.substr(pos, n)] and [s.substr(pos)] (also [Mid]). *)
Definition substr (s : wxString) (pos n : nat) : wxString := take n (drop pos s).
Definition substr_from (s : wxString) (pos : nat) : wxString := drop pos s.

(** [s.Last()] and [s.RemoveLast()]. *)
Definition Last (s : wxString) : option ascii := last s.
Definition RemoveLast (s : wxString) : wxString := removelast s.

(** [s.Replace(old, new)] for one-character [old] and [new], all
    occurrences. *)
Definition Replace_char (old new : ascii) (s : wxString) : wxString :=
  map (fun c => if Ascii.eqb c old then new else c) s.

(** [Printf("%i", i)] for a counter below 2^31: its decimal digits. *)
Definition Printf_i (i : N) : wxString :=
  wxS (NilEmpty.string_of_uint (N.to_uint i)).

(** [s.Replace(old, new)] in the general case, all occurrences: the loop
    finds the next occurrence from the position reached, replaces it and
    moves past the replacement.  An empty [old] is refused and the text is
    left as it is.  Every round consumes an occurrence of [old], which is
    not empty, so [S (length s)] rounds are enough. *)
Fixpoint Replace_rounds (fuel : nat) (old new s : wxString) : wxString :=
  match fuel with
  | O => s
  | S fuel' =>
      match find old s with
      | None => s
      | Some pos =>
          take pos s ++ new ++
          Replace_rounds fuel' old new (drop (pos + length old) s)
      end
  end.

Definition Replace (old new s : wxString) : wxString :=
  if empty old then s else Replace_rounds (S (length s)) old new s.

(** *** wxStringTokenizer

    The tokenizer keeps the text and a position; here the state holds the
    text from the position on ([tk_rest]) and whether the position is still
    the beginning of the text ([tk_atBegin]).  The default mode is
    [wxTOKEN_STRTOK] when every delimiter is white space and
    [wxTOKEN_RET_EMPTY] otherwise. *)

Inductive wxStringTokenizerMode := wxTOKEN_RET_EMPTY | wxTOKEN_STRTOK.

Record wxStringTokenizer := {
  tk_rest : wxString;
  tk_atBegin : bool;
  tk_delims : wxString;
  tk_mode : wxStringTokenizerMode
}.

Definition Tokenizer (str delims : wxString) : wxStringTokenizer :=
  {| tk_rest := str;
     tk_atBegin := true;
     tk_delims := delims;
     tk_mode := if forallb wxIsspace delims then wxTOKEN_STRTOK
                else wxTOKEN_RET_EMPTY |}.

Definition AllowEmpty (t : wxStringTokenizer) : bool :=
  match tk_mode t with wxTOKEN_STRTOK => false | wxTOKEN_RET_EMPTY => true end.

(** [HasMoreTokens]: a non-delimiter is left; or, returning empty tokens,
    the text is not empty and nothing was read yet. *)
Definition HasMoreTokens (t : wxStringTokenizer) : bool :=
  if existsb (fun c => negb (one_of (tk_delims t) c)) (tk_rest t) then true
  else match tk_mode t with
       | wxTOKEN_RET_EMPTY => negb (empty (tk_rest t)) && tk_atBegin t
       | wxTOKEN_STRTOK => false
       end.

(** One round of the [do ... while] of [GetNextToken]: the token up to the
    next delimiter, which is skipped. *)
Definition read_token (t : wxStringTokenizer) : wxString * wxStringTokenizer :=
  match find_first_of (tk_delims t) (tk_rest t) with
  | None =>
      (tk_rest t,
       {| tk_rest := []; tk_atBegin := false;
          tk_delims := tk_delims t; tk_mode := tk_mode t |})
  | Some pos =>
      (take pos (tk_rest t),
       {| tk_rest := drop (S pos) (tk_rest t); tk_atBegin := false;
          tk_delims := tk_delims t; tk_mode := tk_mode t |})
  end.

(** [GetNextToken]: rounds are repeated while the token is empty and empty
    tokens are not allowed.  Every round consumes a character, so
    [S (length (tk_rest t))] rounds are enough. *)
Fixpoint GetNextToken_rounds (fuel : nat) (t : wxStringTokenizer)
  : wxString * wxStringTokenizer :=
  match fuel with
  | O => ([], t)
  | S fuel' =>
      if negb (HasMoreTokens t) then ([], t)
      else
        let '(token, t') := read_token t in
        if negb (AllowEmpty t) && empty token
        then GetNextToken_rounds fuel' t'
        else (token, t')
  end.

Definition GetNextToken (t : wxStringTokenizer) : wxString * wxStringTokenizer :=
  GetNextToken_rounds (S (length (tk_rest t))) t.

(** [while (tkn.HasMoreTokens()) out.push_back(tkn.GetNextToken())]. *)
Fixpoint all_tokens_rounds (fuel : nat) (t : wxStringTokenizer) : list wxString :=
  match fuel with
  | O => []
  | S fuel' =>
      if HasMoreTokens t
      then let '(token, t') := GetNextToken t in
           token :: all_tokens_rounds fuel' t'
      else []
  end.

Definition all_tokens (t : wxStringTokenizer) : list wxString :=
  all_tokens_rounds (S (length (tk_rest t))) t.

(** [CountTokens]: runs a copy of the tokenizer to its end. *)
Definition CountTokens (t : wxStringTokenizer) : nat :=
  length (all_tokens {| tk_rest := tk_rest t; tk_atBegin := true;
                        tk_delims := tk_delims t; tk_mode := tk_mode t |}).

End Wx.

(** ** CatalogItem *)

(** Modelled from the spec: [SideloadedItemData] is declared in catalog.h,
    which is not among the sources; it is the overlay of source text, plural
    and extracted comments that sideloading attaches to an item. *)
Record SideloadedItemData := {
  source_string : wxString;
  source_plural_string : wxString;
  extracted_comments : wxArrayString
}.

(** Modelled from the spec: class [CatalogItem] is declared in catalog.h,
    which is not among the sources; the fields are the members catalog.cpp
    reads and writes, under the names it uses.  [m_issue] is the attached
    QA issue, if any; line numbers are [int]. *)
Record CatalogItem := {
  m_string : wxString;
  m_plural : wxString;
  m_hasPlural : bool;
  m_translations : wxArrayString;
  m_extractedComments : wxArrayString;
  m_oldMsgid : wxArrayString;
  m_isFuzzy : bool;
  m_isTranslated : bool;
  m_isModified : bool;
  m_isPreTranslated : bool;
  m_moreFlags : wxString;
  m_lineNum : Z;
  m_issue : option wxString;
  m_sideloaded : option SideloadedItemData
}.

Module CatalogItem.

(** Member updates, one per member that catalog.cpp assigns. *)
Definition set_translations (ts : wxArrayString) (it : CatalogItem) : CatalogItem :=
  {| m_string := m_string it; m_plural := m_plural it;
     m_hasPlural := m_hasPlural it; m_translations := ts;
     m_extractedComments := m_extractedComments it;
     m_oldMsgid := m_oldMsgid it; m_isFuzzy := m_isFuzzy it;
     m_isTranslated := m_isTranslated it; m_isModified := m_isModified it;
     m_isPreTranslated := m_isPreTranslated it;
     m_moreFlags := m_moreFlags it; m_lineNum := m_lineNum it;
     m_issue := m_issue it; m_sideloaded := m_sideloaded it |}.

Definition set_isFuzzy (b : bool) (it : CatalogItem) : CatalogItem :=
  {| m_string := m_string it; m_plural := m_plural it;
     m_hasPlural := m_hasPlural it; m_translations := m_translations it;
     m_extractedComments := m_extractedComments it;
     m_oldMsgid := m_oldMsgid it; m_isFuzzy := b;
     m_isTranslated := m_isTranslated it; m_isModified := m_isModified it;
     m_isPreTranslated := m_isPreTranslated it;
     m_moreFlags := m_moreFlags it; m_lineNum := m_lineNum it;
     m_issue := m_issue it; m_sideloaded := m_sideloaded it |}.

Definition set_isTranslated (b : bool) (it : CatalogItem) : CatalogItem :=
  {| m_string := m_string it; m_plural := m_plural it;
     m_hasPlural := m_hasPlural it; m_translations := m_translations it;
     m_extractedComments := m_extractedComments it;
     m_oldMsgid := m_oldMsgid it; m_isFuzzy := m_isFuzzy it;
     m_isTranslated := b; m_isModified := m_isModified it;
     m_isPreTranslated := m_isPreTranslated it;
     m_moreFlags := m_moreFlags it; m_lineNum := m_lineNum it;
     m_issue := m_issue it; m_sideloaded := m_sideloaded it |}.

Definition set_isModified (b : bool) (it : CatalogItem) : CatalogItem :=
  {| m_string := m_string it; m_plural := m_plural it;
     m_hasPlural := m_hasPlural it; m_translations := m_translations it;
     m_extractedComments := m_extractedComments it;
     m_oldMsgid := m_oldMsgid it; m_isFuzzy := m_isFuzzy it;
     m_isTranslated := m_isTranslated it; m_isModified := b;
     m_isPreTranslated := m_isPreTranslated it;
     m_moreFlags := m_moreFlags it; m_lineNum := m_lineNum it;
     m_issue := m_issue it; m_sideloaded := m_sideloaded it |}.

Definition set_isPreTranslated (b : bool) (it : CatalogItem) : CatalogItem :=
  {| m_string := m_string it; m_plural := m_plural it;
     m_hasPlural := m_hasPlural it; m_translations := m_translations it;
     m_extractedComments := m_extractedComments it;
     m_oldMsgid := m_oldMsgid it; m_isFuzzy := m_isFuzzy it;
     m_isTranslated := m_isTranslated it; m_isModified := m_isModified it;
     m_isPreTranslated := b;
     m_moreFlags := m_moreFlags it; m_lineNum := m_lineNum it;
     m_issue := m_issue it; m_sideloaded := m_sideloaded it |}.

Definition set_issue (i : option wxString) (it : CatalogItem) : CatalogItem :=
  {| m_string := m_string it; m_plural := m_plural it;
     m_hasPlural := m_hasPlural it; m_translations := m_translations it;
     m_extractedComments := m_extractedComments it;
     m_oldMsgid := m_oldMsgid it; m_isFuzzy := m_isFuzzy it;
     m_isTranslated := m_isTranslated it; m_isModified := m_isModified it;
     m_isPreTranslated := m_isPreTranslated it;
     m_moreFlags := m_moreFlags it; m_lineNum := m_lineNum it;
     m_issue := i; m_sideloaded := m_sideloaded it |}.

Definition set_sideloaded (d : option SideloadedItemData) (it : CatalogItem)
  : CatalogItem :=
  {| m_string := m_string it; m_plural := m_plural it;
     m_hasPlural := m_hasPlural it; m_translations := m_translations it;
     m_extractedComments := m_extractedComments it;
     m_oldMsgid := m_oldMsgid it; m_isFuzzy := m_isFuzzy it;
     m_isTranslated := m_isTranslated it; m_isModified := m_isModified it;
     m_isPreTranslated := m_isPreTranslated it;
     m_moreFlags := m_moreFlags it; m_lineNum := m_lineNum it;
     m_issue := m_issue it; m_sideloaded := d |}.

(** Modelled from the spec: the inline accessors of catalog.h.  [GetString]
    and [GetPluralString] give the source text as presented, which is the
    overlay's when one is attached; [GetRawString] is the item's own. *)
Definition GetRawString (it : CatalogItem) : wxString := m_string it.

Definition GetString (it : CatalogItem) : wxString :=
  match m_sideloaded it with
  | Some d => source_string d
  | None => m_string it
  end.

Definition GetPluralString (it : CatalogItem) : wxString :=
  match m_sideloaded it with
  | Some d => source_plural_string d
  | None => m_plural it
  end.

Definition HasPlural (it : CatalogItem) : bool := m_hasPlural it.
Definition GetNumberOfTranslations (it : CatalogItem) : nat :=
  length (m_translations it).
Definition GetLineNumber (it : CatalogItem) : Z := m_lineNum it.
Definition IsTranslated (it : CatalogItem) : bool := m_isTranslated it.
Definition IsFuzzy (it : CatalogItem) : bool := m_isFuzzy it.
Definition HasExtractedComments (it : CatalogItem) : bool :=
  negb (Nat.eqb (length (m_extractedComments it)) 0).
Definition GetExtractedComments (it : CatalogItem) : wxArrayString :=
  m_extractedComments it.
Definition ClearIssue (it : CatalogItem) : CatalogItem := set_issue None it.
Definition AttachSideloadedData (d : SideloadedItemData) (it : CatalogItem)
  : CatalogItem := set_sideloaded (Some d) it.
Definition ClearSideloadedData (it : CatalogItem) : CatalogItem :=
  set_sideloaded None it.

(** Modelled from the spec: [UpdateInternalRepresentation] is pure virtual
    in catalog.h; a format's item refreshes its own backing record from the
    members, which are left as they are. *)
Definition UpdateInternalRepresentation (it : CatalogItem) : CatalogItem := it.

(** [CatalogItem::GetFormatFlag] *)
Definition GetFormatFlag (it : CatalogItem) : wxString :=
  if Wx.empty (m_moreFlags it) then []
  else
    match Wx.find (wxS "-format") (m_moreFlags it) with
    | None => []
    | Some pos =>
        let space := Wx.find_last_of (wxS " " ++ ["009"%char]) (m_moreFlags it) pos in
        let format :=
          match space with
          | None => Wx.substr (m_moreFlags it) 0 pos
          | Some space => Wx.substr (m_moreFlags it) (space + 1) (pos - space - 1)
          end in
        if Wx.starts_with (wxS "no-") format then [] else format
    end.

(** [CatalogItem::GetTranslation] *)
Definition GetTranslation (it : CatalogItem) (idx : nat) : wxString :=
  if Nat.leb (GetNumberOfTranslations it) idx then []
  else nth idx (m_translations it) [].

(** The loop that recomputes [m_isTranslated]: true unless a slot is empty. *)
Fixpoint all_slots_filled (ts : wxArrayString) : bool :=
  match ts with
  | [] => true
  | t :: ts' => if Wx.empty t then false else all_slots_filled ts'
  end.

(** [while (idx >= m_translations.GetCount()) m_translations.Add(wxEmptyString)] *)
Fixpoint grow_to (fuel : nat) (idx : nat) (ts : wxArrayString) : wxArrayString :=
  match fuel with
  | O => ts
  | S fuel' =>
      if Nat.leb (length ts) idx then grow_to fuel' idx (ts ++ [wxEmptyString])
      else ts
  end.

(** [CatalogItem::SetTranslation] *)
Definition SetTranslation (t : wxString) (idx : nat) (it : CatalogItem)
  : CatalogItem :=
  let ts := <[idx := t]> (grow_to (S idx) idx (m_translations it)) in
  let it := set_translations ts it in
  let it := ClearIssue it in
  let it := set_isTranslated (all_slots_filled (m_translations it)) it in
  UpdateInternalRepresentation it.

(** [CatalogItem::SetTranslations] *)
Definition SetTranslations (t : wxArrayString) (it : CatalogItem) : CatalogItem :=
  let it := set_translations t it in
  let it := ClearIssue it in
  let it := set_isTranslated (all_slots_filled (m_translations it)) it in
  UpdateInternalRepresentation it.

(** The plural branch of [SetTranslationFromSource]: every further slot that
    differs from [m_plural] is overwritten and marks the item modified. *)
Fixpoint copy_plural (plural : wxString) (ts : wxArrayString) (modified : bool)
  : wxArrayString * bool :=
  match ts with
  | [] => ([], modified)
  | t :: ts' =>
      let '(t, modified) :=
        if negb (Wx.eqb t plural) then (plural, true) else (t, modified) in
      let '(ts'', modified) := copy_plural plural ts' modified in
      (t :: ts'', modified)
  end.

(** [CatalogItem::SetTranslationFromSource].  The code dereferences
    [m_translations.begin()]: without a slot it has no defined behaviour,
    which is [None] here. *)
Definition SetTranslationFromSource (it : CatalogItem) : option CatalogItem :=
  let it := ClearIssue it in
  let it := set_isFuzzy false it in
  let it := set_isPreTranslated false it in
  let it := set_isTranslated true it in
  match m_translations it with
  | [] => None
  | first :: others =>
      let '(first, modified) :=
        if negb (Wx.eqb first (m_string it)) then (m_string it, true)
        else (first, m_isModified it) in
      let '(others, modified) :=
        if m_hasPlural it then copy_plural (m_plural it) others modified
        else (others, modified) in
      let it := set_translations (first :: others) it in
      let it := set_isModified modified it in
      Some (UpdateInternalRepresentation it)
  end.

(** The loop of [ClearTranslation] over the slots. *)
Fixpoint clear_slots (ts : wxArrayString) (modified : bool) : wxArrayString * bool :=
  match ts with
  | [] => ([], modified)
  | t :: ts' =>
      let modified := if negb (Wx.empty t) then true else modified in
      let '(ts'', modified) := clear_slots ts' modified in
      ([] :: ts'', modified)
  end.

(** [CatalogItem::ClearTranslation] *)
Definition ClearTranslation (it : CatalogItem) : CatalogItem :=
  let it := set_isFuzzy false it in
  let it := set_isPreTranslated false it in
  let it := set_isTranslated false it in
  let '(ts, modified) := clear_slots (m_translations it) (m_isModified it) in
  let it := set_translations ts it in
  let it := set_isModified modified it in
  UpdateInternalRepresentation it.

(** [CatalogItem::GetPluralFormsCount] *)
Definition GetPluralFormsCount (it : CatalogItem) : nat :=
  let trans := GetNumberOfTranslations it in
  if negb (HasPlural it) || Nat.eqb trans 0 then 0
  else trans - 1.

Definition set_moreFlags (flags : wxString) (it : CatalogItem) : CatalogItem :=
  {| m_string := m_string it; m_plural := m_plural it;
     m_hasPlural := m_hasPlural it; m_translations := m_translations it;
     m_extractedComments := m_extractedComments it;
     m_oldMsgid := m_oldMsgid it; m_isFuzzy := m_isFuzzy it;
     m_isTranslated := m_isTranslated it; m_isModified := m_isModified it;
     m_isPreTranslated := m_isPreTranslated it;
     m_moreFlags := flags; m_lineNum := m_lineNum it;
     m_issue := m_issue it; m_sideloaded := m_sideloaded it |}.

Definition set_oldMsgid (lines : wxArrayString) (it : CatalogItem) : CatalogItem :=
  {| m_string := m_string it; m_plural := m_plural it;
     m_hasPlural := m_hasPlural it; m_translations := m_translations it;
     m_extractedComments := m_extractedComments it;
     m_oldMsgid := lines; m_isFuzzy := m_isFuzzy it;
     m_isTranslated := m_isTranslated it; m_isModified := m_isModified it;
     m_isPreTranslated := m_isPreTranslated it;
     m_moreFlags := m_moreFlags it; m_lineNum := m_lineNum it;
     m_issue := m_issue it; m_sideloaded := m_sideloaded it |}.

(** [static const wxString flag_fuzzy(wxS(", fuzzy"))] *)
Definition flag_fuzzy : wxString := wxS ", fuzzy".

(** [CatalogItem::SetFlags] *)
Definition SetFlags (flags : wxString) (it : CatalogItem) : CatalogItem :=
  let it := set_moreFlags flags it in
  match Wx.find flag_fuzzy flags with
  | Some _ =>
      let it := set_isFuzzy true it in
      set_moreFlags (Wx.Replace flag_fuzzy [] (m_moreFlags it)) it
  | None => set_isFuzzy false it
  end.

(** [CatalogItem::GetFlags] *)
Definition GetFlags (it : CatalogItem) : wxString :=
  if m_isFuzzy it then
    if Wx.empty (m_moreFlags it) then flag_fuzzy
    else flag_fuzzy ++ m_moreFlags it
  else m_moreFlags it.

(** [CatalogItem::SetFuzzy] *)
Definition SetFuzzy (fuzzy : bool) (it : CatalogItem) : CatalogItem :=
  let it := if negb fuzzy && m_isFuzzy it then set_oldMsgid [] it else it in
  let it := set_isFuzzy fuzzy it in
  UpdateInternalRepresentation it.

Section OldMsgid.

(** [UnescapeCString] (str_helpers.h) is not among the sources: it is a
    parameter here. *)
Variable UnescapeCString : wxString -> wxString.

(** The body of the loop of [GetOldMsgid] for a line of two characters or
    more.  (Character 034 is the quote, 010 the line feed.) *)
Definition old_msgid_line (line : wxString) : wxString :=
  let line :=
    if bool_decide (Wx.Last line = Some "034"%char) then Wx.RemoveLast line
    else line in
  let line :=
    if bool_decide (head line = Some "034"%char) then drop 1 line else line in
  let line :=
    if Wx.starts_with (wxS "msgid " ++ ["034"%char]) line then drop 7 line
    else if Wx.starts_with (wxS "msgid_plural " ++ ["034"%char]) line
         then "010"%char :: drop 14 line
         else line in
  UnescapeCString line.

(** [CatalogItem::GetOldMsgid] *)
Definition GetOldMsgid (it : CatalogItem) : wxString :=
  fold_left (fun s line => if length line <? 2 then s
                           else s ++ old_msgid_line line)
            (m_oldMsgid it) [].

End OldMsgid.

End CatalogItem.

(** ** Vocabulary of the statements about [CatalogItem] *)

(** [sub] occurs in [s] at position [pos]. *)
Definition occurs_at (sub s : wxString) (pos : nat) : Prop :=
  Wx.starts_with sub (drop pos s) = true.

Definition first_occurrence (sub s : wxString) (pos : nat) : Prop :=
  occurs_at sub s pos /\ forall p, p < pos -> ~ occurs_at sub s p.

Definition last_occurrence (sub s : wxString) (pos : nat) : Prop :=
  occurs_at sub s pos /\ forall p, pos < p -> ~ occurs_at sub s p.

(** A blank bounds a token of the flags string: space or tab. *)
Definition blank (c : ascii) : bool := Wx.one_of (wxS " " ++ ["009"%char]) c.

(** [tok] is the token that ends right before position [pos] of [s]: the
    longest run of non-blank characters there. *)
Definition token_before (s : wxString) (pos : nat) (tok : wxString) : Prop :=
  exists pre,
    take pos s = pre ++ tok /\
    Forall (fun c => blank c = false) tok /\
    (pre = [] \/ exists pre' c, pre = pre' ++ [c] /\ blank c = true).

(** The translated flag agrees with the slots: it is set exactly when no
    slot is empty. *)
Definition translated_flag_ok (it : CatalogItem) : Prop :=
  CatalogItem.IsTranslated it = true <->
  Forall (fun t => t <> wxEmptyString) (m_translations it).

(** An item with the given source, plural and slots, and nothing else set. *)
Definition plain_item (source : wxString) (plural : option wxString)
    (slots : wxArrayString) : CatalogItem :=
  {| m_string := source;
     m_plural := default [] plural;
     m_hasPlural := bool_decide (plural <> None);
     m_translations := slots;
     m_extractedComments := [];
     m_oldMsgid := [];
     m_isFuzzy := false;
     m_isTranslated := CatalogItem.all_slots_filled slots;
     m_isModified := false;
     m_isPreTranslated := false;
     m_moreFlags := [];
     m_lineNum := 0;
     m_issue := None;
     m_sideloaded := None |}.

(** An item that only carries a flags string. *)
Definition flagged_item (flags : wxString) : CatalogItem :=
  {| m_string := wxS "source";
     m_plural := [];
     m_hasPlural := false;
     m_translations := [[]];
     m_extractedComments := [];
     m_oldMsgid := [];
     m_isFuzzy := false;
     m_isTranslated := false;
     m_isModified := false;
     m_isPreTranslated := false;
     m_moreFlags := flags;
     m_lineNum := 0;
     m_issue := None;
     m_sideloaded := None |}.

(** ** Catalog::HeaderData *)

(** [Language] (language.h) and the [POEDIT_VERSION] macro (version.h) are
    not among the sources.  They are parameters of the development: a type
    of languages with the operations catalog.cpp calls, and the version
    text. *)
Class Externals := {
  Language : Type;
  Language_new : Language;
  Language_Code : Language -> wxString;
  Language_IsValid : Language -> bool;
  Language_TryParse : wxString -> Language;
  Language_FromLegacyNames : wxString -> wxString -> Language;
  POEDIT_VERSION : wxString
}.

(** Modelled from the spec: [EscapeCString] (str_helpers.h) is not among the
    sources; it applies the C-string escaping convention of PO files:
    the quote, the backslash and the control characters that have a letter
    escape are written as a backslash and a letter, everything else is
    copied.  (Character 034 is the quote, 092 the backslash.) *)
Definition escape_char (c : ascii) : wxString :=
  match c with
  | "034"%char => ["092"%char; "034"%char]
  | "092"%char => ["092"%char; "092"%char]
  | "007"%char => ["092"%char; "a"%char]
  | "008"%char => ["092"%char; "b"%char]
  | "009"%char => ["092"%char; "t"%char]
  | "010"%char => ["092"%char; "n"%char]
  | "011"%char => ["092"%char; "v"%char]
  | "012"%char => ["092"%char; "f"%char]
  | "013"%char => ["092"%char; "r"%char]
  | _ => [c]
  end.

Definition EscapeCString (s : wxString) : wxString := concat (map escape_char s).

(** [FixBrokenSearchPathValue] *)
Definition FixBrokenSearchPathValue (p : wxString) : wxString :=
  if Wx.empty p then p
  else
    let p := Wx.Replace_char "092"%char "/"%char p in
    if bool_decide (Wx.Last p = Some "/"%char) then Wx.RemoveLast p else p.

(** [Catalog::HeaderData::Entry] *)
Record Entry := { Key : wxString; Value : wxString }.

Abbreviation Entries := (list Entry).

(** [std::stable_sort(first, last, comp)] of the C++ library: the sorted
    permutation that keeps equivalent elements in their order.  Insertion
    from the right, each element going in front of the first one that is not
    less than it. *)
Fixpoint stable_insert {A : Type} (comp : A -> A -> bool) (x : A) (l : list A)
  : list A :=
  match l with
  | [] => [x]
  | y :: l' => if comp y x then y :: stable_insert comp x l' else x :: l
  end.

Fixpoint stable_sort {A : Type} (comp : A -> A -> bool) (l : list A) : list A :=
  match l with
  | [] => []
  | x :: l' => stable_insert comp x (stable_sort comp l')
  end.

(** [wxArrayString::Index]: position of the first equal element,
    [wxNOT_FOUND] (-1) when there is none. *)
Definition wxNOT_FOUND : Z := (-1)%Z.

Fixpoint wxArrayString_Index (a : wxArrayString) (s : wxString) : Z :=
  match a with
  | [] => wxNOT_FOUND
  | x :: a' =>
      if Wx.eqb x s then 0%Z
      else let i := wxArrayString_Index a' s in
           if (i =? wxNOT_FOUND)%Z then wxNOT_FOUND else (i + 1)%Z
  end.

Section HeaderData.
Context `{Ext : Externals}.

Record HeaderData := {
  Project : wxString;
  CreationDate : wxString;
  RevisionDate : wxString;
  Translator : wxString;
  TranslatorEmail : wxString;
  LanguageTeam : wxString;
  Charset : wxString;
  Lang : Language;
  SourceCodeCharset : wxString;
  Keywords : wxArrayString;
  BasePath : wxString;
  SearchPaths : list wxString;
  SearchPathsExcluded : list wxString;
  m_entries : Entries
}.

Definition set_entries (es : Entries) (h : HeaderData) : HeaderData :=
  {| Project := Project h; CreationDate := CreationDate h;
     RevisionDate := RevisionDate h; Translator := Translator h;
     TranslatorEmail := TranslatorEmail h; LanguageTeam := LanguageTeam h;
     Charset := Charset h; Lang := Lang h;
     SourceCodeCharset := SourceCodeCharset h; Keywords := Keywords h;
     BasePath := BasePath h; SearchPaths := SearchPaths h;
     SearchPathsExcluded := SearchPathsExcluded h; m_entries := es |}.

(** [HeaderData::Find]: the first entry with the key, as its position and
    the entry there. *)
Definition Find (h : HeaderData) (key : wxString) : option (nat * Entry) :=
  list_find (fun e => Key e = key) (m_entries h).

(** [HeaderData::GetHeader] *)
Definition GetHeader (h : HeaderData) (key : wxString) : wxString :=
  match Find h key with
  | Some (_, e) => Value e
  | None => wxEmptyString
  end.

(** [HeaderData::HasHeader] *)
Definition HasHeader (h : HeaderData) (key : wxString) : bool :=
  match Find h key with Some _ => true | None => false end.

(** [HeaderData::SetHeader] *)
Definition SetHeader (key value : wxString) (h : HeaderData) : HeaderData :=
  match Find h key with
  | Some (i, e) =>
      set_entries (<[i := {| Key := Key e; Value := value |}]> (m_entries h)) h
  | None =>
      set_entries (m_entries h ++ [{| Key := key; Value := value |}]) h
  end.

(** [HeaderData::DeleteHeader] *)
Definition DeleteHeader (key : wxString) (h : HeaderData) : HeaderData :=
  if HasHeader h key
  then set_entries (filter (fun e => Key e <> key) (m_entries h)) h
  else h.

(** [HeaderData::SetHeaderNotEmpty] *)
Definition SetHeaderNotEmpty (key value : wxString) (h : HeaderData) : HeaderData :=
  if Wx.empty value then DeleteHeader key h else SetHeader key value h.

(** [HeaderData::NormalizeHeaderOrder] *)
Definition canonicalOrder : wxArrayString :=
  [ wxS "Project-Id-Version";
    wxS "Report-Msgid-Bugs-To";
    wxS "POT-Creation-Date";
    wxS "PO-Revision-Date";
    wxS "Last-Translator";
    wxS "Language-Team";
    wxS "Language";
    wxS "MIME-Version";
    wxS "Content-Type";
    wxS "Content-Transfer-Encoding";
    wxS "Plural-Forms" ].

Definition coalesce (orderArr : wxArrayString) (x : Z) : Z :=
  if (x =? wxNOT_FOUND)%Z then (1 + Z.of_nat (length orderArr))%Z else x.

Definition header_order_less (a b : Entry) : bool :=
  (coalesce canonicalOrder (wxArrayString_Index canonicalOrder (Key a))
   <? coalesce canonicalOrder (wxArrayString_Index canonicalOrder (Key b)))%Z.

Definition NormalizeHeaderOrder (h : HeaderData) : HeaderData :=
  set_entries (stable_sort header_order_less (m_entries h)) h.

(** The key of the [i]-th entry of an indexed series:
    [path.Printf("X-Poedit-SearchPath-%i", i)]. *)
Definition series_key (format : wxString) (i : N) : wxString :=
  format ++ Wx.Printf_i i.

Definition SearchPath_key : N -> wxString := series_key (wxS "X-Poedit-SearchPath-").
Definition SearchPathExcluded_key : N -> wxString :=
  series_key (wxS "X-Poedit-SearchPathExcluded-").

(** The loops of [UpdateDict] that delete a series: from index [i] on, while
    the key is there.  Every round deletes an entry, so
    [S (length (m_entries h))] rounds are enough. *)
Fixpoint delete_series_rounds (fuel : nat) (key : N -> wxString) (i : N)
    (h : HeaderData) : HeaderData :=
  match fuel with
  | O => h
  | S fuel' =>
      if negb (HasHeader h (key i)) then h
      else delete_series_rounds fuel' key (i + 1)%N (DeleteHeader (key i) h)
  end.

Definition delete_series (key : N -> wxString) (h : HeaderData) : HeaderData :=
  delete_series_rounds (S (length (m_entries h))) key 0%N h.

(** The loops of [UpdateDict] that write a series: one [SetHeader] per
    element, numbered from [i]. *)
Fixpoint emit_series (key : N -> wxString) (paths : list wxString) (i : N)
    (h : HeaderData) : HeaderData :=
  match paths with
  | [] => h
  | p :: paths' => emit_series key paths' (i + 1)%N (SetHeader (key i) p h)
  end.

(** The keyword list of [UpdateDict]: every keyword followed by a semicolon,
    the last semicolon removed. *)
Definition join_keywords (kws : wxArrayString) : wxString :=
  Wx.RemoveLast (concat (map (fun k => k ++ [";"%char]) kws)).

(** [HeaderData::UpdateDict].  The first-class fields are members of the
    object the function is called on, [this]; the store operations leave
    them as they are and change the entries only, which are threaded
    through as [h]. *)
Definition UpdateDict (this : HeaderData) : HeaderData :=
  let h := SetHeader (wxS "Project-Id-Version") (Project this) this in
  let h := SetHeader (wxS "POT-Creation-Date") (CreationDate this) h in
  let h := SetHeader (wxS "PO-Revision-Date") (RevisionDate this) h in
  let h :=
    if Wx.empty (TranslatorEmail this) then
      if negb (Wx.empty (Translator this)) || negb (HasHeader h (wxS "Last-Translator"))
      then SetHeader (wxS "Last-Translator") (Translator this) h
      else h
    else
      if Wx.empty (Translator this)
      then SetHeader (wxS "Last-Translator") (TranslatorEmail this) h
      else SetHeader (wxS "Last-Translator")
             (Translator this ++ wxS " <" ++ TranslatorEmail this ++ wxS ">") h in
  let h := SetHeader (wxS "Language-Team") (LanguageTeam this) h in
  let h := SetHeader (wxS "MIME-Version") (wxS "1.0") h in
  let h := SetHeader (wxS "Content-Type")
             (wxS "text/plain; charset=" ++ Charset this) h in
  let h := SetHeader (wxS "Content-Transfer-Encoding") (wxS "8bit") h in
  let h := SetHeaderNotEmpty (wxS "Language") (Language_Code (Lang this)) h in
  let h := SetHeader (wxS "X-Generator") (wxS "Poedit " ++ POEDIT_VERSION) h in
  let h := SetHeaderNotEmpty (wxS "X-Poedit-SourceCharset")
             (SourceCodeCharset this) h in
  let h :=
    if negb (Nat.eqb (length (Keywords this)) 0)
    then SetHeader (wxS "X-Poedit-KeywordsList") (join_keywords (Keywords this)) h
    else h in
  let h := SetHeaderNotEmpty (wxS "X-Poedit-Basepath") (BasePath this) h in
  let h := delete_series SearchPath_key h in
  let h := delete_series SearchPathExcluded_key h in
  let h := emit_series SearchPath_key (SearchPaths this) 0%N h in
  let h := emit_series SearchPathExcluded_key (SearchPathsExcluded this) 0%N h in
  NormalizeHeaderOrder h.

(** The loops of [ParseDict] that read a series: from index [i] on, while
    the key is there, keeping the values that are not empty once fixed.  The
    keys of a series differ from one another, so
    [S (length (m_entries h))] rounds are enough. *)
Fixpoint read_series_rounds (fuel : nat) (key : N -> wxString) (i : N)
    (h : HeaderData) (paths : list wxString) : list wxString :=
  match fuel with
  | O => paths
  | S fuel' =>
      if negb (HasHeader h (key i)) then paths
      else
        let p := FixBrokenSearchPathValue (GetHeader h (key i)) in
        read_series_rounds fuel' key (i + 1)%N h
          (if negb (Wx.empty p) then paths ++ [p] else paths)
  end.

Definition read_series (key : N -> wxString) (h : HeaderData) : list wxString :=
  read_series_rounds (S (length (m_entries h))) key 0%N h [].

(** [HeaderData::ParseDict] *)
Definition ParseDict (h : HeaderData) : HeaderData :=
  let project := GetHeader h (wxS "Project-Id-Version") in
  let creationDate := GetHeader h (wxS "POT-Creation-Date") in
  let revisionDate := GetHeader h (wxS "PO-Revision-Date") in
  let dummy := GetHeader h (wxS "Last-Translator") in
  let '(translator, translatorEmail) :=
    if negb (Wx.empty dummy) then
      let tkn := Wx.Tokenizer dummy (wxS "<>") in
      if negb (Nat.eqb (Wx.CountTokens tkn) 2) then (dummy, wxEmptyString)
      else
        let '(t1, tkn) := Wx.GetNextToken tkn in
        let '(t2, tkn) := Wx.GetNextToken tkn in
        (Wx.Strip Wx.trailing t1, t2)
    else (Translator h, TranslatorEmail h) in
  let languageTeam := GetHeader h (wxS "Language-Team") in
  let ctype := GetHeader h (wxS "Content-Type") in
  let charset :=
    match Wx.find (wxS "; charset=") ctype with
    | Some charsetPos =>
        Wx.Strip Wx.both
          (Wx.substr_from ctype (charsetPos + length (wxS "; charset=")))
    | None => wxS "UTF-8"
    end in
  let lang := Language_new in
  let languageCode := GetHeader h (wxS "Language") in
  let lang :=
    if negb (Wx.empty languageCode) then Language_TryParse languageCode else lang in
  let lang :=
    if negb (Language_IsValid lang) then
      let languageCode := GetHeader h (wxS "X-Language") in
      if negb (Wx.empty languageCode) then Language_TryParse languageCode else lang
    else lang in
  let lang :=
    if negb (Language_IsValid lang) then
      let X_Language := GetHeader h (wxS "X-Poedit-Language") in
      let X_Country := GetHeader h (wxS "X-Poedit-Country") in
      if negb (Wx.empty X_Language)
      then Language_FromLegacyNames X_Language X_Country
      else lang
    else lang in
  let h := DeleteHeader (wxS "X-Poedit-Language") h in
  let h := DeleteHeader (wxS "X-Poedit-Country") h in
  let sourceCodeCharset := GetHeader h (wxS "X-Poedit-SourceCharset") in
  let basePath := FixBrokenSearchPathValue (GetHeader h (wxS "X-Poedit-Basepath")) in
  let kwlist := GetHeader h (wxS "X-Poedit-KeywordsList") in
  let '(keywords, h) :=
    if negb (Wx.empty kwlist)
    then (Wx.all_tokens (Wx.Tokenizer kwlist (wxS ";")), h)
    else
      let kw := GetHeader h (wxS "X-Poedit-Keywords") in
      if negb (Wx.empty kw)
      then (Wx.all_tokens (Wx.Tokenizer kw (wxS ",")),
            DeleteHeader (wxS "X-Poedit-Keywords") h)
      else ([], h) in
  let searchPaths := read_series SearchPath_key h in
  let searchPathsExcluded := read_series SearchPathExcluded_key h in
  {| Project := project; CreationDate := creationDate;
     RevisionDate := revisionDate; Translator := translator;
     TranslatorEmail := translatorEmail; LanguageTeam := languageTeam;
     Charset := charset; Lang := lang;
     SourceCodeCharset := sourceCodeCharset; Keywords := keywords;
     BasePath := basePath; SearchPaths := searchPaths;
     SearchPathsExcluded := searchPathsExcluded; m_entries := m_entries h |}.

(** The [while] loop of [FromString] over the lines: a line without a colon
    is reported with [wxLogError] (the reports are collected in [log]) and
    skipped; any other line adds an entry.  Every line read consumes a
    character of the text, so [S (length str)] rounds are enough. *)
Fixpoint FromString_lines (fuel : nat) (tkn : Wx.wxStringTokenizer)
    (entries : Entries) (log : list wxString) : Entries * list wxString :=
  match fuel with
  | O => (entries, log)
  | S fuel' =>
      if Wx.HasMoreTokens tkn then
        let '(ln, tkn) := Wx.GetNextToken tkn in
        match Wx.find_char ":"%char ln with
        | None => FromString_lines fuel' tkn entries (log ++ [ln])
        | Some pos =>
            let en := {| Key := Wx.Strip Wx.both (Wx.substr ln 0 pos);
                         Value := Wx.Strip Wx.both (Wx.substr_from ln (pos + 1)) |} in
            FromString_lines fuel' tkn (entries ++ [en]) log
        end
      else (entries, log)
  end.

(** [HeaderData::FromString]: the header after the call, and the lines
    reported as malformed. *)
Definition FromString (str : wxString) (h : HeaderData)
  : HeaderData * list wxString :=
  let tkn := Wx.Tokenizer str ["010"%char] in
  let '(entries, log) := FromString_lines (S (length str)) tkn [] [] in
  (ParseDict (set_entries entries h), log).


End HeaderData.

(** A stand-in for the parameters, for the concrete runs below: a language is
    its code, valid when the code is not empty; the version is "3.4". *)
Definition sample_Externals : Externals :=
  {| Language := wxString;
     Language_new := [];
     Language_Code := fun l => l;
     Language_IsValid := fun l => negb (Wx.empty l);
     Language_TryParse := fun code => code;
     Language_FromLegacyNames := fun lang country => lang;
     POEDIT_VERSION := wxS "3.4" |}.

(** A header with the given fields and raw entries. *)
Definition blank_header `{Ext : Externals} (entries : Entries) : HeaderData :=
  {| Project := []; CreationDate := []; RevisionDate := [];
     Translator := []; TranslatorEmail := []; LanguageTeam := [];
     Charset := []; Lang := Language_new; SourceCodeCharset := [];
     Keywords := []; BasePath := []; SearchPaths := [];
     SearchPathsExcluded := []; m_entries := entries |}.

(** ** Catalog *)

Module Catalog.

(** [Catalog::Type] *)
Inductive Type_ := PO | POT | XLIFF | JSON | JSON_FLUTTER.

Section Catalog.
Context `{Ext : Externals}.

(** Modelled from the spec: class [Catalog] and [SideloadedCatalogData] are
    declared in catalog.h, which is not among the sources; the fields are
    the members catalog.cpp reads and writes, under the names it uses.  The
    items are owned by the catalog, in file order. *)
Inductive Catalog := Build_Catalog {
  m_fileType : Type_;
  m_header : HeaderData;
  m_items : list CatalogItem;
  m_fileName : wxString;
  m_sideloaded : option SideloadedCatalogData
}
with SideloadedCatalogData := Build_SideloadedCatalogData {
  reference_file : Catalog;
  source_language : Language
}.

Definition set_items (items : list CatalogItem) (cat : Catalog) : Catalog :=
  {| m_fileType := m_fileType cat; m_header := m_header cat;
     m_items := items; m_fileName := m_fileName cat;
     m_sideloaded := m_sideloaded cat |}.

Definition set_sideloaded (d : option SideloadedCatalogData) (cat : Catalog)
  : Catalog :=
  {| m_fileType := m_fileType cat; m_header := m_header cat;
     m_items := m_items cat; m_fileName := m_fileName cat;
     m_sideloaded := d |}.

(** Modelled from the spec: the inline accessors of catalog.h. *)
Definition items (cat : Catalog) : list CatalogItem := m_items cat.
Definition GetLanguage (cat : Catalog) : Language := Lang (m_header cat).

(** The loop of [FindItemIndexByLine]; [last] is an [int]. *)
Fixpoint FindItemIndexByLine_loop (items : list CatalogItem) (lineno : Z)
    (last : Z) : Z :=
  match items with
  | [] => last
  | i :: items' =>
      if (CatalogItem.GetLineNumber i >? lineno)%Z then last
      else FindItemIndexByLine_loop items' lineno (last + 1)%Z
  end.

(** [Catalog::FindItemIndexByLine] *)
Definition FindItemIndexByLine (cat : Catalog) (lineno : Z) : Z :=
  FindItemIndexByLine_loop (m_items cat) lineno (-1)%Z.

(** [Catalog::FindItemByLine]; [None] is the null [CatalogItemPtr]. *)
Definition FindItemByLine (cat : Catalog) (lineno : Z) : option CatalogItem :=
  let i := FindItemIndexByLine cat lineno in
  if (i =? -1)%Z then None else m_items cat !! Z.to_nat i.

(** [Catalog::GetPluralFormsCount] *)
Definition GetPluralFormsCount (cat : Catalog) : nat :=
  fold_left (fun count i => Nat.max count (CatalogItem.GetPluralFormsCount i))
            (m_items cat) 0.

(** The loop of [RemoveSameAsSourceTranslations]: the item at position [k]
    is visited, [n] items remain.  An item is changed in place, in the
    catalog that [GetPluralFormsCount] reads. *)
Fixpoint RemoveSameAsSourceTranslations_loop (n k : nat) (cat : Catalog)
    (changed : bool) : Catalog * bool :=
  match n with
  | O => (cat, changed)
  | S n' =>
      match m_items cat !! k with
      | None => (cat, changed)
      | Some i =>
          if Wx.eqb (CatalogItem.GetString i) (CatalogItem.GetTranslation i 0) then
            if CatalogItem.HasPlural i &&
               (negb (Nat.eqb (GetPluralFormsCount cat) 2) ||
                negb (Wx.eqb (CatalogItem.GetPluralString i)
                             (CatalogItem.GetTranslation i 1)))
            then RemoveSameAsSourceTranslations_loop n' (S k) cat changed
            else
              let cat :=
                set_items (<[k := CatalogItem.ClearTranslation i]> (m_items cat)) cat in
              RemoveSameAsSourceTranslations_loop n' (S k) cat true
          else RemoveSameAsSourceTranslations_loop n' (S k) cat changed
      end
  end.

(** [Catalog::RemoveSameAsSourceTranslations]: the catalog after the call
    and the value returned. *)
Definition RemoveSameAsSourceTranslations (cat : Catalog) : Catalog * bool :=
  RemoveSameAsSourceTranslations_loop (length (m_items cat)) 0 cat false.

(** The first loop of [SideloadSourceDataFromReferenceFile]:
    [refItems[iref->GetRawString()] = iref] for every item of the
    reference. *)
Definition build_refItems (ref_items : list CatalogItem)
  : gmap wxString CatalogItem :=
  fold_left (fun refItems iref => <[CatalogItem.GetRawString iref := iref]> refItems)
            ref_items ∅.

(** The body of its second loop, for the item [i] of the target. *)
Definition sideload_item (refItems : gmap wxString CatalogItem) (i : CatalogItem)
  : CatalogItem :=
  match refItems !! CatalogItem.GetRawString i with
  | None => i
  | Some rdata =>
      if Wx.empty (CatalogItem.GetTranslation rdata 0) then i
      else
        let d :=
          {| source_string := CatalogItem.GetTranslation rdata 0;
             source_plural_string :=
               if CatalogItem.HasPlural rdata
               then CatalogItem.GetTranslation rdata 1 else [];
             extracted_comments :=
               if CatalogItem.HasExtractedComments rdata
               then CatalogItem.GetExtractedComments rdata else [] |} in
        CatalogItem.AttachSideloadedData d i
  end.

(** [Catalog::SideloadSourceDataFromReferenceFile].  The reference is
    another catalog: its items are not items of the target. *)
Definition SideloadSourceDataFromReferenceFile (ref : Catalog) (cat : Catalog)
  : Catalog :=
  let refItems := build_refItems (items ref) in
  let cat := set_items (map (sideload_item refItems) (items cat)) cat in
  set_sideloaded
    (Some {| reference_file := ref; source_language := GetLanguage ref |}) cat.

(** [Catalog::ClearSideloadedSourceData] *)
Definition ClearSideloadedSourceData (cat : Catalog) : Catalog :=
  let cat := set_sideloaded None cat in
  set_items (map CatalogItem.ClearSideloadedData (items cat)) cat.

Definition set_header (h : HeaderData) (cat : Catalog) : Catalog :=
  {| m_fileType := m_fileType cat; m_header := h;
     m_items := m_items cat; m_fileName := m_fileName cat;
     m_sideloaded := m_sideloaded cat |}.

(** [DetectUseOfSymbolicIDs]: the scan returns [false] at the first space
    or character from 0x80 on of a raw source string. *)
Fixpoint DetectUseOfSymbolicIDs_loop (items : list CatalogItem) : bool :=
  match items with
  | [] => true
  | i :: items' =>
      if existsb (fun c => Ascii.eqb c " "%char || (128 <=? N_of_ascii c)%N)
                 (CatalogItem.GetRawString i)
      then false
      else DetectUseOfSymbolicIDs_loop items'
  end.

Definition DetectUseOfSymbolicIDs (cat : Catalog) : bool :=
  DetectUseOfSymbolicIDs_loop (items cat).

(** [Catalog::SetLanguage] *)
Definition SetLanguage (lang : Language) (cat : Catalog) : Catalog :=
  let h := m_header cat in
  set_header
    {| Project := Project h; CreationDate := CreationDate h;
       RevisionDate := RevisionDate h; Translator := Translator h;
       TranslatorEmail := TranslatorEmail h; LanguageTeam := LanguageTeam h;
       Charset := Charset h; Lang := lang;
       SourceCodeCharset := SourceCodeCharset h; Keywords := Keywords h;
       BasePath := BasePath h; SearchPaths := SearchPaths h;
       SearchPathsExcluded := SearchPathsExcluded h;
       m_entries := m_entries h |} cat.

(** [Catalog::HasSourcesConfigured] *)
Definition HasSourcesConfigured (cat : Catalog) : bool :=
  negb (Wx.empty (m_fileName cat)) &&
  negb (Wx.empty (BasePath (m_header cat))) &&
  negb (Nat.eqb (length (SearchPaths (m_header cat))) 0).

(** The counters of [GetStatistics], the five [int]s its arguments point
    to. *)
Record Statistics := {
  stat_all : Z;
  stat_fuzzy : Z;
  stat_badtokens : Z;
  stat_untranslated : Z;
  stat_unfinished : Z
}.

Section GetStatistics.

(** [CatalogItem::HasError] is an inline accessor of catalog.h over the
    severity of the attached issue, which is not among the sources: it is a
    parameter here. *)
Variable HasError : CatalogItem -> bool.

(** The loop of [GetStatistics]. *)
Fixpoint GetStatistics_loop (items : list CatalogItem) (st : Statistics)
  : Statistics :=
  match items with
  | [] => st
  | i :: items' =>
      let all := (stat_all st + 1)%Z in
      let '(fuzzy, ok) :=
        if CatalogItem.IsFuzzy i then ((stat_fuzzy st + 1)%Z, false)
        else (stat_fuzzy st, true) in
      let '(badtokens, ok) :=
        if HasError i then ((stat_badtokens st + 1)%Z, false)
        else (stat_badtokens st, ok) in
      let '(untranslated, ok) :=
        if negb (CatalogItem.IsTranslated i)
        then ((stat_untranslated st + 1)%Z, false)
        else (stat_untranslated st, ok) in
      let unfinished :=
        if negb ok then (stat_unfinished st + 1)%Z else stat_unfinished st in
      GetStatistics_loop items'
        {| stat_all := all; stat_fuzzy := fuzzy; stat_badtokens := badtokens;
           stat_untranslated := untranslated; stat_unfinished := unfinished |}
  end.

(** [Catalog::GetStatistics], called with the five pointers set.  (A null
    pointer only leaves its own counter out: [ok] is computed for every
    item whichever counters are asked for.) *)
Definition GetStatistics (cat : Catalog) : Statistics :=
  GetStatistics_loop (m_items cat)
    {| stat_all := 0; stat_fuzzy := 0; stat_badtokens := 0;
       stat_untranslated := 0; stat_unfinished := 0 |}.

End GetStatistics.

(** The placeholder value that [CreateNewHeader] gives a template. *)
Definition default_plural_forms : wxString :=
  wxS "nplurals=INTEGER; plural=EXPRESSION;".

(** [Catalog::CreateNewHeader()].  The current time as [GetCurrentTimeString]
    formats it and the translator's name and e-mail address as [wxConfig]
    has them are read from the environment: they are arguments here.  A run
    of member assignments of the source is one record here, in the order of
    the source around the calls of the header store. *)
Definition CreateNewHeader (now translator_name translator_email : wxString)
    (cat : Catalog) : Catalog :=
  let dt := m_header cat in
  let dt :=
    {| Project := Project dt; CreationDate := now; RevisionDate := now;
       Translator := Translator dt; TranslatorEmail := TranslatorEmail dt;
       LanguageTeam := LanguageTeam dt; Charset := Charset dt;
       Lang := Language_new;
       SourceCodeCharset := SourceCodeCharset dt; Keywords := Keywords dt;
       BasePath := BasePath dt; SearchPaths := SearchPaths dt;
       SearchPathsExcluded := SearchPathsExcluded dt;
       m_entries := m_entries dt |} in
  let dt :=
    match m_fileType cat with
    | POT => SetHeader (wxS "Plural-Forms") default_plural_forms dt
    | _ => dt
    end in
  let dt :=
    {| Project := wxEmptyString; CreationDate := CreationDate dt;
       RevisionDate := RevisionDate dt;
       Translator := translator_name; TranslatorEmail := translator_email;
       LanguageTeam := wxEmptyString; Charset := wxS "UTF-8";
       Lang := Lang dt;
       SourceCodeCharset := wxEmptyString; Keywords := Keywords dt;
       BasePath := wxS "."; SearchPaths := SearchPaths dt;
       SearchPathsExcluded := SearchPathsExcluded dt;
       m_entries := m_entries dt |} in
  set_header (UpdateDict dt) cat.

(** [Catalog::CreateNewHeader(const HeaderData& pot_header)] *)
Definition CreateNewHeader_from (now translator_name translator_email : wxString)
    (pot_header : HeaderData) (cat : Catalog) : Catalog :=
  let dt := pot_header in
  let dt :=
    {| Project :=
         if Wx.eqb (Project dt) (wxS "PROJECT VERSION") then [] else Project dt;
       CreationDate := CreationDate dt;
       RevisionDate :=
         if negb (Wx.empty (RevisionDate dt)) then now else RevisionDate dt;
       Translator := Translator dt; TranslatorEmail := TranslatorEmail dt;
       LanguageTeam :=
         if Wx.eqb (LanguageTeam dt) (wxS "LANGUAGE <LL@li.org>") then []
         else LanguageTeam dt;
       Charset := wxS "UTF-8"; Lang := Language_new;
       SourceCodeCharset := SourceCodeCharset dt; Keywords := Keywords dt;
       BasePath := BasePath dt; SearchPaths := SearchPaths dt;
       SearchPathsExcluded := SearchPathsExcluded dt;
       m_entries := m_entries dt |} in
  let dt :=
    if Wx.eqb (GetHeader dt (wxS "Plural-Forms")) default_plural_forms
    then DeleteHeader (wxS "Plural-Forms") dt else dt in
  let dt := DeleteHeader (wxS "Last-Translator") dt in
  let dt :=
    {| Project := Project dt; CreationDate := CreationDate dt;
       RevisionDate := RevisionDate dt;
       Translator := translator_name; TranslatorEmail := translator_email;
       LanguageTeam := LanguageTeam dt; Charset := Charset dt;
       Lang := Lang dt;
       SourceCodeCharset := SourceCodeCharset dt; Keywords := Keywords dt;
       BasePath := BasePath dt; SearchPaths := SearchPaths dt;
       SearchPathsExcluded := SearchPathsExcluded dt;
       m_entries := m_entries dt |} in
  set_header (UpdateDict dt) cat.

End Catalog.
End Catalog.

Abbreviation Catalog := Catalog.Catalog.

(** A catalog of the given items and nothing else. *)
Definition catalog_of `{Ext : Externals} (items : list CatalogItem) : Catalog :=
  {| Catalog.m_fileType := Catalog.PO;
     Catalog.m_header := blank_header [];
     Catalog.m_items := items;
     Catalog.m_fileName := [];
     Catalog.m_sideloaded := None |}.

(** An item with the given source, slots and line number. *)
Definition item_at_line (source : wxString) (slots : wxArrayString) (line : Z)
  : CatalogItem :=
  {| m_string := source;
     m_plural := [];
     m_hasPlural := false;
     m_translations := slots;
     m_extractedComments := [];
     m_oldMsgid := [];
     m_isFuzzy := false;
     m_isTranslated := CatalogItem.all_slots_filled slots;
     m_isModified := false;
     m_isPreTranslated := false;
     m_moreFlags := [];
     m_lineNum := line;
     m_issue := None;
     m_sideloaded := None |}.

(** ** Vocabulary of the statements about [Catalog] *)

(** The items are in ascending order of line number. *)
Definition sorted_by_line (items : list CatalogItem) : Prop :=
  forall j k a b,
    j <= k -> items !! j = Some a -> items !! k = Some b ->
    (CatalogItem.GetLineNumber a <= CatalogItem.GetLineNumber b)%Z.

(** The translation of [i] repeats its source, in a catalog whose
    plural-forms count is [count]: the primary translation equals the source
    string and, for a pluralized item, the count is 2 and the second slot
    equals the plural source. *)
Definition same_as_source (count : nat) (i : CatalogItem) : Prop :=
  CatalogItem.GetTranslation i 0 = CatalogItem.GetString i /\
  (CatalogItem.HasPlural i = false \/
   (count = 2 /\ CatalogItem.GetTranslation i 1 = CatalogItem.GetPluralString i)).

Global Instance same_as_source_dec (count : nat) (i : CatalogItem) :
  Decision (same_as_source count i).
Proof. unfold same_as_source. apply _. Defined.

(** Equality of items is decidable. *)
Global Instance SideloadedItemData_eq_dec : EqDecision SideloadedItemData.
Proof. solve_decision. Defined.

Global Instance CatalogItem_eq_dec : EqDecision CatalogItem.
Proof. solve_decision. Defined.

(** The item holds no translation and carries none of the flags that
    [ClearTranslation] drops: clearing it changes nothing. *)
Definition already_clear (i : CatalogItem) : Prop :=
  Forall (fun t => t = wxEmptyString) (m_translations i) /\
  m_isFuzzy i = false /\ m_isPreTranslated i = false /\
  m_isTranslated i = false.

(** The pass over the items, as a map: the items that repeat their source
    are cleared, the others are left as they are. *)
Definition prune_item (count : nat) (i : CatalogItem) : CatalogItem :=
  if decide (same_as_source count i) then CatalogItem.ClearTranslation i else i.

(** [r] is the last item of [refs] whose raw source string is [source]. *)
Definition last_with_source (refs : list CatalogItem) (source : wxString)
    (r : CatalogItem) : Prop :=
  exists before after,
    refs = before ++ r :: after /\
    CatalogItem.GetRawString r = source /\
    Forall (fun x => CatalogItem.GetRawString x <> source) after.

(** The overlay that sideloading takes from the reference item [r]. *)
Definition overlay_from (r : CatalogItem) (d : SideloadedItemData) : Prop :=
  source_string d = CatalogItem.GetTranslation r 0 /\
  source_plural_string d =
    (if CatalogItem.HasPlural r then CatalogItem.GetTranslation r 1 else []) /\
  extracted_comments d = CatalogItem.GetExtractedComments r.

(** ** Vocabulary of the statements about texts and headers *)

(** The pieces of [s] between the characters of [delims], empty ones
    included: ["a;;b"] has the pieces ["a"], [""] and ["b"]. *)
Fixpoint split_on (delims s : wxString) : list wxString :=
  match s with
  | [] => [[]]
  | c :: s' =>
      if Wx.one_of delims c then [] :: split_on delims s'
      else match split_on delims s' with
           | piece :: pieces => (c :: piece) :: pieces
           | [] => [[c]]
           end
  end.

(** The lines of a text: its non-empty pieces between line feeds. *)
Definition LF : ascii := "010"%char.

Definition lines (str : wxString) : list wxString :=
  filter (fun ln => ln <> []) (split_on [LF] str).

(** [en] is the entry of the header line [ln]: key and value are the text
    before and after the first colon, stripped of surrounding white
    space. *)
Definition entry_of_line (ln : wxString) (en : Entry) : Prop :=
  exists before after,
    ln = before ++ ":"%char :: after /\
    (":"%char ∉ before) /\
    Key en = Wx.Strip Wx.both before /\
    Value en = Wx.Strip Wx.both after.

(** The value of the first entry with the key, if there is one. *)
Fixpoint first_value (key : wxString) (es : Entries) : option wxString :=
  match es with
  | [] => None
  | e :: es' => if decide (Key e = key) then Some (Value e) else first_value key es'
  end.

(** The entry list after a [SetHeader]: the first entry with the key gets
    the value, or a new entry is appended. *)
Fixpoint set_entry (key value : wxString) (es : Entries) : Entries :=
  match es with
  | [] => [{| Key := key; Value := value |}]
  | e :: es' =>
      if decide (Key e = key) then {| Key := Key e; Value := value |} :: es'
      else e :: set_entry key value es'
  end.

(** The keys that [ParseDict] removes from the entries it is given: the
    legacy language pair always, the legacy keyword list once it has been
    read (which is when the newer list is missing or empty while the legacy
    one is not). *)
Definition legacy_key (es : Entries) (key : wxString) : Prop :=
  key = wxS "X-Poedit-Language" \/
  key = wxS "X-Poedit-Country" \/
  (key = wxS "X-Poedit-Keywords" /\
   default [] (first_value (wxS "X-Poedit-KeywordsList") es) = [] /\
   default [] (first_value (wxS "X-Poedit-Keywords") es) <> []).

Global Instance legacy_key_dec (es : Entries) (key : wxString) :
  Decision (legacy_key es key).
Proof. unfold legacy_key. apply _. Defined.

(** The entry that the loop of [FromString] makes of a line, if the line has
    a colon. *)
Definition parse_line (ln : wxString) : option Entry :=
  match Wx.find_char ":"%char ln with
  | None => None
  | Some pos =>
      Some {| Key := Wx.Strip Wx.both (Wx.substr ln 0 pos);
              Value := Wx.Strip Wx.both (Wx.substr_from ln (pos + 1)) |}
  end.

(** A key is standard when it is one of the eleven of [canonicalOrder]. *)
Definition standard_key (key : wxString) : Prop := key ∈ canonicalOrder.

(** The rank by which [NormalizeHeaderOrder] compares: the position in
    [canonicalOrder], 12 for any other key. *)
Definition canonical_rank (key : wxString) : Z :=
  coalesce canonicalOrder (wxArrayString_Index canonicalOrder key).

(** A key of one of the two indexed series. *)
Definition indexed_key (key : wxString) : Prop :=
  exists i : N, key = SearchPath_key i \/ key = SearchPathExcluded_key i.

(** The keys of the entries that are not standard, in order. *)
Definition extension_keys (es : Entries) : list wxString :=
  filter (fun key => ~ standard_key key) (map Key es).

(** The keys of [cur] are those of [es] without the ones removed, in their
    order, followed by keys added since; a key is removed only if
    [may_remove] allows it and added only if [may_add] does. *)
Definition keys_kept_in_order (may_remove may_add : wxString -> Prop)
    (es cur : Entries) : Prop :=
  exists (removed : wxString -> bool) (added : list wxString),
    map Key cur = filter (fun key => removed key = false) (map Key es) ++ added /\
    (forall key, removed key = true -> may_remove key) /\
    (forall key, key ∈ added -> may_add key).

(** The keys that [UpdateDict] may remove from the entries of [h]: the
    language, the source charset and the base path when the field is empty,
    and the keys of the indexed series. *)
Definition UpdateDict_may_remove `{Ext : Externals} (h : HeaderData)
    (key : wxString) : Prop :=
  (key = wxS "Language" /\ Language_Code (Lang h) = []) \/
  (key = wxS "X-Poedit-SourceCharset" /\ SourceCodeCharset h = []) \/
  (key = wxS "X-Poedit-Basepath" /\ BasePath h = []) \/
  indexed_key key.

(** The keys that [UpdateDict] may append to the entries of [h]: a standard
    key, the generator, the source charset, the keyword list and the base
    path when the field is not empty, and the keys of the indexed series. *)
Definition UpdateDict_may_add `{Ext : Externals} (h : HeaderData)
    (key : wxString) : Prop :=
  standard_key key \/
  key = wxS "X-Generator" \/
  (key = wxS "X-Poedit-SourceCharset" /\ SourceCodeCharset h <> []) \/
  (key = wxS "X-Poedit-KeywordsList" /\ Keywords h <> []) \/
  (key = wxS "X-Poedit-Basepath" /\ BasePath h <> []) \/
  indexed_key key.

(** A header with the given raw entries and search paths, the other fields
    empty. *)
Definition header_with_paths `{Ext : Externals} (entries : Entries)
    (paths : list wxString) : HeaderData :=
  {| Project := []; CreationDate := []; RevisionDate := [];
     Translator := []; TranslatorEmail := []; LanguageTeam := [];
     Charset := []; Lang := Language_new; SourceCodeCharset := [];
     Keywords := []; BasePath := []; SearchPaths := paths;
     SearchPathsExcluded := []; m_entries := entries |}.

(** ** Vocabulary of the round trip of the header *)

(** The first-class fields of two headers are the same. *)
Definition same_fields `{Ext : Externals} (a b : HeaderData) : Prop :=
  Project a = Project b /\
  CreationDate a = CreationDate b /\
  RevisionDate a = RevisionDate b /\
  Translator a = Translator b /\
  TranslatorEmail a = TranslatorEmail b /\
  LanguageTeam a = LanguageTeam b /\
  Charset a = Charset b /\
  Lang a = Lang b /\
  SourceCodeCharset a = SourceCodeCharset b /\
  Keywords a = Keywords b /\
  BasePath a = BasePath b /\
  SearchPaths a = SearchPaths b /\
  SearchPathsExcluded a = SearchPathsExcluded b.

(** [h'] is [h] with other raw entries. *)
Definition same_but_entries `{Ext : Externals} (h' h : HeaderData) : Prop :=
  exists es, h' = set_entries es h.

(** A text that a header line carries unchanged: it has no line feed and no
    white space at either end. *)
Definition line_safe (v : wxString) : Prop :=
  (LF ∉ v) /\ Wx.Trim_left v = v /\ Wx.Trim_right v = v.

(** A key that a header line carries unchanged: line safe and without
    colon. *)
Definition key_safe (key : wxString) : Prop :=
  line_safe key /\ (":"%char ∉ key).

Definition entry_safe (e : Entry) : Prop :=
  key_safe (Key e) /\ line_safe (Value e).

(** A search path that [ParseDict] reads back as it is: not empty, line
    safe, and left alone by [FixBrokenSearchPathValue]. *)
Definition path_safe (p : wxString) : Prop :=
  p <> [] /\ line_safe p /\ FixBrokenSearchPathValue p = p.


(** Every raw entry of the header is safe on the wire: its key and its value
    are as [FromString] reads them from a line. *)
Definition entries_safe `{Ext : Externals} (h : HeaderData) : Prop :=
  Forall entry_safe (m_entries h).

(** The entry of index [length paths] of a series, if the header has one, is
    not behind a gap: every smaller index has an entry too.  ([UpdateDict]
    deletes the old entries of a series up to the first gap only.) *)
Definition no_entry_behind_gap `{Ext : Externals} (series : N -> wxString)
    (paths : list wxString) (h : HeaderData) : Prop :=
  HasHeader h (series (N.of_nat (length paths))) = true ->
  forall j, j < length paths -> HasHeader h (series (N.of_nat j)) = true.

(** The conditions under which the fields of a header survive
    [ToString] and [FromString].  The raw entries may hold anything that a
    header line can carry; what is ruled out are the stale entries that
    [UpdateDict] leaves alone and [ParseDict] reads in place of a field. *)
Record round_trip_ready `{Ext : Externals} (h : HeaderData) : Prop := {
  (* the raw entries, whatever they are, fit on a header line each *)
  rt_entries : entries_safe h;
  (* the plain text fields *)
  rt_Project : line_safe (Project h);
  rt_CreationDate : line_safe (CreationDate h);
  rt_RevisionDate : line_safe (RevisionDate h);
  rt_LanguageTeam : line_safe (LanguageTeam h);
  rt_Charset : line_safe (Charset h);
  rt_SourceCodeCharset : line_safe (SourceCodeCharset h);
  (* name and e-mail: no angle brackets; no e-mail without a name *)
  rt_Translator : line_safe (Translator h);
  rt_TranslatorEmail : line_safe (TranslatorEmail h);
  rt_brackets :
    Forall (fun c => Wx.one_of (wxS "<>") c = false)
           (Translator h ++ TranslatorEmail h);
  rt_name : TranslatorEmail h <> [] -> Translator h <> [];
  (* without name and e-mail [UpdateDict] keeps a Last-Translator entry as
     it is: it has no value then *)
  rt_stale_translator :
    Translator h = [] -> TranslatorEmail h = [] ->
    GetHeader h (wxS "Last-Translator") = [];
  (* the language is the one its code parses to; no code, no language *)
  rt_Lang_code : line_safe (Language_Code (Lang h));
  rt_Lang :
    Lang h = if Wx.empty (Language_Code (Lang h)) then Language_new
             else Language_TryParse (Language_Code (Lang h));
  (* [ParseDict] falls back on the legacy language entries when the
     language is not valid: they have no value then, or give the same
     language *)
  rt_stale_language :
    Language_IsValid (Lang h) = false ->
    (GetHeader h (wxS "X-Language") = [] \/
     Language_TryParse (GetHeader h (wxS "X-Language")) = Lang h) /\
    (GetHeader h (wxS "X-Poedit-Language") = [] \/
     Language_FromLegacyNames (GetHeader h (wxS "X-Poedit-Language"))
                              (GetHeader h (wxS "X-Poedit-Country")) = Lang h);
  (* the version text *)
  rt_version : POEDIT_VERSION <> [] /\ line_safe POEDIT_VERSION;
  (* keywords: no semicolon inside, the last one not empty *)
  rt_Keywords_semicolon : Forall (fun k => ";"%char ∉ k) (Keywords h);
  rt_Keywords_last : last (Keywords h) <> Some [];
  rt_Keywords_line : line_safe (join_keywords (Keywords h));
  (* without keywords [UpdateDict] keeps the keyword entries as they are:
     they have no value then *)
  rt_stale_keywords :
    Keywords h = [] ->
    GetHeader h (wxS "X-Poedit-KeywordsList") = [] /\
    GetHeader h (wxS "X-Poedit-Keywords") = [];
  (* paths *)
  rt_BasePath : line_safe (BasePath h);
  rt_BasePath_fixed : FixBrokenSearchPathValue (BasePath h) = BasePath h;
  rt_SearchPaths : Forall path_safe (SearchPaths h);
  rt_SearchPathsExcluded : Forall path_safe (SearchPathsExcluded h);
  (* no old entry of a series is left right behind the new ones *)
  rt_stale_paths : no_entry_behind_gap SearchPath_key (SearchPaths h) h;
  rt_stale_excluded :
    no_entry_behind_gap SearchPathExcluded_key (SearchPathsExcluded h) h
}.



(** A header with every field set, for the concrete runs of the round
    trip. *)
Definition sample_header : @HeaderData sample_Externals :=
  {| Project := wxS "poedit 3.4"; CreationDate := wxS "2023-01-02 10:00+0100";
     RevisionDate := wxS "2023-02-03 11:30+0100";
     Translator := wxS "Jane Doe"; TranslatorEmail := wxS "jane@example.org";
     LanguageTeam := wxS "Czech <cs@example.org>";
     Charset := wxS "UTF-8"; Lang := (wxS "cs" : @Language sample_Externals);
     SourceCodeCharset := wxS "UTF-8";
     Keywords := [wxS "_"; wxS "gettext:1,2"]; BasePath := wxS "..";
     SearchPaths := [wxS "src"; wxS "lib"];
     SearchPathsExcluded := [wxS "build"]; m_entries := [] |}.


(** ** Vocabulary of the statements about the previous msgid *)

(** A line of the previous msgid as a PO file has it: the [msgid] line, the
    [msgid_plural] line, or a continuation line, each with its text in
    quotes.  (Character 034 is the quote.) *)
Inductive old_msgid_record :=
  | old_msgid (text : wxString)
  | old_msgid_plural (text : wxString)
  | old_continued (text : wxString).

Definition old_msgid_line_of (r : old_msgid_record) : wxString :=
  match r with
  | old_msgid a => wxS "msgid " ++ ["034"%char] ++ a ++ ["034"%char]
  | old_msgid_plural c => wxS "msgid_plural " ++ ["034"%char] ++ c ++ ["034"%char]
  | old_continued b => ["034"%char] ++ b ++ ["034"%char]
  end.

(** The text a line stands for, still escaped: the plural starts on a new
    line. *)
Definition old_msgid_text_of (r : old_msgid_record) : wxString :=
  match r with
  | old_msgid a => a
  | old_msgid_plural c => "010"%char :: c
  | old_continued b => b
  end.

(** A continuation line whose text does not itself look like the start of a
    [msgid] or [msgid_plural] line. *)
Definition old_msgid_record_plain (r : old_msgid_record) : Prop :=
  match r with
  | old_continued b =>
      Wx.starts_with (wxS "msgid " ++ ["034"%char]) b = false /\
      Wx.starts_with (wxS "msgid_plural " ++ ["034"%char]) b = false
  | _ => True
  end.

(** The keys that [UpdateDict] writes or deletes: the ones it names and the
    two indexed series. *)
Definition managed_keys : wxArrayString :=
  [ wxS "Project-Id-Version"; wxS "POT-Creation-Date"; wxS "PO-Revision-Date";
    wxS "Last-Translator"; wxS "Language-Team"; wxS "MIME-Version";
    wxS "Content-Type"; wxS "Content-Transfer-Encoding"; wxS "Language";
    wxS "X-Generator"; wxS "X-Poedit-SourceCharset";
    wxS "X-Poedit-KeywordsList"; wxS "X-Poedit-Basepath" ].

Definition managed_key (key : wxString) : Prop :=
  key ∈ managed_keys \/ indexed_key key.

(** The entries of the series [series] are numbered from 0 without a gap:
    the indices that have an entry are those below [n]. *)
Definition series_contiguous (series : N -> wxString) (es : Entries) (n : nat)
  : Prop :=
  forall j : N, is_Some (first_value (series j) es) <-> (j < N.of_nat n)%N.




(** * Theorems *)

(** ** Text helpers *)

Lemma empty_true_iff (s : wxString) : Wx.empty s = true <-> s = [].
Proof. destruct s; simpl; split; congruence. Qed.

Lemma empty_false_iff (s : wxString) : Wx.empty s = false <-> s <> [].
Proof. destruct s; simpl; split; congruence. Qed.

Lemma wx_eqb_eq (a b : wxString) : Wx.eqb a b = true <-> a = b.
Proof. unfold Wx.eqb. apply bool_decide_eq_true. Qed.

Lemma wx_eqb_neq (a b : wxString) : Wx.eqb a b = false <-> a <> b.
Proof. unfold Wx.eqb. apply bool_decide_eq_false. Qed.

Lemma wx_eqb_refl (a : wxString) : Wx.eqb a a = true.
Proof. now apply wx_eqb_eq. Qed.

Lemma starts_with_app (p s : wxString) : Wx.starts_with p (p ++ s) = true.
Proof.
  induction p as [|a p IH]; simpl; [reflexivity|].
  now rewrite Ascii.eqb_refl, IH.
Qed.

Lemma starts_with_split (p s : wxString) :
  Wx.starts_with p s = true -> s = p ++ drop (length p) s.
Proof.
  revert s. induction p as [|a p IH]; intros [|b s]; simpl; try easy.
  intros [Hab Hps]%andb_prop. apply Ascii.eqb_eq in Hab as ->.
  f_equal. now apply IH.
Qed.

(** [Wx.find] returns the first occurrence, and [None] only when there is
    none. *)
Lemma find_None (sub s : wxString) :
  Wx.find sub s = None -> forall pos, ~ occurs_at sub s pos.
Proof.
  unfold occurs_at. induction s as [|c s IH]; simpl.
  - destruct (Wx.starts_with sub []) eqn:E; [discriminate|].
    intros _ pos. rewrite drop_nil. congruence.
  - destruct (Wx.starts_with sub (c :: s)) eqn:E; [discriminate|].
    destruct (Wx.find sub s) eqn:F; [discriminate|].
    intros _ [|pos]; simpl; [congruence|]. now apply IH.
Qed.

Lemma find_Some (sub s : wxString) (pos : nat) :
  Wx.find sub s = Some pos -> first_occurrence sub s pos.
Proof.
  unfold first_occurrence, occurs_at. revert pos.
  induction s as [|c s IH]; intros pos; simpl.
  - destruct (Wx.starts_with sub []) eqn:E; [|discriminate].
    intros [= <-]. split; [exact E | lia].
  - destruct (Wx.starts_with sub (c :: s)) eqn:E.
    + intros [= <-]. split; [exact E | lia].
    + destruct (Wx.find sub s) as [q|] eqn:F; [|discriminate].
      intros [= <-]. destruct (IH q eq_refl) as [Hq Hmin].
      split; [exact Hq|]. intros [|p] Hp; simpl; [congruence|].
      apply Hmin. lia.
Qed.

(** What the scan of [find_last_of] returns: the seed when no character of
    the set is met, else the position of the last one met. *)
Lemma find_last_of_scan_spec (chars s : wxString) (i : nat) (seed : option nat) :
  (Wx.find_last_of_scan chars s i seed = seed /\
   Forall (fun c => Wx.one_of chars c = false) s)
  \/
  (exists j c,
     Wx.find_last_of_scan chars s i seed = Some (i + j) /\
     s !! j = Some c /\ Wx.one_of chars c = true /\
     Forall (fun c => Wx.one_of chars c = false) (drop (S j) s)).
Proof.
  revert i seed. induction s as [|c s IH]; intros i seed; simpl.
  - left. split; [reflexivity | constructor].
  - destruct (IH (S i) (if Wx.one_of chars c then Some i else seed))
      as [[Heq Hall] | (j & d & Heq & Hj & Hd & Hall)].
    + destruct (Wx.one_of chars c) eqn:Hc.
      * right. exists 0, c. rewrite Heq, Nat.add_0_r. simpl.
        repeat split; try assumption. 
      * left. split; [exact Heq | now constructor].
    + right. exists (S j), d. rewrite Heq. simpl.
      repeat split; try assumption. f_equal. lia.
Qed.

Lemma find_last_of_None (chars s : wxString) (pos : nat) :
  Wx.find_last_of chars s pos = None ->
  Forall (fun c => Wx.one_of chars c = false) (take (S pos) s).
Proof.
  unfold Wx.find_last_of. intros H.
  destruct (find_last_of_scan_spec chars (take (S pos) s) 0 None)
    as [[_ Hall] | (j & d & Heq & _)]; [exact Hall | congruence].
Qed.

Lemma find_last_of_Some (chars s : wxString) (pos space : nat) :
  Wx.find_last_of chars s pos = Some space ->
  space <= pos /\
  (exists c, s !! space = Some c /\ Wx.one_of chars c = true) /\
  Forall (fun c => Wx.one_of chars c = false)
         (take (pos - space) (drop (S space) s)).
Proof.
  unfold Wx.find_last_of. intros H.
  destruct (find_last_of_scan_spec chars (take (S pos) s) 0 None)
    as [[Heq _] | (j & d & Heq & Hj & Hd & Hall)]; [congruence|].
  rewrite H in Heq. injection Heq as ->. simpl in *.
  assert (Hlt : j < S pos).
  { apply lookup_lt_Some in Hj. rewrite length_take in Hj. lia. }
  split; [lia|]. split.
  - exists d. split; [|exact Hd]. now rewrite lookup_take_lt in Hj.
  - rewrite skipn_firstn_comm in Hall.
    replace (S pos - S j) with (pos - j) in Hall by lia. exact Hall.
Qed.

(** ** CatalogItem *)

Lemma occurs_at_lookup (c : ascii) (sub s : wxString) (pos : nat) :
  occurs_at (c :: sub) s pos -> s !! pos = Some c.
Proof.
  unfold occurs_at. intros H. rewrite <- (Nat.add_0_r pos), <- lookup_drop.
  destruct (drop pos s) as [|d r]; simpl in *; [discriminate|].
  apply andb_prop in H as [H _]. apply Ascii.eqb_eq in H. now subst.
Qed.

(** C2 (as amended): [GetFormatFlag] works from the FIRST occurrence of
    "-format" in the flags string.  Either "-format" does not occur and the
    result is empty, or the result is decided by the token that ends right
    before the first occurrence (the longest run of characters other than
    space and tab): empty when the token starts with "no-", the token
    otherwise. *)
Theorem GetFormatFlag_first_occurrence (it : CatalogItem) :
  ((forall pos, ~ occurs_at (wxS "-format") (m_moreFlags it) pos) /\
   CatalogItem.GetFormatFlag it = [])
  \/
  (exists pos tok,
     first_occurrence (wxS "-format") (m_moreFlags it) pos /\
     token_before (m_moreFlags it) pos tok /\
     CatalogItem.GetFormatFlag it =
       if Wx.starts_with (wxS "no-") tok then [] else tok).
Proof.
  unfold CatalogItem.GetFormatFlag.
  destruct (Wx.empty (m_moreFlags it)) eqn:Hempty.
  { left. apply empty_true_iff in Hempty. rewrite Hempty.
    split; [|reflexivity]. intros pos. unfold occurs_at.
    rewrite drop_nil. discriminate. }
  destruct (Wx.find (wxS "-format") (m_moreFlags it)) as [pos|] eqn:Hfind.
  2:{ left. split; [now apply find_None | reflexivity]. }
  right. exists pos.
  pose proof (find_Some _ _ _ Hfind) as Hfirst.
  assert (Hdash : m_moreFlags it !! pos = Some "-"%char)
    by (eapply occurs_at_lookup, Hfirst).
  set (s := m_moreFlags it) in *.
  destruct (Wx.find_last_of (wxS " " ++ ["009"%char]) s pos) as [space|] eqn:Hsp.
  - apply find_last_of_Some in Hsp as (Hle & (c & Hc & Hblank) & Hall).
    assert (Hlt : space < pos).
    { destruct (decide (space = pos)) as [->|]; [|lia].
      rewrite Hdash in Hc. injection Hc as <-. discriminate. }
    exists (Wx.substr s (space + 1) (pos - space - 1)).
    split; [exact Hfirst|]. split; [|reflexivity].
    exists (take (space + 1) s). unfold Wx.substr. split; [|split].
    + rewrite take_take_drop. f_equal. lia.
    + replace (space + 1) with (S space) by lia.
      replace (pos - space - 1) with (Nat.min (pos - space - 1) (pos - space)) by lia.
      rewrite <- take_take. now apply Forall_take.
    + right. exists (take space s), c. split; [|exact Hblank].
      replace (space + 1) with (S space) by lia. now apply take_S_r.
  - apply find_last_of_None in Hsp.
    exists (Wx.substr s 0 pos).
    split; [exact Hfirst|]. split; [|reflexivity].
    exists []. unfold Wx.substr. rewrite drop_0. split; [reflexivity|].
    split; [|now left].
    replace pos with (Nat.min pos (S pos)) by lia.
    rewrite <- take_take. now apply Forall_take.
Qed.

(** C2 (as stated) fails: in ", no-c-format, python-format" the last
    occurrence of "-format" follows the token "python", yet the code answers
    from the first occurrence, whose token "no-c" is negated, and returns
    the empty result. *)
Lemma GetFormatFlag_not_last_occurrence :
  ~ (forall (it : CatalogItem) (pos : nat) (tok : wxString),
       last_occurrence (wxS "-format") (m_moreFlags it) pos ->
       token_before (m_moreFlags it) pos tok ->
       CatalogItem.GetFormatFlag it =
         if Wx.starts_with (wxS "no-") tok then [] else tok).
Proof.
  intros H.
  specialize (H (flagged_item (wxS ", no-c-format, python-format")) 21
                (wxS "python")).
  assert (Hlast : last_occurrence (wxS "-format")
            (m_moreFlags (flagged_item (wxS ", no-c-format, python-format"))) 21).
  { split; [reflexivity|]. intros p Hp. unfold occurs_at. simpl m_moreFlags.
    do 29 (destruct p as [|p]; [first [lia | vm_compute; discriminate]|]).
    vm_compute. discriminate. }
  assert (Htok : token_before
            (m_moreFlags (flagged_item (wxS ", no-c-format, python-format")))
            21 (wxS "python")).
  { exists (wxS ", no-c-format, "). split; [reflexivity|]. split.
    - repeat constructor.
    - right. exists (wxS ", no-c-format,"), " "%char. split; reflexivity. }
  specialize (H Hlast Htok). vm_compute in H. discriminate.
Qed.

(** C10: reading a translation slot at an index that is not below the
    number of slots gives the empty string; the accessor is a function of
    the item alone (it is [const]), so the item is as it was. *)
Theorem GetTranslation_out_of_range (it : CatalogItem) (idx : nat) :
  CatalogItem.GetNumberOfTranslations it <= idx ->
  CatalogItem.GetTranslation it idx = wxEmptyString.
Proof.
  intros H. unfold CatalogItem.GetTranslation.
  now rewrite (proj2 (Nat.leb_le _ _) H).
Qed.

Lemma GetTranslation_out_of_range_witness :
  CatalogItem.GetNumberOfTranslations
    (plain_item (wxS "Hello") None [wxS "Bonjour"]) <= 1 /\
  CatalogItem.GetTranslation
    (plain_item (wxS "Hello") None [wxS "Bonjour"]) 1 = wxEmptyString.
Proof.
  split; [vm_compute; lia|].
  apply (GetTranslation_out_of_range
           (plain_item (wxS "Hello") None [wxS "Bonjour"]) 1).
  vm_compute; lia.
Defined.

Lemma GetTranslation_in_range (it : CatalogItem) (idx : nat) :
  idx < CatalogItem.GetNumberOfTranslations it ->
  m_translations it !! idx = Some (CatalogItem.GetTranslation it idx).
Proof.
  intros H. unfold CatalogItem.GetTranslation, CatalogItem.GetNumberOfTranslations in *.
  destruct (Nat.leb_spec (length (m_translations it)) idx); [lia|].
  destruct (lookup_lt_is_Some_2 (m_translations it) idx H) as [t Ht].
  rewrite Ht. f_equal. symmetry. now apply nth_lookup_Some with (d := []) in Ht.
Qed.

(** The recomputation loop answers whether every slot is non-empty. *)
Lemma all_slots_filled_spec (ts : wxArrayString) :
  CatalogItem.all_slots_filled ts = true <->
  Forall (fun t => t <> wxEmptyString) ts.
Proof.
  induction ts as [|t ts IH]; simpl.
  - split; [constructor | reflexivity].
  - destruct t as [|c t]; simpl.
    + split; [discriminate|]. intros H. inversion H as [|? ? Hne _].
      now contradiction Hne.
    + rewrite IH. split.
      * intros H. constructor; [discriminate | exact H].
      * intros H. now inversion H.
Qed.

Lemma grow_to_spec (fuel idx : nat) (ts : wxArrayString) :
  S idx - length ts <= fuel ->
  CatalogItem.grow_to fuel idx ts = ts ++ replicate (S idx - length ts) wxEmptyString.
Proof.
  revert ts. induction fuel as [|fuel IH]; intros ts Hf; simpl.
  - replace (S idx - length ts) with 0 by lia. simpl. now rewrite app_nil_r.
  - destruct (Nat.leb_spec (length ts) idx) as [Hle|Hgt].
    + rewrite IH by (rewrite length_app; simpl; lia).
      rewrite length_app. simpl.
      replace (S idx - length ts) with (S (idx - length ts)) by lia.
      replace (S idx - (length ts + 1)) with (idx - length ts) by lia.
      simpl. now rewrite <- app_assoc.
    + replace (S idx - length ts) with 0 by lia. simpl. now rewrite app_nil_r.
Qed.

(** [SetTranslation] pads with empty slots up to the index, writes the slot
    and keeps what was there. *)
Lemma SetTranslation_slots (t : wxString) (idx : nat) (it : CatalogItem) :
  m_translations (CatalogItem.SetTranslation t idx it) =
  <[idx := t]> (m_translations it ++
                replicate (S idx - length (m_translations it)) wxEmptyString).
Proof.
  unfold CatalogItem.SetTranslation, CatalogItem.UpdateInternalRepresentation.
  cbn [m_translations CatalogItem.set_isTranslated CatalogItem.ClearIssue
       CatalogItem.set_issue CatalogItem.set_translations].
  rewrite grow_to_spec; [reflexivity | lia].
Qed.

Lemma SetTranslation_flag_ok (t : wxString) (idx : nat) (it : CatalogItem) :
  translated_flag_ok (CatalogItem.SetTranslation t idx it).
Proof. unfold translated_flag_ok. simpl. apply all_slots_filled_spec. Qed.

Lemma SetTranslations_flag_ok (ts : wxArrayString) (it : CatalogItem) :
  translated_flag_ok (CatalogItem.SetTranslations ts it).
Proof. unfold translated_flag_ok. simpl. apply all_slots_filled_spec. Qed.

Lemma clear_slots_spec (ts : wxArrayString) (modified : bool) :
  CatalogItem.clear_slots ts modified =
  (replicate (length ts) wxEmptyString,
   modified || existsb (fun t => negb (Wx.empty t)) ts).
Proof.
  revert modified. induction ts as [|t ts IH]; intros modified; simpl.
  - now rewrite orb_false_r.
  - rewrite IH. f_equal. destruct t, modified; reflexivity.
Qed.

Lemma ClearTranslation_slots (it : CatalogItem) :
  m_translations (CatalogItem.ClearTranslation it) =
  replicate (length (m_translations it)) wxEmptyString.
Proof.
  unfold CatalogItem.ClearTranslation. simpl.
  rewrite clear_slots_spec. reflexivity.
Qed.

Lemma ClearTranslation_flag (it : CatalogItem) :
  CatalogItem.IsTranslated (CatalogItem.ClearTranslation it) = false.
Proof.
  unfold CatalogItem.ClearTranslation. simpl.
  rewrite clear_slots_spec. reflexivity.
Qed.

Lemma ClearTranslation_flag_ok (it : CatalogItem) :
  m_translations it <> [] ->
  translated_flag_ok (CatalogItem.ClearTranslation it).
Proof.
  intros Hne. unfold translated_flag_ok.
  rewrite ClearTranslation_flag, ClearTranslation_slots.
  split; [discriminate|]. intros H.
  destruct (m_translations it) as [|t ts]; [congruence|].
  simpl in H. inversion H as [|? ? Hnil _]. now contradiction Hnil.
Qed.

Lemma copy_plural_spec (plural : wxString) (ts : wxArrayString) (modified : bool) :
  CatalogItem.copy_plural plural ts modified =
  (replicate (length ts) plural,
   modified || existsb (fun t => negb (Wx.eqb t plural)) ts).
Proof.
  revert modified. induction ts as [|t ts IH]; intros modified; simpl.
  - now rewrite orb_false_r.
  - destruct (Wx.eqb t plural) eqn:E; simpl; rewrite IH; simpl.
    + apply wx_eqb_eq in E as ->. reflexivity.
    + now rewrite orb_true_r.
Qed.

(** What [SetTranslationFromSource] leaves in the slots and in the
    translated flag: the source in slot 0, the plural source in every other
    slot of a pluralized item, and the flag set without looking at them. *)
Lemma SetTranslationFromSource_result (it : CatalogItem) (first : wxString)
    (others : wxArrayString) :
  m_translations it = first :: others ->
  exists it',
    CatalogItem.SetTranslationFromSource it = Some it' /\
    m_translations it' =
      m_string it :: (if m_hasPlural it
                      then replicate (length others) (m_plural it)
                      else others) /\
    CatalogItem.IsTranslated it' = true.
Proof.
  intros Hts. unfold CatalogItem.SetTranslationFromSource. simpl. rewrite Hts.
  destruct (Wx.eqb first (m_string it)) eqn:E; simpl.
  - apply wx_eqb_eq in E as ->.
    destruct (m_hasPlural it); [rewrite copy_plural_spec|]; eauto.
  - destruct (m_hasPlural it); [rewrite copy_plural_spec|]; eauto.
Qed.

(** On an item whose source strings are not empty and whose slots fit its
    plural flag (one slot when it has no plural), the flag that
    [SetTranslationFromSource] sets agrees with the slots. *)
Lemma SetTranslationFromSource_flag_ok (it it' : CatalogItem) :
  m_string it <> [] ->
  (if m_hasPlural it then m_plural it <> []
   else length (m_translations it) = 1) ->
  CatalogItem.SetTranslationFromSource it = Some it' ->
  translated_flag_ok it'.
Proof.
  intros Hsrc Hpl Hrun.
  destruct (m_translations it) as [|first others] eqn:Hts.
  { unfold CatalogItem.SetTranslationFromSource in Hrun. simpl in Hrun.
    now rewrite Hts in Hrun. }
  destruct (SetTranslationFromSource_result it first others Hts)
    as (it2 & Hrun2 & Hslots & Hflag).
  rewrite Hrun in Hrun2. injection Hrun2 as <-.
  unfold translated_flag_ok. rewrite Hflag, Hslots.
  split; [intros _ | reflexivity].
  constructor; [exact Hsrc|].
  destruct (m_hasPlural it).
  - apply Forall_replicate. exact Hpl.
  - destruct others; [constructor | discriminate].
Qed.

(** C4, at the failing input: an item with an empty source string and one
    slot holding "x".  [SetTranslationFromSource] copies the empty source
    into the slot and reports the item translated, although its only slot is
    empty: the flag no longer agrees with the slots. *)
Theorem SetTranslationFromSource_empty_source :
  exists it',
    CatalogItem.SetTranslationFromSource (plain_item [] None [wxS "x"]) = Some it' /\
    m_translations it' = [wxEmptyString] /\
    CatalogItem.IsTranslated it' = true /\
    ~ translated_flag_ok it'.
Proof.
  eexists. split; [reflexivity|]. split; [reflexivity|]. split; [reflexivity|].
  unfold translated_flag_ok. simpl. intros [H _].
  specialize (H eq_refl). inversion H as [|? ? Hne _]. now contradiction Hne.
Qed.

(** The mutators that recompute the flag, and [ClearTranslation] on an item
    with a slot, leave the translated flag in agreement with the slots. *)
Theorem recomputing_mutators_keep_translated_flag (it : CatalogItem) :
  (forall t idx, translated_flag_ok (CatalogItem.SetTranslation t idx it)) /\
  (forall ts, translated_flag_ok (CatalogItem.SetTranslations ts it)) /\
  (m_translations it <> [] ->
   translated_flag_ok (CatalogItem.ClearTranslation it)).
Proof.
  split; [|split].
  - intros. apply SetTranslation_flag_ok.
  - intros. apply SetTranslations_flag_ok.
  - apply ClearTranslation_flag_ok.
Qed.

(** ** Catalog: lookup by line *)

(** The loop counts the items in front of the first one whose line number
    exceeds [lineno]. *)
Lemma FindItemIndexByLine_loop_spec (items : list CatalogItem) (lineno last : Z) :
  exists m : nat,
    Catalog.FindItemIndexByLine_loop items lineno last = (last + Z.of_nat m)%Z /\
    m <= length items /\
    (forall j a, j < m -> items !! j = Some a ->
                 (CatalogItem.GetLineNumber a <= lineno)%Z) /\
    (forall a, items !! m = Some a -> (lineno < CatalogItem.GetLineNumber a)%Z).
Proof.
  revert last. induction items as [|i items IH]; intros last; simpl.
  - exists 0. repeat split; try lia; intros; try lia; discriminate.
  - destruct (Z.gtb_spec (CatalogItem.GetLineNumber i) lineno) as [Hgt|Hle].
    + exists 0. repeat split; try lia.
      intros a [= <-]. lia.
    + destruct (IH (last + 1)%Z) as (m & Heq & Hlen & Hbelow & Hat).
      exists (S m). repeat split; try lia.
      * intros [|j] a Hj Ha; simpl in Ha.
        -- injection Ha as <-. exact Hle.
        -- apply (Hbelow j); [lia | exact Ha].
      * intros a Ha. simpl in Ha. now apply Hat.
Qed.

(** C7: on a catalog whose items are in ascending order of line number,
    [FindItemIndexByLine n] is the index of the last item whose line number
    is at most [n] (and [FindItemByLine n] is that item); when no item has
    a line number at most [n] it is -1 (and [FindItemByLine n] is null). *)
Theorem FindItemIndexByLine_last_at_or_before `{Ext : Externals}
    (cat : Catalog) (n : Z) :
  sorted_by_line (Catalog.m_items cat) ->
  ((forall a, a ∈ Catalog.m_items cat -> (n < CatalogItem.GetLineNumber a)%Z) /\
   Catalog.FindItemIndexByLine cat n = (-1)%Z /\
   Catalog.FindItemByLine cat n = None)
  \/
  (exists (k : nat) (a : CatalogItem),
     Catalog.FindItemIndexByLine cat n = Z.of_nat k /\
     Catalog.m_items cat !! k = Some a /\
     Catalog.FindItemByLine cat n = Some a /\
     (CatalogItem.GetLineNumber a <= n)%Z /\
     (forall j b, k < j -> Catalog.m_items cat !! j = Some b ->
                  (n < CatalogItem.GetLineNumber b)%Z)).
Proof.
  intros Hsorted.
  unfold Catalog.FindItemByLine, Catalog.FindItemIndexByLine.
  destruct (FindItemIndexByLine_loop_spec (Catalog.m_items cat) n (-1))
    as (m & Heq & Hlen & Hbelow & Hat).
  rewrite Heq.
  assert (Hafter : forall j b, m <= j -> Catalog.m_items cat !! j = Some b ->
                               (n < CatalogItem.GetLineNumber b)%Z).
  { intros j b Hj Hb.
    destruct (lookup_lt_is_Some_2 (Catalog.m_items cat) m) as [a Ha].
    { apply lookup_lt_Some in Hb. lia. }
    specialize (Hat a Ha). specialize (Hsorted m j a b Hj Ha Hb). lia. }
  destruct m as [|k].
  - left. split; [|split; reflexivity].
    intros a [j Hj]%list_elem_of_lookup. apply (Hafter j); [lia | exact Hj].
  - right.
    destruct (lookup_lt_is_Some_2 (Catalog.m_items cat) k) as [a Ha]; [lia|].
    exists k, a.
    replace (-1 + Z.of_nat (S k))%Z with (Z.of_nat k) by lia.
    split; [reflexivity|]. split; [exact Ha|]. split.
    + destruct (Z.eqb_spec (Z.of_nat k) (-1)); [lia|].
      now rewrite Nat2Z.id.
    + split; [apply (Hbelow k); [lia | exact Ha]|].
      intros j b Hj Hb. apply (Hafter j); [lia | exact Hb].
Qed.

Lemma FindItemIndexByLine_last_at_or_before_witness :
  let cat := @catalog_of sample_Externals
               [item_at_line (wxS "a") [[]] 3; item_at_line (wxS "b") [[]] 7;
                item_at_line (wxS "c") [[]] 12] in
  Catalog.FindItemIndexByLine cat 9 = 1%Z /\
  ((forall a, a ∈ Catalog.m_items cat -> (9 < CatalogItem.GetLineNumber a)%Z) /\
   Catalog.FindItemIndexByLine cat 9 = (-1)%Z /\
   Catalog.FindItemByLine cat 9 = None
   \/
   exists (k : nat) (a : CatalogItem),
     Catalog.FindItemIndexByLine cat 9 = Z.of_nat k /\
     Catalog.m_items cat !! k = Some a /\
     Catalog.FindItemByLine cat 9 = Some a /\
     (CatalogItem.GetLineNumber a <= 9)%Z /\
     (forall j b, k < j -> Catalog.m_items cat !! j = Some b ->
                  (9 < CatalogItem.GetLineNumber b)%Z)).
Proof.
  split; [reflexivity|].
  apply (@FindItemIndexByLine_last_at_or_before sample_Externals).
  intros j k a b Hjk Ha Hb.
  destruct j as [|[|[|j]]]; destruct k as [|[|[|k]]]; simpl in Ha, Hb;
    try discriminate; try lia;
    injection Ha as <-; injection Hb as <-; simpl; lia.
Defined.

(** ** Catalog: pruning translations that repeat the source *)

Lemma set_items_same `{Ext : Externals} (cat : Catalog) :
  Catalog.set_items (Catalog.m_items cat) cat = cat.
Proof. now destruct cat. Qed.

Lemma set_items_twice `{Ext : Externals} (cat : Catalog) (a b : list CatalogItem) :
  Catalog.set_items b (Catalog.set_items a cat) = Catalog.set_items b cat.
Proof. reflexivity. Qed.

Lemma ClearTranslation_GetPluralFormsCount (i : CatalogItem) :
  CatalogItem.GetPluralFormsCount (CatalogItem.ClearTranslation i) =
  CatalogItem.GetPluralFormsCount i.
Proof.
  unfold CatalogItem.GetPluralFormsCount, CatalogItem.GetNumberOfTranslations.
  rewrite ClearTranslation_slots, length_replicate.
  unfold CatalogItem.ClearTranslation. simpl.
  now rewrite clear_slots_spec.
Qed.

(** The catalog's count only depends on the counts of its items. *)
Lemma GetPluralFormsCount_ext `{Ext : Externals} (c1 c2 : Catalog) :
  map CatalogItem.GetPluralFormsCount (Catalog.m_items c1) =
  map CatalogItem.GetPluralFormsCount (Catalog.m_items c2) ->
  Catalog.GetPluralFormsCount c1 = Catalog.GetPluralFormsCount c2.
Proof.
  unfold Catalog.GetPluralFormsCount.
  generalize 0. generalize (Catalog.m_items c2).
  induction (Catalog.m_items c1) as [|a l IH]; intros [|b l'] n H;
    simpl in *; try discriminate; [reflexivity|].
  injection H as Hab Hl. rewrite Hab. now apply IH.
Qed.

(** The test of the loop body is the decision of [same_as_source]. *)
Lemma same_as_source_test `{Ext : Externals} (cat : Catalog) (i : CatalogItem) :
  (Wx.eqb (CatalogItem.GetString i) (CatalogItem.GetTranslation i 0) &&
   negb (CatalogItem.HasPlural i &&
         (negb (Nat.eqb (Catalog.GetPluralFormsCount cat) 2) ||
          negb (Wx.eqb (CatalogItem.GetPluralString i)
                       (CatalogItem.GetTranslation i 1)))))
  = bool_decide (same_as_source (Catalog.GetPluralFormsCount cat) i).
Proof.
  set (count := Catalog.GetPluralFormsCount cat).
  match goal with |- ?t = _ => set (test := t) end.
  assert (Hiff : test = true <-> same_as_source count i).
  { unfold test, same_as_source.
    rewrite andb_true_iff, negb_true_iff, andb_false_iff, orb_false_iff.
    rewrite !negb_false_iff, !wx_eqb_eq, Nat.eqb_eq.
    split; intros [H0 H1]; (split; [congruence|]);
      destruct H1 as [H1|[H1 H2]]; auto. }
  destruct test; symmetry.
  - apply bool_decide_eq_true. now apply Hiff.
  - apply bool_decide_eq_false. intros H. apply Hiff in H. discriminate.
Qed.

Lemma prune_item_GetPluralFormsCount (count : nat) (i : CatalogItem) :
  CatalogItem.GetPluralFormsCount (prune_item count i) =
  CatalogItem.GetPluralFormsCount i.
Proof.
  unfold prune_item. destruct (decide _); [|reflexivity].
  apply ClearTranslation_GetPluralFormsCount.
Qed.

Lemma RemoveSameAsSourceTranslations_loop_spec `{Ext : Externals}
    (n k : nat) (cat : Catalog) (done todo : list CatalogItem) (changed : bool)
    (count : nat) :
  Catalog.m_items cat = done ++ todo ->
  length done = k -> length todo = n ->
  Catalog.GetPluralFormsCount cat = count ->
  Catalog.RemoveSameAsSourceTranslations_loop n k cat changed =
  (Catalog.set_items (done ++ map (prune_item count) todo) cat,
   changed || existsb (fun i => bool_decide (same_as_source count i)) todo).
Proof.
  revert k cat done todo changed.
  induction n as [|n IH]; intros k cat done todo changed Hitems Hk Hn Hcount.
  - destruct todo; [|discriminate]. simpl.
    rewrite app_nil_r in *. rewrite <- Hitems, set_items_same.
    now rewrite orb_false_r.
  - destruct todo as [|i todo]; [discriminate|]. simpl in Hn.
    simpl Catalog.RemoveSameAsSourceTranslations_loop.
    assert (Hlook : Catalog.m_items cat !! k = Some i).
    { rewrite Hitems, lookup_app_r by lia.
      now replace (k - length done) with 0 by lia. }
    rewrite Hlook.
    pose proof (same_as_source_test cat i) as Htest. rewrite Hcount in Htest.
    simpl map. simpl existsb. unfold prune_item at 1.
    assert (Hskipped :
      Catalog.RemoveSameAsSourceTranslations_loop n (S k) cat changed =
      (Catalog.set_items (done ++ i :: map (prune_item count) todo) cat,
       changed || existsb (fun i => bool_decide (same_as_source count i)) todo)).
    { rewrite (IH (S k) cat (done ++ [i]) todo changed).
      - now rewrite <- app_assoc.
      - now rewrite <- app_assoc.
      - rewrite length_app. simpl. lia.
      - lia.
      - exact Hcount. }
    rewrite Hcount.
    destruct (Wx.eqb (CatalogItem.GetString i) (CatalogItem.GetTranslation i 0));
      simpl in Htest.
    + destruct (CatalogItem.HasPlural i &&
                (negb (Nat.eqb count 2) ||
                 negb (Wx.eqb (CatalogItem.GetPluralString i)
                              (CatalogItem.GetTranslation i 1))));
        simpl in Htest; rewrite <- Htest.
      * destruct (decide (same_as_source count i)) as [Hd|Hd].
        { apply (bool_decide_eq_true_2 _) in Hd. congruence. }
        now rewrite Hskipped.
      * destruct (decide (same_as_source count i)) as [Hd|Hd].
        2:{ apply (bool_decide_eq_false_2 _) in Hd. congruence. }
        set (cat' := Catalog.set_items _ cat).
        assert (Hitems' : Catalog.m_items cat' =
                          (done ++ [CatalogItem.ClearTranslation i]) ++ todo).
        { unfold cat'. simpl. rewrite Hitems, <- app_assoc.
          rewrite insert_app_r_alt by lia.
          now replace (k - length done) with 0 by lia. }
        rewrite (IH (S k) cat' (done ++ [CatalogItem.ClearTranslation i]) todo true).
        -- unfold cat'. rewrite set_items_twice, <- app_assoc. simpl.
           now rewrite orb_true_r.
        -- exact Hitems'.
        -- rewrite length_app. simpl. lia.
        -- lia.
        -- rewrite <- Hcount. apply GetPluralFormsCount_ext.
           rewrite Hitems', Hitems, <- app_assoc, !map_app. simpl.
           now rewrite ClearTranslation_GetPluralFormsCount.
    + rewrite <- Htest.
      destruct (decide (same_as_source count i)) as [Hd|Hd].
      { apply (bool_decide_eq_true_2 _) in Hd. congruence. }
      now rewrite Hskipped.
Qed.

Lemma RemoveSameAsSourceTranslations_spec `{Ext : Externals} (cat : Catalog) :
  Catalog.RemoveSameAsSourceTranslations cat =
  (Catalog.set_items
     (map (prune_item (Catalog.GetPluralFormsCount cat)) (Catalog.m_items cat)) cat,
   existsb (fun i => bool_decide (same_as_source (Catalog.GetPluralFormsCount cat) i))
           (Catalog.m_items cat)).
Proof.
  unfold Catalog.RemoveSameAsSourceTranslations.
  now rewrite (RemoveSameAsSourceTranslations_loop_spec _ 0 cat []
                 (Catalog.m_items cat) false (Catalog.GetPluralFormsCount cat)).
Qed.

Lemma ClearTranslation_changes (i : CatalogItem) :
  CatalogItem.GetTranslation i 0 <> [] -> CatalogItem.ClearTranslation i <> i.
Proof.
  intros Hne Heq.
  assert (Hs : m_translations (CatalogItem.ClearTranslation i) = m_translations i)
    by now rewrite Heq.
  rewrite ClearTranslation_slots in Hs.
  unfold CatalogItem.GetTranslation, CatalogItem.GetNumberOfTranslations in Hne.
  destruct (m_translations i) as [|t ts]; simpl in *; [congruence|].
  injection Hs as Ht _. now rewrite <- Ht in Hne.
Qed.

Lemma existsb_replicate_empty (n : nat) :
  existsb (fun t => negb (Wx.empty t)) (replicate n wxEmptyString) = false.
Proof. induction n as [|n IH]; simpl; [reflexivity | exact IH]. Qed.

(** Clearing leaves an item as it is exactly when it is already clear. *)
Lemma ClearTranslation_fixed (i : CatalogItem) :
  CatalogItem.ClearTranslation i = i <-> already_clear i.
Proof.
  unfold already_clear. split.
  - intros Heq.
    assert (Hs : m_translations (CatalogItem.ClearTranslation i) = m_translations i)
      by now rewrite Heq.
    rewrite ClearTranslation_slots in Hs.
    assert (Hf : m_isFuzzy (CatalogItem.ClearTranslation i) = m_isFuzzy i)
      by now rewrite Heq.
    assert (Hp : m_isPreTranslated (CatalogItem.ClearTranslation i) =
                 m_isPreTranslated i) by now rewrite Heq.
    assert (Ht : m_isTranslated (CatalogItem.ClearTranslation i) =
                 m_isTranslated i) by now rewrite Heq.
    unfold CatalogItem.ClearTranslation in Hf, Hp, Ht.
    rewrite clear_slots_spec in Hf, Hp, Ht. cbn in Hf, Hp, Ht.
    repeat split; try congruence.
    rewrite <- Hs. apply Forall_forall. intros t Ht'.
    now apply elem_of_replicate in Ht' as [-> _].
  - intros (Hs & Hf & Hp & Ht).
    assert (Hrep : replicate (length (m_translations i)) wxEmptyString =
                   m_translations i).
    { induction Hs as [|t ts -> _ IH]; simpl; [reflexivity | now rewrite IH]. }
    assert (Hex : existsb (fun t => negb (Wx.empty t)) (m_translations i) = false).
    { rewrite <- Hrep. apply existsb_replicate_empty. }
    unfold CatalogItem.ClearTranslation. rewrite clear_slots_spec.
    destruct i as [s p hp ts ec om fz tr md pt fl ln iss sl].
    cbn in *. subst. rewrite Hrep, Hex, orb_false_r. reflexivity.
Qed.

Lemma map_changes {A : Type} `{EqDecision A} (f : A -> A) (l : list A) :
  map f l <> l <-> exists a, a ∈ l /\ f a <> a.
Proof.
  induction l as [|a l IH]; simpl.
  - split; [congruence|]. intros (a & Ha & _). now apply elem_of_nil in Ha.
  - split.
    + intros Hne. destruct (decide (f a = a)) as [Heq|Hfa].
      * assert (Hl : map f l <> l) by (intros Hl; apply Hne; now rewrite Heq, Hl).
        apply IH in Hl as (b & Hb & Hfb). exists b.
        split; [now apply list_elem_of_further | exact Hfb].
      * exists a. split; [apply list_elem_of_here | exact Hfa].
    + intros (b & Hb & Hfb) Heq. injection Heq as Ha Hl.
      apply elem_of_cons in Hb as [->|Hb]; [contradiction|].
      apply (proj2 IH); [eauto | exact Hl].
Qed.

(** C5 (as amended): [RemoveSameAsSourceTranslations] clears exactly the
    items whose translation repeats the source: a non-plural item whose
    primary translation equals its source string, and a pluralized one only
    when the catalog's plural-forms count is 2 and its second slot equals
    the plural source as well (so with another count a pluralized item stays
    as it is, whatever slot 0 holds).  Every other item is left as it is.
    The call returns true exactly when some item repeats its source and is
    cleared.  The items differ from what they were exactly when such an item
    was not already clear (no translation in any slot, not fuzzy, not
    pre-translated, not marked translated).  So the call returns true
    exactly when it has changed an item if and only if, whenever some item
    repeats its source, one of those is not already clear; which is so when
    every item that repeats its source has a translation, and when no
    source string is empty. *)
Theorem RemoveSameAsSourceTranslations_prunes `{Ext : Externals} (cat : Catalog) :
  let count := Catalog.GetPluralFormsCount cat in
  let cat' := fst (Catalog.RemoveSameAsSourceTranslations cat) in
  let ret := snd (Catalog.RemoveSameAsSourceTranslations cat) in
  (forall k i, Catalog.m_items cat !! k = Some i ->
     Catalog.m_items cat' !! k =
       Some (if decide (same_as_source count i)
             then CatalogItem.ClearTranslation i else i)) /\
  (forall k i, Catalog.m_items cat !! k = Some i ->
     CatalogItem.HasPlural i = true -> count <> 2 ->
     Catalog.m_items cat' !! k = Some i) /\
  length (Catalog.m_items cat') = length (Catalog.m_items cat) /\
  (ret = true <->
   exists i, i ∈ Catalog.m_items cat /\ same_as_source count i) /\
  (Catalog.m_items cat' <> Catalog.m_items cat <->
   exists i, i ∈ Catalog.m_items cat /\ same_as_source count i /\
             ~ already_clear i) /\
  (forall i, CatalogItem.ClearTranslation i = i <-> already_clear i) /\
  ((ret = true <-> Catalog.m_items cat' <> Catalog.m_items cat) <->
   ((exists i, i ∈ Catalog.m_items cat /\ same_as_source count i) ->
    exists i, i ∈ Catalog.m_items cat /\ same_as_source count i /\
              ~ already_clear i)) /\
  ((forall i, i ∈ Catalog.m_items cat -> same_as_source count i ->
      CatalogItem.GetTranslation i 0 <> []) ->
   (ret = true <-> Catalog.m_items cat' <> Catalog.m_items cat)) /\
  ((forall i, i ∈ Catalog.m_items cat -> CatalogItem.GetString i <> []) ->
   (ret = true <-> Catalog.m_items cat' <> Catalog.m_items cat)).
Proof.
  intros count cat' ret. subst cat' ret.
  rewrite RemoveSameAsSourceTranslations_spec. fold count.
  cbn [fst snd Catalog.m_items Catalog.set_items].
  assert (Hmap : forall k i, Catalog.m_items cat !! k = Some i ->
            map (prune_item count) (Catalog.m_items cat) !! k =
            Some (prune_item count i)).
  { intros k i Hk. now rewrite list_lookup_fmap, Hk. }
  assert (Hret : existsb (fun i => bool_decide (same_as_source count i))
                   (Catalog.m_items cat) = true <->
                 exists i, i ∈ Catalog.m_items cat /\ same_as_source count i).
  { rewrite existsb_exists. split; intros (i & Hin & Hi); exists i.
    - split; [now apply list_elem_of_In | now apply bool_decide_eq_true in Hi].
    - split; [now apply list_elem_of_In | now apply bool_decide_eq_true]. }
  assert (Hchg : map (prune_item count) (Catalog.m_items cat) <> Catalog.m_items cat
                 <-> exists i, i ∈ Catalog.m_items cat /\ same_as_source count i /\
                               ~ already_clear i).
  { rewrite map_changes. split; intros (i & Hin & Hi); exists i; (split; [exact Hin|]).
    - unfold prune_item in Hi.
      destruct (decide (same_as_source count i)) as [Hs|Hs]; [|congruence].
      split; [exact Hs|]. now rewrite <- ClearTranslation_fixed.
    - destruct Hi as [Hs Hc]. unfold prune_item.
      destruct (decide (same_as_source count i)); [|contradiction].
      now rewrite ClearTranslation_fixed. }
  assert (Hexact : (existsb (fun i => bool_decide (same_as_source count i))
                      (Catalog.m_items cat) = true <->
                    map (prune_item count) (Catalog.m_items cat) <>
                    Catalog.m_items cat) <->
                   ((exists i, i ∈ Catalog.m_items cat /\ same_as_source count i) ->
                    exists i, i ∈ Catalog.m_items cat /\ same_as_source count i /\
                              ~ already_clear i)).
  { rewrite Hret, Hchg. split.
    - intros [H _]. exact H.
    - intros H. split; [exact H|]. intros (i & Hin & Hs & _). eauto. }
  assert (Htrans : (forall i, i ∈ Catalog.m_items cat -> same_as_source count i ->
                      CatalogItem.GetTranslation i 0 <> []) ->
                   (existsb (fun i => bool_decide (same_as_source count i))
                      (Catalog.m_items cat) = true <->
                    map (prune_item count) (Catalog.m_items cat) <>
                    Catalog.m_items cat)).
  { intros Htr. apply Hexact. intros (i & Hin & Hs). exists i.
    split; [exact Hin|]. split; [exact Hs|].
    rewrite <- ClearTranslation_fixed.
    apply ClearTranslation_changes. now apply Htr. }
  split; [exact Hmap|]. split; [|split; [|split; [|split; [|split; [|split; [|split]]]]]].
  - intros k i Hk Hp Hc. rewrite (Hmap k i Hk). unfold prune_item.
    destruct (decide (same_as_source count i)) as [[_ [H|[H _]]]|]; congruence.
  - apply length_map.
  - exact Hret.
  - exact Hchg.
  - apply ClearTranslation_fixed.
  - exact Hexact.
  - exact Htrans.
  - intros Hsrc. apply Htrans. intros i Hin [Heq _]. rewrite Heq. now apply Hsrc.
Qed.

(** A catalog of three items, run through the pass: "OK" is translated as
    "OK" and is cleared; "Cancel" has its own translation and stays; the
    pluralized "file"/"files" repeats its sources in a catalog whose count
    is 1, not 2, and stays. *)
Lemma RemoveSameAsSourceTranslations_prunes_witness :
  let cat := @catalog_of sample_Externals
               [plain_item (wxS "OK") None [wxS "OK"];
                plain_item (wxS "Cancel") None [wxS "Annuler"];
                plain_item (wxS "file") (Some (wxS "files"))
                           [wxS "file"; wxS "files"]] in
  (forall i, i ∈ Catalog.m_items cat -> CatalogItem.GetString i <> []) /\
  (snd (Catalog.RemoveSameAsSourceTranslations cat) = true <->
   Catalog.m_items (fst (Catalog.RemoveSameAsSourceTranslations cat)) <>
   Catalog.m_items cat) /\
  map m_translations
    (Catalog.m_items (fst (Catalog.RemoveSameAsSourceTranslations cat))) =
  [[[]]; [wxS "Annuler"]; [wxS "file"; wxS "files"]].
Proof.
  intros cat.
  assert (Hsrc : forall i, i ∈ Catalog.m_items cat -> CatalogItem.GetString i <> []).
  { intros i Hin. unfold cat in Hin. simpl in Hin.
    repeat (apply elem_of_cons in Hin as [->|Hin]; [discriminate|]).
    now apply elem_of_nil in Hin. }
  split; [exact Hsrc|]. split; [|reflexivity].
  apply (RemoveSameAsSourceTranslations_prunes cat). exact Hsrc.
Defined.

(** C5 (as stated) fails: the one item of the catalog has an empty source
    string and an empty translation.  It repeats its source, so it is
    cleared and the call returns true; it was clear already, so the catalog
    is what it was. *)
Lemma RemoveSameAsSourceTranslations_true_without_change :
  ~ (forall (Ext : Externals) (cat : Catalog),
       snd (Catalog.RemoveSameAsSourceTranslations cat) = true <->
       Catalog.m_items (fst (Catalog.RemoveSameAsSourceTranslations cat)) <>
       Catalog.m_items cat).
Proof.
  intros H.
  specialize (H sample_Externals
                (@catalog_of sample_Externals [plain_item [] None [[]]])).
  destruct H as [H _]. now apply H.
Qed.

(** ** Catalog: sideloading *)

Lemma build_refItems_fold_unmatched (refs : list CatalogItem) (source : wxString)
    (m : gmap wxString CatalogItem) :
  Forall (fun x => CatalogItem.GetRawString x <> source) refs ->
  fold_left (fun refItems iref => <[CatalogItem.GetRawString iref := iref]> refItems)
            refs m !! source = m !! source.
Proof.
  revert m. induction refs as [|a refs IH]; intros m H; simpl; [reflexivity|].
  inversion H as [|? ? Ha Hrest]; subst.
  rewrite IH by exact Hrest. now apply lookup_insert_ne.
Qed.

(** The map built from the reference holds, for a source string, the last
    reference item with that source string. *)
Lemma build_refItems_Some (refs : list CatalogItem) (source : wxString)
    (r : CatalogItem) :
  last_with_source refs source r ->
  Catalog.build_refItems refs !! source = Some r.
Proof.
  intros (before & after & -> & Hsrc & Hafter).
  unfold Catalog.build_refItems. rewrite fold_left_app. simpl.
  rewrite build_refItems_fold_unmatched by exact Hafter.
  rewrite Hsrc. apply lookup_insert_eq.
Qed.

Lemma build_refItems_None (refs : list CatalogItem) (source : wxString) :
  Forall (fun x => CatalogItem.GetRawString x <> source) refs ->
  Catalog.build_refItems refs !! source = None.
Proof.
  intros H. unfold Catalog.build_refItems.
  rewrite build_refItems_fold_unmatched by exact H. apply lookup_empty.
Qed.

Lemma last_with_source_cases (refs : list CatalogItem) (source : wxString) :
  Forall (fun x => CatalogItem.GetRawString x <> source) refs \/
  exists r, last_with_source refs source r.
Proof.
  induction refs as [|a refs IH]; [left; constructor|].
  destruct IH as [Hnone | (r & before & after & -> & Hsrc & Hafter)].
  - destruct (decide (CatalogItem.GetRawString a = source)) as [Ha|Ha].
    + right. exists a, [], refs. auto.
    + left. now constructor.
  - right. exists r, (a :: before), after. auto.
Qed.

Lemma build_refItems_lookup (refs : list CatalogItem) (source : wxString)
    (r : CatalogItem) :
  Catalog.build_refItems refs !! source = Some r ->
  last_with_source refs source r.
Proof.
  intros H. destruct (last_with_source_cases refs source) as [Hnone | [r' Hr']].
  - rewrite build_refItems_None in H by exact Hnone. discriminate.
  - rewrite (build_refItems_Some _ _ _ Hr') in H. now injection H as <-.
Qed.

Lemma sideload_item_frame (refItems : gmap wxString CatalogItem) (i : CatalogItem) :
  CatalogItem.set_sideloaded (m_sideloaded i) (Catalog.sideload_item refItems i) = i.
Proof.
  unfold Catalog.sideload_item.
  destruct (refItems !! CatalogItem.GetRawString i) as [rdata|];
    [destruct (Wx.empty _)|]; now destruct i.
Qed.

(** C8 (as amended): after [SideloadSourceDataFromReferenceFile ref], a
    target item carries the overlay taken from the LAST reference item with
    the same raw source string, provided that item's primary translation is
    not empty: its translation, its plural translation if it has a plural,
    its extracted comments.  Any other target item is as it was, with the
    overlay it had, if any.  No item changes in anything but its overlay,
    and the catalog records the reference and its language. *)
Theorem Sideload_attaches_from_last_match `{Ext : Externals} (ref cat : Catalog) :
  let cat' := Catalog.SideloadSourceDataFromReferenceFile ref cat in
  (forall k i r,
     Catalog.m_items cat !! k = Some i ->
     last_with_source (Catalog.m_items ref) (CatalogItem.GetRawString i) r ->
     CatalogItem.GetTranslation r 0 <> [] ->
     exists d, overlay_from r d /\
       Catalog.m_items cat' !! k = Some (CatalogItem.AttachSideloadedData d i)) /\
  (forall k i,
     Catalog.m_items cat !! k = Some i ->
     (forall r, last_with_source (Catalog.m_items ref) (CatalogItem.GetRawString i) r ->
                CatalogItem.GetTranslation r 0 = []) ->
     Catalog.m_items cat' !! k = Some i) /\
  (forall k i',
     Catalog.m_items cat' !! k = Some i' ->
     exists i, Catalog.m_items cat !! k = Some i /\
               CatalogItem.set_sideloaded (m_sideloaded i) i' = i) /\
  length (Catalog.m_items cat') = length (Catalog.m_items cat) /\
  Catalog.m_sideloaded cat' =
    Some {| Catalog.reference_file := ref;
            Catalog.source_language := Catalog.GetLanguage ref |} /\
  Catalog.m_header cat' = Catalog.m_header cat.
Proof.
  intros cat'. subst cat'.
  unfold Catalog.SideloadSourceDataFromReferenceFile, Catalog.items. simpl.
  split; [|split; [|split; [|split; [|split]]]].
  - intros k i r Hk Hr Hne.
    rewrite list_lookup_fmap, Hk. simpl. unfold Catalog.sideload_item.
    rewrite (build_refItems_Some _ _ _ Hr).
    apply empty_false_iff in Hne. rewrite Hne.
    eexists. split; [|reflexivity].
    unfold overlay_from. simpl. split; [reflexivity|]. split; [reflexivity|].
    unfold CatalogItem.HasExtractedComments, CatalogItem.GetExtractedComments.
    now destruct (m_extractedComments r).
  - intros k i Hk Hnone.
    rewrite list_lookup_fmap, Hk. simpl. f_equal. unfold Catalog.sideload_item.
    destruct (Catalog.build_refItems (Catalog.m_items ref)
              !! CatalogItem.GetRawString i) as [r|] eqn:E; [|reflexivity].
    apply build_refItems_lookup in E. rewrite (Hnone r E). reflexivity.
  - intros k i' Hk. rewrite list_lookup_fmap in Hk.
    destruct (Catalog.m_items cat !! k) as [i|]; [|discriminate].
    injection Hk as <-. exists i. split; [reflexivity|].
    apply sideload_item_frame.
  - apply length_map.
  - reflexivity.
  - reflexivity.
Qed.

(** C8 (as stated) fails: when two reference items share the raw source
    "Hello" and only the first is translated, the target item "Hello" gets
    no overlay, although some reference item with that source has a
    translation. *)
Lemma Sideload_not_from_any_match :
  ~ (forall (Ext : Externals) (ref cat : Catalog) (k : nat) (i r : CatalogItem),
       Catalog.m_items cat !! k = Some i ->
       r ∈ Catalog.m_items ref ->
       CatalogItem.GetRawString r = CatalogItem.GetRawString i ->
       CatalogItem.GetTranslation r 0 <> [] ->
       exists i' d,
         Catalog.m_items (Catalog.SideloadSourceDataFromReferenceFile ref cat) !! k
           = Some i' /\
         m_sideloaded i' = Some d /\
         source_string d = CatalogItem.GetTranslation r 0).
Proof.
  intros H.
  destruct (H sample_Externals
              (catalog_of [plain_item (wxS "Hello") None [wxS "Bonjour"];
                           plain_item (wxS "Hello") None [[]]])
              (catalog_of [plain_item (wxS "Hello") None [[]]])
              0
              (plain_item (wxS "Hello") None [[]])
              (plain_item (wxS "Hello") None [wxS "Bonjour"]))
    as (i' & d & Hi' & Hd & _).
  - reflexivity.
  - apply elem_of_cons. now left.
  - reflexivity.
  - discriminate.
  - vm_compute in Hi'. injection Hi' as <-. discriminate.
Qed.

(** ** wxStringTokenizer *)

Lemma HasMoreTokens_rest (t : Wx.wxStringTokenizer) :
  Wx.HasMoreTokens t = true -> Wx.tk_rest t <> [].
Proof.
  unfold Wx.HasMoreTokens. destruct (Wx.tk_rest t); simpl; [|discriminate].
  destruct (Wx.tk_mode t); discriminate.
Qed.

Lemma find_first_of_lt (chars s : wxString) (pos : nat) :
  Wx.find_first_of chars s = Some pos -> pos < length s.
Proof.
  revert pos. induction s as [|c s IH]; intros pos; simpl; [discriminate|].
  destruct (Wx.one_of chars c); [intros [= <-]; lia|].
  destruct (Wx.find_first_of chars s) as [q|]; [|discriminate].
  intros [= <-]. specialize (IH q eq_refl). lia.
Qed.

Lemma read_token_shrinks (t : Wx.wxStringTokenizer) :
  Wx.tk_rest t <> [] ->
  length (Wx.tk_rest (snd (Wx.read_token t))) < length (Wx.tk_rest t).
Proof.
  intros Hne. unfold Wx.read_token.
  destruct (Wx.find_first_of (Wx.tk_delims t) (Wx.tk_rest t)) as [pos|] eqn:E; simpl.
  - apply find_first_of_lt in E. rewrite length_drop. lia.
  - destruct (Wx.tk_rest t); [congruence | simpl; lia].
Qed.

Lemma read_token_mode (t : Wx.wxStringTokenizer) :
  Wx.tk_mode (snd (Wx.read_token t)) = Wx.tk_mode t /\
  Wx.tk_delims (snd (Wx.read_token t)) = Wx.tk_delims t /\
  Wx.tk_atBegin (snd (Wx.read_token t)) = false.
Proof.
  unfold Wx.read_token.
  now destruct (Wx.find_first_of (Wx.tk_delims t) (Wx.tk_rest t)).
Qed.

Lemma GetNextToken_rounds_le (fuel : nat) (t : Wx.wxStringTokenizer) :
  length (Wx.tk_rest (snd (Wx.GetNextToken_rounds fuel t))) <= length (Wx.tk_rest t).
Proof.
  revert t. induction fuel as [|fuel IH]; intros t; simpl; [lia|].
  destruct (Wx.HasMoreTokens t) eqn:Hm; simpl; [|lia].
  pose proof (read_token_shrinks t (HasMoreTokens_rest t Hm)) as Hlt.
  destruct (Wx.read_token t) as [token t']. simpl in Hlt.
  destruct (negb (Wx.AllowEmpty t) && Wx.empty token); simpl; [|lia].
  specialize (IH t'). lia.
Qed.

Lemma GetNextToken_shrinks (t : Wx.wxStringTokenizer) :
  Wx.HasMoreTokens t = true ->
  length (Wx.tk_rest (snd (Wx.GetNextToken t))) < length (Wx.tk_rest t).
Proof.
  intros Hm. unfold Wx.GetNextToken. simpl. rewrite Hm. simpl.
  pose proof (read_token_shrinks t (HasMoreTokens_rest t Hm)) as Hlt.
  destruct (Wx.read_token t) as [token t']. simpl in Hlt.
  destruct (negb (Wx.AllowEmpty t) && Wx.empty token); simpl; [|lia].
  pose proof (GetNextToken_rounds_le (length (Wx.tk_rest t)) t'). lia.
Qed.

(** The rounds granted to the token loop are enough: more change nothing. *)
Lemma all_tokens_rounds_enough (fuel : nat) (t : Wx.wxStringTokenizer) :
  length (Wx.tk_rest t) < fuel ->
  Wx.all_tokens_rounds fuel t = Wx.all_tokens t.
Proof.
  unfold Wx.all_tokens.
  remember (length (Wx.tk_rest t)) as n eqn:Hn.
  revert fuel t Hn. induction n as [n IH] using lt_wf_ind.
  intros fuel t Hn Hfuel.
  destruct fuel as [|fuel]; [lia|]. simpl.
  destruct (Wx.HasMoreTokens t) eqn:Hm; [|reflexivity].
  pose proof (GetNextToken_shrinks t Hm) as Hlt.
  destruct (Wx.GetNextToken t) as [token t']. simpl in Hlt. f_equal.
  rewrite (IH (length (Wx.tk_rest t')) ltac:(lia) fuel t' eq_refl ltac:(lia)).
  rewrite (IH (length (Wx.tk_rest t')) ltac:(lia) n t' eq_refl ltac:(lia)).
  reflexivity.
Qed.

Lemma all_tokens_unfold (t : Wx.wxStringTokenizer) :
  Wx.all_tokens t =
  if Wx.HasMoreTokens t
  then fst (Wx.GetNextToken t) :: Wx.all_tokens (snd (Wx.GetNextToken t))
  else [].
Proof.
  unfold Wx.all_tokens at 1. simpl.
  destruct (Wx.HasMoreTokens t) eqn:Hm; [|reflexivity].
  pose proof (GetNextToken_shrinks t Hm) as Hlt.
  destruct (Wx.GetNextToken t) as [token t']. simpl in *. f_equal.
  apply all_tokens_rounds_enough. lia.
Qed.

Lemma split_on_first (delims s : wxString) :
  split_on delims s =
  match Wx.find_first_of delims s with
  | None => [s]
  | Some pos => take pos s :: split_on delims (drop (S pos) s)
  end.
Proof.
  induction s as [|c s IH]; simpl; [reflexivity|].
  destruct (Wx.one_of delims c); [reflexivity|].
  rewrite IH. now destruct (Wx.find_first_of delims s).
Qed.

Lemma split_on_only_delims (delims s : wxString) :
  existsb (fun c => negb (Wx.one_of delims c)) s = false ->
  filter (fun piece : wxString => piece <> []) (split_on delims s) = [].
Proof.
  induction s as [|c s IH]; simpl; [reflexivity|].
  destruct (Wx.one_of delims c); simpl; [|discriminate].
  intros H. rewrite filter_cons_False by tauto. now apply IH.
Qed.

(** A tokenizer in [wxTOKEN_STRTOK] mode yields the non-empty pieces of the
    text between delimiters. *)
Lemma all_tokens_STRTOK (delims s : wxString) (atBegin : bool) :
  Wx.all_tokens {| Wx.tk_rest := s; Wx.tk_atBegin := atBegin;
                   Wx.tk_delims := delims; Wx.tk_mode := Wx.wxTOKEN_STRTOK |}
  = filter (fun piece : wxString => piece <> []) (split_on delims s).
Proof.
  remember (length s) as n eqn:Hn. revert s atBegin Hn.
  induction n as [n IH] using lt_wf_ind. intros s atBegin Hn.
  rewrite all_tokens_unfold.
  destruct (Wx.HasMoreTokens _) eqn:Hm.
  2:{ unfold Wx.HasMoreTokens in Hm. simpl in Hm.
      destruct (existsb _ s) eqn:E; [discriminate|].
      now rewrite split_on_only_delims. }
  destruct s as [|c s]; [discriminate|].
  unfold Wx.GetNextToken. simpl Wx.tk_rest. simpl length.
  cbn [Wx.GetNextToken_rounds]. rewrite Hm. cbn [negb].
  unfold Wx.read_token. cbn [Wx.tk_rest Wx.tk_delims Wx.tk_mode Wx.find_first_of].
  cbn [split_on].
  destruct (Wx.one_of delims c) eqn:Hc.
  - (* a delimiter: an empty token, read again *)
    cbn [take drop Wx.AllowEmpty Wx.tk_mode negb andb Wx.empty].
    assert (Hm' : Wx.HasMoreTokens
              {| Wx.tk_rest := s; Wx.tk_atBegin := false; Wx.tk_delims := delims;
                 Wx.tk_mode := Wx.wxTOKEN_STRTOK |} = true).
    { unfold Wx.HasMoreTokens in *. simpl in *. now rewrite Hc in Hm. }
    rewrite filter_cons_False by tauto.
    rewrite <- (IH (length s) ltac:(simpl in Hn; lia) s false eq_refl).
    rewrite (all_tokens_unfold {| Wx.tk_rest := s |}), Hm'.
    reflexivity.
  - (* a token starts here *)
    rewrite split_on_first.
    destruct (Wx.find_first_of delims s) as [pos|] eqn:Hpos;
      cbn [option_map take drop Wx.AllowEmpty Wx.tk_mode negb andb Wx.empty fst snd].
    + rewrite filter_cons_True by discriminate. f_equal.
      apply find_first_of_lt in Hpos.
      apply (IH (length (drop (S pos) s)));
        [rewrite length_drop; simpl in Hn; lia | reflexivity ..].
    + rewrite all_tokens_unfold. reflexivity.
Qed.

Lemma Tokenizer_LF (str : wxString) :
  Wx.all_tokens (Wx.Tokenizer str [LF]) = lines str.
Proof. apply all_tokens_STRTOK. Qed.

(** ** The header store *)

Lemma list_find_first_value (key : wxString) (es : Entries) :
  Value ∘ snd <$> list_find (fun e => Key e = key) es = first_value key es.
Proof.
  induction es as [|e es IH]; simpl; [reflexivity|].
  destruct (decide (Key e = key)); [reflexivity|].
  rewrite <- IH. now destruct (list_find _ es) as [[? ?]|].
Qed.

Lemma list_find_set_entry (key value : wxString) (es : Entries) :
  match list_find (fun e => Key e = key) es with
  | Some (i, e) => <[i := {| Key := Key e; Value := value |}]> es
  | None => es ++ [{| Key := key; Value := value |}]
  end = set_entry key value es.
Proof.
  induction es as [|e es IH]; simpl; [reflexivity|].
  destruct (decide (Key e = key)); [reflexivity|].
  rewrite <- IH. now destruct (list_find _ es) as [[? ?]|].
Qed.

Lemma first_value_None_filter (key : wxString) (es : Entries) :
  first_value key es = None -> filter (fun e => Key e <> key) es = es.
Proof.
  induction es as [|e es IH]; simpl; [reflexivity|].
  destruct (decide (Key e = key)); [discriminate|].
  intros H. rewrite filter_cons_True by assumption. now rewrite IH.
Qed.

Section HeaderStore.
Context `{Ext : Externals}.

Lemma GetHeader_first_value (h : HeaderData) (key : wxString) :
  GetHeader h key = default [] (first_value key (m_entries h)).
Proof.
  unfold GetHeader, Find. rewrite <- list_find_first_value.
  now destruct (list_find _ (m_entries h)) as [[? ?]|].
Qed.

Lemma HasHeader_first_value (h : HeaderData) (key : wxString) :
  HasHeader h key = bool_decide (is_Some (first_value key (m_entries h))).
Proof.
  unfold HasHeader, Find. rewrite <- list_find_first_value.
  now destruct (list_find _ (m_entries h)) as [[? ?]|].
Qed.

Lemma SetHeader_entries (key value : wxString) (h : HeaderData) :
  m_entries (SetHeader key value h) = set_entry key value (m_entries h).
Proof.
  unfold SetHeader, Find. rewrite <- list_find_set_entry.
  now destruct (list_find _ (m_entries h)) as [[? ?]|].
Qed.

Lemma DeleteHeader_entries (key : wxString) (h : HeaderData) :
  m_entries (DeleteHeader key h) = filter (fun e => Key e <> key) (m_entries h).
Proof.
  unfold DeleteHeader. rewrite HasHeader_first_value.
  destruct (first_value key (m_entries h)) eqn:E; simpl; [reflexivity|].
  now rewrite first_value_None_filter.
Qed.

End HeaderStore.

Lemma first_value_filter_ne (key key' : wxString) (es : Entries) :
  key <> key' ->
  first_value key (filter (fun e => Key e <> key') es) = first_value key es.
Proof.
  intros Hne. induction es as [|e es IH]; simpl; [reflexivity|].
  destruct (decide (Key e = key')) as [He|He].
  - rewrite filter_cons_False by tauto.
    destruct (decide (Key e = key)); [congruence | exact IH].
  - rewrite filter_cons_True by assumption. simpl.
    destruct (decide (Key e = key)); [reflexivity | exact IH].
Qed.

Lemma first_value_filter_eq (key : wxString) (es : Entries) :
  first_value key (filter (fun e => Key e <> key) es) = None.
Proof.
  induction es as [|e es IH]; simpl; [reflexivity|].
  destruct (decide (Key e = key)) as [He|He].
  - now rewrite filter_cons_False by tauto.
  - rewrite filter_cons_True by assumption. simpl.
    destruct (decide (Key e = key)); [contradiction | exact IH].
Qed.

Lemma first_value_set_entry_eq (key value : wxString) (es : Entries) :
  first_value key (set_entry key value es) = Some value.
Proof.
  induction es as [|e es IH]; simpl.
  - now rewrite decide_True.
  - destruct (decide (Key e = key)) as [He|He]; simpl.
    + now rewrite decide_True.
    + now rewrite decide_False.
Qed.

Lemma first_value_set_entry_ne (key key' value : wxString) (es : Entries) :
  key <> key' ->
  first_value key (set_entry key' value es) = first_value key es.
Proof.
  intros Hne. induction es as [|e es IH]; simpl.
  - now rewrite decide_False by congruence.
  - destruct (decide (Key e = key')) as [He|He]; simpl.
    + rewrite !decide_False by congruence. reflexivity.
    + destruct (decide (Key e = key)); [reflexivity | exact IH].
Qed.

(** ** FromString: the lines *)

Lemma find_char_None (c : ascii) (s : wxString) :
  Wx.find_char c s = None <-> ~ In c s.
Proof.
  induction s as [|x s IH]; simpl; [tauto|].
  destruct (Ascii.eqb_spec x c) as [->|Hne].
  - split; [discriminate | tauto].
  - destruct (Wx.find_char c s); simpl.
    + split; [discriminate|]. intros H.
      assert (Hs : ~ In c s) by tauto. apply IH in Hs. discriminate.
    + split; [|reflexivity]. intros _ [?|Hin]; [congruence|].
      now apply (proj1 IH eq_refl).
Qed.

Lemma find_char_Some (c : ascii) (s : wxString) (pos : nat) :
  Wx.find_char c s = Some pos ->
  s = take pos s ++ c :: drop (S pos) s /\ ~ In c (take pos s).
Proof.
  revert pos. induction s as [|x s IH]; intros pos; simpl; [discriminate|].
  destruct (Ascii.eqb_spec x c) as [->|Hne].
  - intros [= <-]. simpl. tauto.
  - destruct (Wx.find_char c s) as [q|]; [|discriminate].
    intros [= <-]. destruct (IH q eq_refl) as [Heq Hnot]. simpl.
    split; [now f_equal|]. intros [?|?]; [congruence | contradiction].
Qed.

Lemma parse_line_entry (ln : wxString) (en : Entry) :
  parse_line ln = Some en -> entry_of_line ln en.
Proof.
  unfold parse_line.
  destruct (Wx.find_char ":"%char ln) as [pos|] eqn:E; [|discriminate].
  intros [= <-]. apply find_char_Some in E as [Heq Hnot].
  exists (take pos ln), (drop (S pos) ln). simpl.
  split; [exact Heq|]. split; [now rewrite list_elem_of_In|].
  unfold Wx.substr, Wx.substr_from. rewrite drop_0.
  now replace (pos + 1) with (S pos) by lia.
Qed.

Lemma parse_line_None (ln : wxString) :
  parse_line ln = None <-> (":"%char ∉ ln).
Proof.
  unfold parse_line. rewrite list_elem_of_In, <- find_char_None.
  now destruct (Wx.find_char ":"%char ln).
Qed.

(** The loop over the lines adds the entries of the lines that have a colon
    and reports the others, both in the order of the text. *)
Lemma FromString_lines_spec (fuel : nat) (tkn : Wx.wxStringTokenizer)
    (entries : Entries) (log : list wxString) :
  length (Wx.tk_rest tkn) < fuel ->
  FromString_lines fuel tkn entries log =
  (entries ++ omap parse_line (Wx.all_tokens tkn),
   log ++ filter (fun ln => parse_line ln = None) (Wx.all_tokens tkn)).
Proof.
  revert tkn entries log.
  induction fuel as [|fuel IH]; intros tkn entries log Hfuel; [lia|].
  simpl. rewrite (all_tokens_unfold tkn).
  destruct (Wx.HasMoreTokens tkn) eqn:Hm.
  2:{ simpl. now rewrite !app_nil_r. }
  pose proof (GetNextToken_shrinks tkn Hm) as Hlt.
  destruct (Wx.GetNextToken tkn) as [ln tkn']. simpl in Hlt. simpl fst. simpl snd.
  assert (Hcons : forall l, omap parse_line (ln :: l) =
            match parse_line ln with
            | Some en => en :: omap parse_line l
            | None => omap parse_line l
            end) by reflexivity.
  rewrite Hcons. clear Hcons.
  destruct (Wx.find_char ":"%char ln) as [pos|] eqn:E.
  - assert (Hp : parse_line ln =
              Some {| Key := Wx.Strip Wx.both (Wx.substr ln 0 pos);
                      Value := Wx.Strip Wx.both (Wx.substr_from ln (pos + 1)) |})
      by (unfold parse_line; now rewrite E).
    rewrite IH by lia.
    rewrite filter_cons_False by (simpl; congruence).
    rewrite Hp. now rewrite <- app_assoc.
  - assert (Hp : parse_line ln = None) by (unfold parse_line; now rewrite E).
    rewrite IH by lia.
    rewrite filter_cons_True by exact Hp.
    rewrite Hp. now rewrite <- app_assoc.
Qed.

(** ** ParseDict and the entries *)

Section ParseDictEntries.
Context `{Ext : Externals}.

(** [ParseDict] removes the legacy entries it has read and keeps the rest of
    the entries as they are. *)
Lemma ParseDict_entries (h : HeaderData) :
  m_entries (ParseDict h) =
  filter (fun e => ~ legacy_key (m_entries h) (Key e)) (m_entries h).
Proof.
  unfold ParseDict.
  set (h1 := DeleteHeader (wxS "X-Poedit-Language") h).
  set (h2 := DeleteHeader (wxS "X-Poedit-Country") h1).
  assert (Hes2 : m_entries h2 =
            filter (fun e => Key e <> wxS "X-Poedit-Country")
              (filter (fun e => Key e <> wxS "X-Poedit-Language") (m_entries h)))
    by (unfold h2, h1; now rewrite !DeleteHeader_entries).
  assert (Hfv : forall key,
            key <> wxS "X-Poedit-Country" -> key <> wxS "X-Poedit-Language" ->
            first_value key (m_entries h2) = first_value key (m_entries h)).
  { intros key H1 H2. rewrite Hes2.
    now rewrite !first_value_filter_ne by assumption. }
  destruct (if negb (Wx.empty (GetHeader h (wxS "Last-Translator"))) then _ else _)
    as [translator translatorEmail].
  rewrite !(GetHeader_first_value h2).
  rewrite !Hfv by discriminate.
  set (kwlist := default [] (first_value (wxS "X-Poedit-KeywordsList") (m_entries h))).
  set (kw := default [] (first_value (wxS "X-Poedit-Keywords") (m_entries h))).
  assert (Hfinal : forall b : bool,
            (b = true <-> kwlist = [] /\ kw <> []) ->
            (if b then filter (fun e => Key e <> wxS "X-Poedit-Keywords") (m_entries h2)
             else m_entries h2) =
            filter (fun e => ~ legacy_key (m_entries h) (Key e)) (m_entries h)).
  { intros b Hb. rewrite Hes2. unfold legacy_key. fold kwlist kw.
    destruct b.
    - destruct (proj1 Hb eq_refl) as [Hk1 Hk2].
      rewrite !list_filter_filter. apply list_filter_iff. intros e. tauto.
    - assert (Hn : ~ (kwlist = [] /\ kw <> [])) by (intros H; apply Hb in H; discriminate).
      rewrite !list_filter_filter. apply list_filter_iff. intros e. tauto. }
  destruct (Wx.empty kwlist) eqn:Hkl; simpl.
  - destruct (Wx.empty kw) eqn:Hkw; simpl.
    + apply (Hfinal false). apply empty_true_iff in Hkw. split; [discriminate|tauto].
    + rewrite DeleteHeader_entries. apply (Hfinal true).
      apply empty_true_iff in Hkl. apply empty_false_iff in Hkw. tauto.
  - apply (Hfinal false). apply empty_false_iff in Hkl. split; [discriminate|tauto].
Qed.

End ParseDictEntries.

Lemma parse_line_Forall2 (lns : list wxString) :
  Forall2 entry_of_line (filter (fun ln => ":"%char ∈ ln) lns)
          (omap parse_line lns).
Proof.
  induction lns as [|ln lns IH]; [constructor|].
  assert (Hcons : omap parse_line (ln :: lns) =
            match parse_line ln with
            | Some en => en :: omap parse_line lns
            | None => omap parse_line lns
            end) by reflexivity.
  rewrite Hcons. destruct (parse_line ln) as [en|] eqn:E.
  - rewrite filter_cons_True.
    + constructor; [now apply parse_line_entry | exact IH].
    + destruct (decide (":"%char ∈ ln)) as [|Hn]; [assumption|].
      apply parse_line_None in Hn. congruence.
  - rewrite filter_cons_False; [exact IH|].
    apply parse_line_None in E. simpl. tauto.
Qed.

(** C9 (as amended): [FromString] never fails.  Of the non-empty lines of
    the text, each one without a colon is reported and skipped, and each one
    with a colon is read as one entry, key and value being the text before
    and after the first colon, stripped of surrounding white space; the
    entries are read in the order of the lines.  Empty lines are passed over
    without a report.  Of the entries read, [ParseDict], which ends
    [FromString], removes the legacy ones: X-Poedit-Language and
    X-Poedit-Country always, X-Poedit-Keywords when it has been taken over
    as the keyword list. *)
Theorem FromString_reads_lines `{Ext : Externals} (str : wxString) (h : HeaderData) :
  exists entries_read : Entries,
    Forall2 entry_of_line (filter (fun ln => ":"%char ∈ ln) (lines str))
            entries_read /\
    snd (FromString str h) = filter (fun ln => ":"%char ∉ ln) (lines str) /\
    m_entries (fst (FromString str h)) =
      filter (fun e => ~ legacy_key entries_read (Key e)) entries_read.
Proof.
  exists (omap parse_line (lines str)).
  split; [apply parse_line_Forall2|].
  unfold FromString.
  rewrite FromString_lines_spec by (simpl; lia).
  change ["010"%char] with [LF]. rewrite Tokenizer_LF. simpl.
  split.
  - apply list_filter_iff. intros ln. apply parse_line_None.
  - now rewrite ParseDict_entries.
Qed.

(** C9 (as stated) fails: the line "X-Poedit-Language: Czech" has a colon,
    yet after [FromString] the entries hold nothing for it. *)
Lemma FromString_drops_legacy_line :
  ~ (forall (Ext : Externals) (str : wxString) (h : HeaderData),
       Forall2 entry_of_line (filter (fun ln => ":"%char ∈ ln) (lines str))
               (m_entries (fst (FromString str h)))).
Proof.
  intros H.
  specialize (H sample_Externals (wxS "X-Poedit-Language: Czech")
                (blank_header [])).
  vm_compute in H. inversion H.
Qed.

(** ** Stable sorting *)

Section StableSort.
Context {A : Type} (rank : A -> Z).

Let comp (a b : A) : bool := (rank a <? rank b)%Z.

Lemma stable_insert_Forall (P : A -> Prop) (x : A) (l : list A) :
  P x -> Forall P l -> Forall P (stable_insert comp x l).
Proof.
  intros Hx Hl. induction Hl as [|y l Hy Hl IH]; simpl.
  - now constructor.
  - destruct (comp y x); constructor; auto.
Qed.

Lemma stable_insert_sorted (x : A) (l : list A) :
  StronglySorted (fun a b => (rank a <= rank b)%Z) l ->
  StronglySorted (fun a b => (rank a <= rank b)%Z) (stable_insert comp x l).
Proof.
  intros Hl. induction Hl as [|y l Hl IH Hy]; simpl.
  - repeat constructor.
  - unfold comp at 1. destruct (Z.ltb_spec (rank y) (rank x)) as [Hlt|Hge].
    + constructor; [exact IH|].
      apply stable_insert_Forall; [lia | exact Hy].
    + constructor; [now constructor|].
      constructor; [exact Hge|].
      eapply Forall_impl; [exact Hy|]. simpl. intros. lia.
Qed.

Lemma stable_sort_sorted (l : list A) :
  StronglySorted (fun a b => (rank a <= rank b)%Z) (stable_sort comp l).
Proof.
  induction l as [|x l IH]; simpl; [constructor|].
  now apply stable_insert_sorted.
Qed.

(** Stability: the elements of one rank class stay in their order. *)
Lemma stable_insert_filter (P : A -> Prop) `{forall a, Decision (P a)}
    (x : A) (l : list A) :
  (forall a b, P a -> P b -> rank a = rank b) ->
  filter P (stable_insert comp x l) = filter P (x :: l).
Proof.
  intros Hclass. induction l as [|y l IH]; simpl; [reflexivity|].
  unfold comp at 1. destruct (Z.ltb_spec (rank y) (rank x)) as [Hlt|Hge];
    [|reflexivity].
  destruct (decide (P y)) as [Hy|Hy].
  - assert (Hx : ~ P x) by (intros Hx; specialize (Hclass _ _ Hx Hy); lia).
    rewrite (filter_cons_True P y) by assumption.
    rewrite IH. rewrite (filter_cons_False P x) by assumption.
    rewrite (filter_cons_False P x) by assumption.
    now rewrite (filter_cons_True P y) by assumption.
  - rewrite (filter_cons_False P y) by assumption. rewrite IH.
    destruct (decide (P x)).
    + rewrite !(filter_cons_True P x) by assumption.
      now rewrite (filter_cons_False P y) by assumption.
    + rewrite !(filter_cons_False P x) by assumption.
      now rewrite (filter_cons_False P y) by assumption.
Qed.

Lemma stable_sort_filter (P : A -> Prop) `{forall a, Decision (P a)} (l : list A) :
  (forall a b, P a -> P b -> rank a = rank b) ->
  filter P (stable_sort comp l) = filter P l.
Proof.
  intros Hclass. induction l as [|x l IH]; simpl; [reflexivity|].
  rewrite stable_insert_filter by assumption.
  destruct (decide (P x)).
  - rewrite !(filter_cons_True P x) by assumption. now rewrite IH.
  - rewrite !(filter_cons_False P x) by assumption. now rewrite IH.
Qed.

Lemma stable_insert_Permutation (x : A) (l : list A) :
  Permutation (stable_insert comp x l) (x :: l).
Proof.
  induction l as [|y l IH]; simpl; [reflexivity|].
  destruct (comp y x); [|reflexivity].
  rewrite IH. apply perm_swap.
Qed.

Lemma stable_sort_Permutation (l : list A) :
  Permutation (stable_sort comp l) l.
Proof.
  induction l as [|x l IH]; simpl; [reflexivity|].
  rewrite stable_insert_Permutation. now constructor.
Qed.

End StableSort.

(** ** The canonical order of the header *)

Lemma wxArrayString_Index_spec (a : wxArrayString) (s : wxString) :
((s ∉ a) /\ wxArrayString_Index a s = wxNOT_FOUND) \/
  (exists p : nat, a !! p = Some s /\ wxArrayString_Index a s = Z.of_nat p).
Proof.
  induction a as [|x a IH]; simpl.
  - left. split; [apply not_elem_of_nil | reflexivity].
  - destruct (Wx.eqb x s) eqn:E.
    + apply wx_eqb_eq in E as ->. right. now exists 0.
    + apply wx_eqb_neq in E.
      destruct IH as [[Hnot ->] | (p & Hp & ->)].
      * left. simpl. split; [|reflexivity].
        rewrite elem_of_cons. intros [?|?]; [congruence | contradiction].
      * right. exists (S p). split; [exact Hp|].
        unfold wxNOT_FOUND. destruct (Z.eqb_spec (Z.of_nat p) (-1)); lia.
Qed.

Lemma canonicalOrder_NoDup : NoDup canonicalOrder.
Proof. apply (bool_decide_unpack _). vm_compute. exact I. Qed.

Lemma canonical_rank_standard (p : nat) (key : wxString) :
  canonicalOrder !! p = Some key -> canonical_rank key = Z.of_nat p.
Proof.
  intros Hp. unfold canonical_rank.
  destruct (wxArrayString_Index_spec canonicalOrder key) as [[Hnot _] | (q & Hq & ->)].
  - exfalso. apply Hnot. apply list_elem_of_lookup. eauto.
  - rewrite (NoDup_lookup _ _ _ _ canonicalOrder_NoDup Hp Hq).
    unfold coalesce, wxNOT_FOUND. destruct (Z.eqb_spec (Z.of_nat q) (-1)); lia.
Qed.

Lemma canonical_rank_extension (key : wxString) :
  ~ standard_key key -> canonical_rank key = 12%Z.
Proof.
  intros Hnot. unfold canonical_rank.
  destruct (wxArrayString_Index_spec canonicalOrder key) as [[_ ->] | (q & Hq & _)].
  - reflexivity.
  - exfalso. apply Hnot. apply list_elem_of_lookup. eauto.
Qed.

Lemma canonical_rank_lt (key : wxString) :
  standard_key key -> (canonical_rank key < 11)%Z.
Proof.
  intros [p Hp]%list_elem_of_lookup.
  rewrite (canonical_rank_standard p key Hp).
  apply lookup_lt_Some in Hp. simpl in Hp. lia.
Qed.

Lemma header_order_less_rank (a b : Entry) :
  header_order_less a b = (canonical_rank (Key a) <? canonical_rank (Key b))%Z.
Proof. reflexivity. Qed.

Lemma StronglySorted_lookup_le {A : Type} (R : A -> A -> Prop) (l : list A)
    (j k : nat) (a b : A) :
  StronglySorted R l -> j < k -> l !! j = Some a -> l !! k = Some b -> R a b.
Proof.
  intros Hs. revert j k. induction Hs as [|x l Hs IH Hx]; intros j k Hjk Ha Hb.
  - discriminate.
  - destruct k as [|k]; [lia|]. simpl in Hb. destruct j as [|j]; simpl in Ha.
    + injection Ha as <-. rewrite Forall_forall in Hx. apply Hx.
      apply list_elem_of_lookup. eauto.
    + apply (IH j k); [lia | assumption | assumption].
Qed.

Section CanonicalOrder.
Context `{Ext : Externals}.

Lemma NormalizeHeaderOrder_sorted (h : HeaderData) :
  StronglySorted (fun a b => (canonical_rank (Key a) <= canonical_rank (Key b))%Z)
                 (m_entries (NormalizeHeaderOrder h)).
Proof.
  unfold NormalizeHeaderOrder. simpl.
  apply (stable_sort_sorted (fun e => canonical_rank (Key e))).
Qed.

Lemma NormalizeHeaderOrder_filter (P : Entry -> Prop) `{forall e, Decision (P e)}
    (h : HeaderData) :
  (forall a b, P a -> P b -> canonical_rank (Key a) = canonical_rank (Key b)) ->
  filter P (m_entries (NormalizeHeaderOrder h)) = filter P (m_entries h).
Proof.
  intros Hclass. unfold NormalizeHeaderOrder. simpl.
  now apply (stable_sort_filter (fun e => canonical_rank (Key e))).
Qed.

Lemma first_value_as_filter (key : wxString) (es : Entries) :
  first_value key es = first_value key (filter (fun e => Key e = key) es).
Proof.
  induction es as [|e es IH]; simpl; [reflexivity|].
  destruct (decide (Key e = key)) as [He|He].
  - rewrite filter_cons_True by assumption. simpl. now rewrite decide_True.
  - now rewrite filter_cons_False by assumption.
Qed.

(** Sorting does not change what a key reads. *)
Lemma NormalizeHeaderOrder_first_value (key : wxString) (h : HeaderData) :
  first_value key (m_entries (NormalizeHeaderOrder h)) =
  first_value key (m_entries h).
Proof.
  rewrite first_value_as_filter, NormalizeHeaderOrder_filter.
  - symmetry. apply first_value_as_filter.
  - intros a b Ha Hb. simpl in *. congruence.
Qed.

Lemma extension_keys_filter (es : Entries) :
  extension_keys es = map Key (filter (fun e => ~ standard_key (Key e)) es).
Proof.
  unfold extension_keys. induction es as [|e es IH]; simpl; [reflexivity|].
  destruct (decide (standard_key (Key e))) as [He|He].
  - rewrite !filter_cons_False by tauto. exact IH.
  - rewrite !filter_cons_True by assumption. simpl. now rewrite IH.
Qed.

Lemma NormalizeHeaderOrder_extension_keys (h : HeaderData) :
  extension_keys (m_entries (NormalizeHeaderOrder h)) = extension_keys (m_entries h).
Proof.
  rewrite !extension_keys_filter, NormalizeHeaderOrder_filter; [reflexivity|].
  intros a b Ha Hb. now rewrite !canonical_rank_extension.
Qed.

End CanonicalOrder.

(** ** UpdateDict and the order of the keys *)

Lemma set_entry_keys (key value : wxString) (es : Entries) :
  map Key (set_entry key value es) =
  if decide (key ∈ map Key es) then map Key es else map Key es ++ [key].
Proof.
  induction es as [|e es IH].
  - simpl map. destruct (decide (key ∈ [])) as [Hin|_]; [|reflexivity].
    now apply elem_of_nil in Hin.
  - simpl set_entry. simpl map.
    destruct (decide (Key e = key)) as [He|He]; simpl map.
    + destruct (decide (key ∈ Key e :: map Key es)) as [_|Hn]; [reflexivity|].
      exfalso. apply Hn. rewrite He. apply list_elem_of_here.
    + rewrite IH. destruct (decide (key ∈ map Key es)) as [Hin|Hin];
        destruct (decide (key ∈ Key e :: map Key es)) as [Hin'|Hin'];
        try reflexivity.
      * exfalso. apply Hin'. now apply list_elem_of_further.
      * exfalso. apply elem_of_cons in Hin' as [?|?]; [congruence | contradiction].
Qed.

Lemma filter_keys_ne (key : wxString) (es : Entries) :
  map Key (filter (fun e => Key e <> key) es) =
  filter (fun k => k <> key) (map Key es).
Proof.
  induction es as [|e es IH]; simpl; [reflexivity|].
  destruct (decide (Key e = key)) as [He|He].
  - rewrite !filter_cons_False by tauto. exact IH.
  - rewrite !filter_cons_True by assumption. simpl. now rewrite IH.
Qed.

Section KeysKeptGeneric.
Variables may_remove may_add : wxString -> Prop.
Variable es : Entries.

Lemma keys_kept_refl : keys_kept_in_order may_remove may_add es es.
Proof.
  exists (fun _ => false), []. split; [|split].
  - rewrite app_nil_r. induction (map Key es) as [|k l IH]; [reflexivity|].
    rewrite filter_cons_True by reflexivity. now rewrite <- IH.
  - discriminate.
  - intros key Hin. now apply elem_of_nil in Hin.
Qed.

Lemma keys_kept_set_entry (key value : wxString) (cur : Entries) :
  may_add key ->
  keys_kept_in_order may_remove may_add es cur ->
  keys_kept_in_order may_remove may_add es (set_entry key value cur).
Proof.
  intros Hkey (removed & added & Hkeys & Hrem & Hadd).
  unfold keys_kept_in_order. rewrite set_entry_keys.
  destruct (decide (key ∈ map Key cur)).
  - exists removed, added. auto.
  - exists removed, (added ++ [key]). split; [|split; [exact Hrem|]].
    + now rewrite Hkeys, app_assoc.
    + intros k Hk. apply elem_of_app in Hk as [Hk|Hk]; [auto|].
      apply list_elem_of_singleton in Hk. now subst.
Qed.

Lemma keys_kept_delete (key : wxString) (cur : Entries) :
  may_remove key ->
  keys_kept_in_order may_remove may_add es cur ->
  keys_kept_in_order may_remove may_add es (filter (fun e => Key e <> key) cur).
Proof.
  intros Hkey (removed & added & Hkeys & Hrem & Hadd).
  exists (fun k => removed k || bool_decide (k = key)),
         (filter (fun k => k <> key) added).
  split; [|split].
  - rewrite filter_keys_ne, Hkeys, filter_app, list_filter_filter.
    f_equal. apply list_filter_iff. intros k.
    rewrite orb_false_iff, bool_decide_eq_false. tauto.
  - intros k [Hk|Hk]%orb_true_iff; [auto|].
    apply bool_decide_eq_true in Hk. now subst.
  - intros k Hk. apply list_elem_of_filter in Hk as [_ Hk]. auto.
Qed.

End KeysKeptGeneric.

Section KeysKept.
Context `{Ext : Externals}.
Variables may_remove may_add : wxString -> Prop.
Variable es : Entries.

Lemma keys_kept_SetHeader (key value : wxString) (h : HeaderData) :
  may_add key ->
  keys_kept_in_order may_remove may_add es (m_entries h) ->
  keys_kept_in_order may_remove may_add es (m_entries (SetHeader key value h)).
Proof. rewrite SetHeader_entries. apply keys_kept_set_entry. Qed.

Lemma keys_kept_DeleteHeader (key : wxString) (h : HeaderData) :
  may_remove key ->
  keys_kept_in_order may_remove may_add es (m_entries h) ->
  keys_kept_in_order may_remove may_add es (m_entries (DeleteHeader key h)).
Proof. rewrite DeleteHeader_entries. apply keys_kept_delete. Qed.

Lemma keys_kept_SetHeaderNotEmpty (key value : wxString) (h : HeaderData) :
  (value = [] -> may_remove key) -> (value <> [] -> may_add key) ->
  keys_kept_in_order may_remove may_add es (m_entries h) ->
  keys_kept_in_order may_remove may_add es
    (m_entries (SetHeaderNotEmpty key value h)).
Proof.
  intros Hrem Hadd Hh. unfold SetHeaderNotEmpty. destruct value as [|c v].
  - cbn [Wx.empty]. apply keys_kept_DeleteHeader; auto.
  - cbn [Wx.empty]. apply keys_kept_SetHeader; [|exact Hh].
    apply Hadd. discriminate.
Qed.

Lemma keys_kept_delete_series_rounds (fuel : nat) (key : N -> wxString) (i : N)
    (h : HeaderData) :
  (forall i, may_remove (key i)) ->
  keys_kept_in_order may_remove may_add es (m_entries h) ->
  keys_kept_in_order may_remove may_add es
    (m_entries (delete_series_rounds fuel key i h)).
Proof.
  intros Hkey. revert i h. induction fuel as [|fuel IH]; intros i h Hh; simpl.
  - exact Hh.
  - destruct (HasHeader h (key i)); simpl; [|exact Hh].
    apply IH. apply keys_kept_DeleteHeader; auto.
Qed.

Lemma keys_kept_emit_series (key : N -> wxString) (paths : list wxString) (i : N)
    (h : HeaderData) :
  (forall i, may_add (key i)) ->
  keys_kept_in_order may_remove may_add es (m_entries h) ->
  keys_kept_in_order may_remove may_add es
    (m_entries (emit_series key paths i h)).
Proof.
  intros Hkey. revert i h. induction paths as [|p paths IH]; intros i h Hh; simpl.
  - exact Hh.
  - apply IH. apply keys_kept_SetHeader; auto.
Qed.

End KeysKept.

Lemma SearchPath_key_indexed (i : N) : indexed_key (SearchPath_key i).
Proof. exists i. now left. Qed.

Lemma SearchPathExcluded_key_indexed (i : N) : indexed_key (SearchPathExcluded_key i).
Proof. exists i. now right. Qed.

(** A standard key named in full may be appended. *)
Ltac standard_key_added :=
  left; unfold standard_key; apply (bool_decide_unpack _); vm_compute; exact I.

Lemma UpdateDict_keys_kept `{Ext : Externals} (h : HeaderData) :
  exists hw : HeaderData,
    UpdateDict h = NormalizeHeaderOrder hw /\
    keys_kept_in_order (UpdateDict_may_remove h) (UpdateDict_may_add h)
                       (m_entries h) (m_entries hw).
Proof.
  unfold UpdateDict. eexists. split; [reflexivity|].
  unfold delete_series.
  apply keys_kept_emit_series;
    [intros i; unfold UpdateDict_may_add;
     pose proof (SearchPathExcluded_key_indexed i); tauto|].
  apply keys_kept_emit_series;
    [intros i; unfold UpdateDict_may_add;
     pose proof (SearchPath_key_indexed i); tauto|].
  apply keys_kept_delete_series_rounds;
    [intros i; unfold UpdateDict_may_remove;
     pose proof (SearchPathExcluded_key_indexed i); tauto|].
  apply keys_kept_delete_series_rounds;
    [intros i; unfold UpdateDict_may_remove;
     pose proof (SearchPath_key_indexed i); tauto|].
  apply keys_kept_SetHeaderNotEmpty;
    [intros Hv; unfold UpdateDict_may_remove; tauto
    |intros Hv; unfold UpdateDict_may_add; tauto|].
  match goal with
  | |- keys_kept_in_order _ _ _ (m_entries (if ?b then SetHeader ?k ?v ?x else ?x)) =>
      assert (Hx : keys_kept_in_order (UpdateDict_may_remove h)
                     (UpdateDict_may_add h) (m_entries h) (m_entries x));
      [|destruct b eqn:Hb; [|exact Hx];
        apply keys_kept_SetHeader; [|exact Hx];
        unfold UpdateDict_may_add; right; right; right; left;
        split; [reflexivity|];
        destruct (Keywords h); [discriminate Hb | discriminate]]
  end.
  apply keys_kept_SetHeaderNotEmpty;
    [intros Hv; unfold UpdateDict_may_remove; tauto
    |intros Hv; unfold UpdateDict_may_add; tauto|].
  apply keys_kept_SetHeader; [unfold UpdateDict_may_add; tauto|].
  apply keys_kept_SetHeaderNotEmpty;
    [intros Hv; unfold UpdateDict_may_remove; tauto
    |intros Hv; standard_key_added|].
  apply keys_kept_SetHeader; [standard_key_added|].
  apply keys_kept_SetHeader; [standard_key_added|].
  apply keys_kept_SetHeader; [standard_key_added|].
  apply keys_kept_SetHeader; [standard_key_added|].
  assert (Hx : keys_kept_in_order (UpdateDict_may_remove h) (UpdateDict_may_add h)
                 (m_entries h)
                 (m_entries
                    (SetHeader (wxS "PO-Revision-Date") (RevisionDate h)
                       (SetHeader (wxS "POT-Creation-Date") (CreationDate h)
                          (SetHeader (wxS "Project-Id-Version") (Project h) h))))).
  { apply keys_kept_SetHeader; [standard_key_added|].
    apply keys_kept_SetHeader; [standard_key_added|].
    apply keys_kept_SetHeader; [standard_key_added|].
    apply keys_kept_refl. }
  destruct (Wx.empty (TranslatorEmail h)).
  - destruct (negb _ || negb _); [|exact Hx].
    apply keys_kept_SetHeader; [standard_key_added | exact Hx].
  - destruct (Wx.empty (Translator h));
      (apply keys_kept_SetHeader; [standard_key_added | exact Hx]).
Qed.

(** C6 (as amended): after [UpdateDict] the entries with standard keys come
    first, in the canonical order of the eleven keys, ahead of every other
    entry.  The other keys follow: those of the input that [UpdateDict] has
    not removed, in their input order, and then the keys it has appended.
    It removes only X-Poedit-SourceCharset and X-Poedit-Basepath, and these
    only when the field is empty, and keys of the indexed SearchPath series.
    It appends only X-Generator; X-Poedit-SourceCharset,
    X-Poedit-KeywordsList and X-Poedit-Basepath, and these only when the
    field is not empty; and keys of the indexed series. *)
Theorem UpdateDict_canonical_order `{Ext : Externals} (h : HeaderData) :
  (forall j k a b,
     j < k ->
     m_entries (UpdateDict h) !! j = Some a ->
     m_entries (UpdateDict h) !! k = Some b ->
     standard_key (Key b) ->
     standard_key (Key a) /\
     forall p q, canonicalOrder !! p = Some (Key a) ->
                 canonicalOrder !! q = Some (Key b) -> p <= q) /\
  (exists (removed : wxString -> bool) (added : list wxString),
     extension_keys (m_entries (UpdateDict h)) =
       filter (fun key => removed key = false) (extension_keys (m_entries h))
       ++ added /\
     (forall key, removed key = true ->
        (key = wxS "X-Poedit-SourceCharset" /\ SourceCodeCharset h = []) \/
        (key = wxS "X-Poedit-Basepath" /\ BasePath h = []) \/
        indexed_key key) /\
     (forall key, key ∈ added ->
        key = wxS "X-Generator" \/
        (key = wxS "X-Poedit-SourceCharset" /\ SourceCodeCharset h <> []) \/
        (key = wxS "X-Poedit-KeywordsList" /\ Keywords h <> []) \/
        (key = wxS "X-Poedit-Basepath" /\ BasePath h <> []) \/
        indexed_key key)).
Proof.
  destruct (UpdateDict_keys_kept h)
    as (hw & -> & removed & added & Hkeys & Hrem & Hadd).
  split.
  - intros j k a b Hjk Ha Hb Hstd.
    pose proof (StronglySorted_lookup_le _ _ j k a b
                  (NormalizeHeaderOrder_sorted hw) Hjk Ha Hb) as Hle.
    simpl in Hle. pose proof (canonical_rank_lt _ Hstd) as Hlt.
    assert (Ha' : standard_key (Key a)).
    { destruct (decide (standard_key (Key a))) as [|Hn]; [assumption|].
      rewrite (canonical_rank_extension _ Hn) in Hle. lia. }
    split; [exact Ha'|]. intros p q Hp Hq.
    rewrite (canonical_rank_standard p _ Hp), (canonical_rank_standard q _ Hq) in Hle.
    lia.
  - exists (fun key => removed key && negb (bool_decide (key = wxS "Language"))),
           (filter (fun key => ~ standard_key key) added).
    split; [|split].
    + rewrite NormalizeHeaderOrder_extension_keys. unfold extension_keys.
      rewrite Hkeys, filter_app. f_equal. rewrite !list_filter_filter.
      apply list_filter_iff. intros key.
      rewrite andb_false_iff, negb_false_iff, bool_decide_eq_true.
      split; [tauto|]. intros [[Hr|Hl] Hn]; [tauto|].
      exfalso. apply Hn. rewrite Hl. unfold standard_key.
      apply (bool_decide_unpack _). vm_compute. exact I.
    + intros key [Hr Hl]%andb_true_iff.
      apply negb_true_iff, bool_decide_eq_false in Hl.
      destruct (Hrem key Hr) as [[? _]|?]; tauto.
    + intros key Hk. apply list_elem_of_filter in Hk as [Hn Hk].
      destruct (Hadd key Hk) as [?|?]; tauto.
Qed.

(** C6 (as stated) fails: the input has the extension keys
    X-Poedit-SearchPath-0 and X-Foo in this order; after [UpdateDict] both
    are there, in the opposite order. *)
Lemma UpdateDict_moves_indexed_keys :
  ~ (forall (Ext : Externals) (h : HeaderData),
       filter (fun key => key ∈ map Key (m_entries h))
              (extension_keys (m_entries (UpdateDict h))) =
       filter (fun key => key ∈ map Key (m_entries (UpdateDict h)))
              (extension_keys (m_entries h))).
Proof.
  intros H.
  specialize (H sample_Externals
                (header_with_paths
                   [ {| Key := wxS "X-Poedit-SearchPath-0"; Value := wxS "src" |};
                     {| Key := wxS "X-Foo"; Value := wxS "1" |} ]
                   [wxS "src"])).
  vm_compute in H. discriminate.
Qed.

(** ** The indexed search-path series *)

(** C3, at the failing input: the raw entries hold X-Poedit-SearchPath-0 and
    X-Poedit-SearchPath-2 (index 1 is missing) and the header has one search
    path.  The deleting loop stops at the missing index 1, so the entry of
    index 2 outlives [UpdateDict]: three entries would have to go, one does.
    With a second search path the stale entry even joins the series again:
    reading the header back gives three paths. *)
Theorem UpdateDict_keeps_entry_behind_gap :
  let stale :=
    [ {| Key := wxS "X-Poedit-SearchPath-0"; Value := wxS "src" |};
      {| Key := wxS "X-Poedit-SearchPath-2"; Value := wxS "old" |} ] in
  let h1 := @header_with_paths sample_Externals stale [wxS "src"] in
  let h2 := @header_with_paths sample_Externals stale [wxS "src"; wxS "lib"] in
  filter (fun e => Wx.starts_with (wxS "X-Poedit-SearchPath-") (Key e) = true)
         (m_entries (UpdateDict h1)) =
    [ {| Key := wxS "X-Poedit-SearchPath-2"; Value := wxS "old" |};
      {| Key := wxS "X-Poedit-SearchPath-0"; Value := wxS "src" |} ] /\
  SearchPaths (ParseDict (UpdateDict h2)) = [wxS "src"; wxS "lib"; wxS "old"].
Proof. split; vm_compute; reflexivity. Qed.

(** ** EscapeCString *)


Lemma EscapeCString_cons (c : ascii) (s : wxString) :
  EscapeCString (c :: s) = escape_char c ++ EscapeCString s.
Proof. reflexivity. Qed.




Lemma EscapeCString_plain (s : wxString) :
  Forall (fun c => escape_char c = [c]) s -> EscapeCString s = s.
Proof.
  induction 1 as [|c s Hc Hs IH]; [reflexivity|].
  now rewrite EscapeCString_cons, Hc, IH.
Qed.

(** ** Trimming *)

Lemma Trim_left_app_space (c : ascii) (s : wxString) :
  Wx.wxIsspace c = true -> Wx.Trim_left (c :: s) = Wx.Trim_left s.
Proof. intros H. simpl. now rewrite H. Qed.

Lemma Trim_left_id_head (c : ascii) (s : wxString) :
  Wx.wxIsspace c = false -> Wx.Trim_left (c :: s) = c :: s.
Proof. intros H. simpl. now rewrite H. Qed.



Lemma Trim_right_singleton (c : ascii) :
  Wx.wxIsspace c = false -> Wx.Trim_right [c] = [c].
Proof. intros H. unfold Wx.Trim_right. simpl. now rewrite H. Qed.

Lemma line_safe_nil : line_safe [].
Proof. split; [apply not_elem_of_nil | split; reflexivity]. Qed.



(** ** The wire text of safe entries *)


Lemma one_of_LF (c : ascii) : Wx.one_of [LF] c = false <-> c <> LF.
Proof.
  unfold Wx.one_of. simpl. rewrite orb_false_r.
  destruct (Ascii.eqb_spec c LF); split; congruence.
Qed.






Section WireText.
Context `{Ext : Externals}.



End WireText.

(** ** The keys of the indexed series *)


Lemma wxS_inj (a b : string) : wxS a = wxS b -> a = b.
Proof.
  unfold wxS. intros H. apply (f_equal string_of_list_ascii) in H.
  now rewrite !string_of_list_ascii_of_string in H.
Qed.

Lemma Printf_i_inj (i j : N) : Wx.Printf_i i = Wx.Printf_i j -> i = j.
Proof.
  unfold Wx.Printf_i. intros H%wxS_inj.
  apply DecimalN.Unsigned.to_uint_inj.
  apply (f_equal NilEmpty.uint_of_string) in H.
  rewrite !NilEmpty.usu in H. now injection H.
Qed.



Lemma series_key_inj (format : wxString) (i j : N) :
  series_key format i = series_key format j -> i = j.
Proof. unfold series_key. intros H%app_inv_head. now apply Printf_i_inj. Qed.

Lemma SearchPath_key_not_Excluded (i j : N) :
  SearchPath_key i <> SearchPathExcluded_key j.
Proof.
  unfold SearchPath_key, SearchPathExcluded_key, series_key. simpl.
  discriminate.
Qed.

(** A key of a series differs from a key that does not begin like it. *)
Lemma series_key_not (format : wxString) (i : N) (key : wxString) :
  Wx.starts_with format key = false -> series_key format i <> key.
Proof.
  intros Hs Heq. subst key. unfold series_key in Hs.
  now rewrite starts_with_app in Hs.
Qed.





(** ** What a key reads after the store operations *)

Lemma first_value_Some_key (key value : wxString) (es : Entries) :
  first_value key es = Some value -> key ∈ map Key es.
Proof.
  induction es as [|e es IH]; simpl; [discriminate|].
  destruct (decide (Key e = key)) as [<-|].
  - intros _. apply list_elem_of_here.
  - intros H. apply list_elem_of_further. now apply IH.
Qed.

Section StoreReads.
Context `{Ext : Externals}.

Lemma set_entries_same (h : HeaderData) : set_entries (m_entries h) h = h.
Proof. now destruct h. Qed.

Lemma SetHeader_same_but_entries (key value : wxString) (h : HeaderData) :
  SetHeader key value h = set_entries (m_entries (SetHeader key value h)) h.
Proof. unfold SetHeader. now destruct (Find h key) as [[? ?]|]. Qed.

Lemma DeleteHeader_same_but_entries (key : wxString) (h : HeaderData) :
  DeleteHeader key h = set_entries (m_entries (DeleteHeader key h)) h.
Proof.
  unfold DeleteHeader. destruct (HasHeader h key); [reflexivity|].
  now rewrite set_entries_same.
Qed.

Lemma first_value_SetHeader_eq (key value : wxString) (h : HeaderData) :
  first_value key (m_entries (SetHeader key value h)) = Some value.
Proof. rewrite SetHeader_entries. apply first_value_set_entry_eq. Qed.

Lemma first_value_SetHeader_ne (key key' value : wxString) (h : HeaderData) :
  key <> key' ->
  first_value key (m_entries (SetHeader key' value h)) =
  first_value key (m_entries h).
Proof. rewrite SetHeader_entries. apply first_value_set_entry_ne. Qed.

Lemma first_value_DeleteHeader_eq (key : wxString) (h : HeaderData) :
  first_value key (m_entries (DeleteHeader key h)) = None.
Proof. rewrite DeleteHeader_entries. apply first_value_filter_eq. Qed.

Lemma first_value_DeleteHeader_ne (key key' : wxString) (h : HeaderData) :
  key <> key' ->
  first_value key (m_entries (DeleteHeader key' h)) =
  first_value key (m_entries h).
Proof. rewrite DeleteHeader_entries. apply first_value_filter_ne. Qed.

Lemma first_value_SetHeaderNotEmpty_eq (key value : wxString) (h : HeaderData) :
  first_value key (m_entries (SetHeaderNotEmpty key value h)) =
  if Wx.empty value then None else Some value.
Proof.
  unfold SetHeaderNotEmpty. destruct (Wx.empty value).
  - apply first_value_DeleteHeader_eq.
  - apply first_value_SetHeader_eq.
Qed.

Lemma first_value_SetHeaderNotEmpty_ne (key key' value : wxString) (h : HeaderData) :
  key <> key' ->
  first_value key (m_entries (SetHeaderNotEmpty key' value h)) =
  first_value key (m_entries h).
Proof.
  intros Hne. unfold SetHeaderNotEmpty. destruct (Wx.empty value).
  - now apply first_value_DeleteHeader_ne.
  - now apply first_value_SetHeader_ne.
Qed.

Lemma first_value_delete_series_rounds (fuel : nat) (series : N -> wxString)
    (i : N) (key : wxString) (h : HeaderData) :
  (forall j, key <> series j) ->
  first_value key (m_entries (delete_series_rounds fuel series i h)) =
  first_value key (m_entries h).
Proof.
  intros Hne. revert i h. induction fuel as [|fuel IH]; intros i h; simpl.
  - reflexivity.
  - destruct (HasHeader h (series i)); simpl; [|reflexivity].
    rewrite IH. now apply first_value_DeleteHeader_ne.
Qed.

Lemma first_value_delete_series (series : N -> wxString) (key : wxString)
    (h : HeaderData) :
  (forall j, key <> series j) ->
  first_value key (m_entries (delete_series series h)) =
  first_value key (m_entries h).
Proof. apply first_value_delete_series_rounds. Qed.

Lemma first_value_delete_series_None (series : N -> wxString) (key : wxString)
    (h : HeaderData) :
  first_value key (m_entries h) = None ->
  first_value key (m_entries (delete_series series h)) = None.
Proof.
  unfold delete_series. generalize (S (length (m_entries h))) 0%N.
  intros fuel. revert h. induction fuel as [|fuel IH]; intros h i Hnone; simpl.
  - exact Hnone.
  - destruct (HasHeader h (series i)); simpl; [|exact Hnone].
    apply IH. destruct (decide (key = series i)) as [->|Hne].
    + apply first_value_DeleteHeader_eq.
    + now rewrite first_value_DeleteHeader_ne.
Qed.

(** Nothing is deleted when the series has no entry of index 0. *)
Lemma delete_series_none (series : N -> wxString) (h : HeaderData) :
  first_value (series 0%N) (m_entries h) = None ->
  delete_series series h = h.
Proof.
  intros H. unfold delete_series. simpl.
  now rewrite HasHeader_first_value, H.
Qed.

Lemma first_value_emit_series_other (series : N -> wxString)
    (paths : list wxString) (i : N) (key : wxString) (h : HeaderData) :
  (forall j, key <> series j) ->
  first_value key (m_entries (emit_series series paths i h)) =
  first_value key (m_entries h).
Proof.
  intros Hne. revert i h. induction paths as [|p paths IH]; intros i h; simpl.
  - reflexivity.
  - rewrite IH. now apply first_value_SetHeader_ne.
Qed.

(** After a series is written from index [i], the entry of index [i + n]
    holds the [n]-th path; the entries outside the range are as before. *)
Lemma first_value_emit_series_below (series : N -> wxString)
    (paths : list wxString) (i j : N) (h : HeaderData) :
  (forall a b, series a = series b -> a = b) ->
  (j < i)%N ->
  first_value (series j) (m_entries (emit_series series paths i h)) =
  first_value (series j) (m_entries h).
Proof.
  intros Hinj. revert i h. induction paths as [|p paths IH]; intros i h Hlt; simpl.
  - reflexivity.
  - rewrite IH by lia. apply first_value_SetHeader_ne.
    intros H%Hinj. lia.
Qed.

Lemma first_value_emit_series_at (series : N -> wxString)
    (paths : list wxString) (i : N) (n : nat) (h : HeaderData) :
  (forall a b, series a = series b -> a = b) ->
  first_value (series (i + N.of_nat n)%N) (m_entries (emit_series series paths i h)) =
  match paths !! n with
  | Some p => Some p
  | None => first_value (series (i + N.of_nat n)%N) (m_entries h)
  end.
Proof.
  intros Hinj. revert i n h.
  induction paths as [|p paths IH]; intros i n h; simpl; [reflexivity|].
  destruct n as [|n]; simpl.
  - rewrite N.add_0_r.
    rewrite first_value_emit_series_below by (assumption || lia).
    apply first_value_SetHeader_eq.
  - replace (i + N.of_nat (S n))%N with (i + 1 + N.of_nat n)%N by lia.
    rewrite IH. destruct (paths !! n); [reflexivity|].
    apply first_value_SetHeader_ne. intros H%Hinj. lia.
Qed.

End StoreReads.

(** ** Tokens of the keyword list and of the translator *)

Lemma find_first_of_None (delims s : wxString) :
  Forall (fun c => Wx.one_of delims c = false) s ->
  Wx.find_first_of delims s = None.
Proof.
  induction 1 as [|c s Hc Hs IH]; simpl; [reflexivity|].
  now rewrite Hc, IH.
Qed.

Lemma find_first_of_app (delims a b : wxString) (c : ascii) :
  Forall (fun c => Wx.one_of delims c = false) a ->
  Wx.one_of delims c = true ->
  Wx.find_first_of delims (a ++ c :: b) = Some (length a).
Proof.
  intros Ha Hc. induction Ha as [|x a Hx Ha IH]; simpl.
  - now rewrite Hc.
  - now rewrite Hx, IH.
Qed.

Lemma existsb_non_delim (delims s : wxString) :
  s <> [] -> Forall (fun c => Wx.one_of delims c = false) s ->
  existsb (fun c => negb (Wx.one_of delims c)) s = true.
Proof.
  intros Hne Hs. destruct Hs as [|c s Hc Hs]; [congruence|].
  simpl. now rewrite Hc.
Qed.

Lemma GetNextToken_RET_EMPTY (t : Wx.wxStringTokenizer) :
  Wx.tk_mode t = Wx.wxTOKEN_RET_EMPTY ->
  Wx.HasMoreTokens t = true ->
  Wx.GetNextToken t = Wx.read_token t.
Proof.
  intros Hmode Hm. unfold Wx.GetNextToken. simpl. rewrite Hm. simpl.
  unfold Wx.AllowEmpty. rewrite Hmode. simpl.
  now destruct (Wx.read_token t).
Qed.

Lemma all_tokens_nil (delims : wxString) (atBegin : bool)
    (mode : Wx.wxStringTokenizerMode) :
  Wx.all_tokens {| Wx.tk_rest := []; Wx.tk_atBegin := atBegin;
                   Wx.tk_delims := delims; Wx.tk_mode := mode |} = [].
Proof. now destruct mode. Qed.

(** A text without delimiter is one token. *)
Lemma all_tokens_one (delims s : wxString) (atBegin : bool) :
  s <> [] -> Forall (fun c => Wx.one_of delims c = false) s ->
  Wx.all_tokens {| Wx.tk_rest := s; Wx.tk_atBegin := atBegin;
                   Wx.tk_delims := delims; Wx.tk_mode := Wx.wxTOKEN_RET_EMPTY |}
  = [s].
Proof.
  intros Hne Hs. rewrite all_tokens_unfold.
  assert (Hm : Wx.HasMoreTokens
            {| Wx.tk_rest := s; Wx.tk_atBegin := atBegin; Wx.tk_delims := delims;
               Wx.tk_mode := Wx.wxTOKEN_RET_EMPTY |} = true).
  { unfold Wx.HasMoreTokens. simpl. now rewrite existsb_non_delim. }
  rewrite Hm, GetNextToken_RET_EMPTY by (reflexivity || exact Hm).
  unfold Wx.read_token. simpl. rewrite find_first_of_None by exact Hs.
  simpl. now rewrite all_tokens_nil.
Qed.






Lemma all_tokens_token (delims a b : wxString) (c : ascii) (atBegin : bool) :
  a <> [] ->
  Forall (fun c => Wx.one_of delims c = false) a ->
  Wx.one_of delims c = true ->
  Wx.all_tokens {| Wx.tk_rest := a ++ c :: b; Wx.tk_atBegin := atBegin;
                   Wx.tk_delims := delims; Wx.tk_mode := Wx.wxTOKEN_RET_EMPTY |}
  = a :: Wx.all_tokens {| Wx.tk_rest := b; Wx.tk_atBegin := false;
                          Wx.tk_delims := delims;
                          Wx.tk_mode := Wx.wxTOKEN_RET_EMPTY |}
  /\
  Wx.GetNextToken {| Wx.tk_rest := a ++ c :: b; Wx.tk_atBegin := atBegin;
                     Wx.tk_delims := delims; Wx.tk_mode := Wx.wxTOKEN_RET_EMPTY |}
  = (a, {| Wx.tk_rest := b; Wx.tk_atBegin := false; Wx.tk_delims := delims;
           Wx.tk_mode := Wx.wxTOKEN_RET_EMPTY |}).
Proof.
  intros Hne Ha Hc.
  assert (Hm : Wx.HasMoreTokens
            {| Wx.tk_rest := a ++ c :: b; Wx.tk_atBegin := atBegin;
               Wx.tk_delims := delims; Wx.tk_mode := Wx.wxTOKEN_RET_EMPTY |} = true).
  { unfold Wx.HasMoreTokens. cbn [Wx.tk_rest Wx.tk_delims].
    rewrite existsb_app. now rewrite (existsb_non_delim delims a Hne Ha). }
  assert (Hnext : Wx.GetNextToken
            {| Wx.tk_rest := a ++ c :: b; Wx.tk_atBegin := atBegin;
               Wx.tk_delims := delims; Wx.tk_mode := Wx.wxTOKEN_RET_EMPTY |}
          = (a, {| Wx.tk_rest := b; Wx.tk_atBegin := false; Wx.tk_delims := delims;
                   Wx.tk_mode := Wx.wxTOKEN_RET_EMPTY |})).
  { rewrite GetNextToken_RET_EMPTY by (reflexivity || exact Hm).
    unfold Wx.read_token. cbn [Wx.tk_rest Wx.tk_delims Wx.tk_mode].
    rewrite find_first_of_app by assumption.
    rewrite take_app_length.
    replace (a ++ c :: b) with ((a ++ [c]) ++ b) by now rewrite <- app_assoc.
    replace (S (length a)) with (length (a ++ [c]))
      by (rewrite length_app; simpl; lia).
    now rewrite drop_app_length. }
  split; [|exact Hnext].
  rewrite all_tokens_unfold, Hm, Hnext. reflexivity.
Qed.

Lemma no_brackets (c : ascii) :
  Wx.one_of (wxS "<>") " "%char = false /\
  Wx.one_of (wxS "<>") "<"%char = true /\
  Wx.one_of (wxS "<>") ">"%char = true.
Proof. repeat split. Qed.

(** A name alone is one token; name and e-mail as [UpdateDict] writes them
    are two, the name with its blank and the e-mail. *)
Lemma CountTokens_name (name : wxString) :
  name <> [] -> Forall (fun c => Wx.one_of (wxS "<>") c = false) name ->
  Wx.CountTokens (Wx.Tokenizer name (wxS "<>")) = 1.
Proof.
  intros Hne Hn. unfold Wx.CountTokens.
  change (Wx.tk_mode (Wx.Tokenizer name (wxS "<>"))) with Wx.wxTOKEN_RET_EMPTY.
  cbn [Wx.tk_rest Wx.tk_delims Wx.Tokenizer].
  now rewrite all_tokens_one.
Qed.

Lemma tokens_name_email (name email : wxString) :
  name <> [] -> email <> [] ->
  Forall (fun c => Wx.one_of (wxS "<>") c = false) (name ++ email) ->
  let tkn := Wx.Tokenizer (name ++ wxS " <" ++ email ++ wxS ">") (wxS "<>") in
  Wx.CountTokens tkn = 2 /\
  fst (Wx.GetNextToken tkn) = name ++ [" "%char] /\
  fst (Wx.GetNextToken (snd (Wx.GetNextToken tkn))) = email.
Proof.
  intros Hn He Hb. apply Forall_app in Hb as [Hbn Hbe].
  assert (Htext : name ++ wxS " <" ++ email ++ wxS ">" =
                  (name ++ [" "%char]) ++ "<"%char :: email ++ ">"%char :: [])
    by (rewrite <- app_assoc; reflexivity).
  assert (Hname : Forall (fun c => Wx.one_of (wxS "<>") c = false)
                         (name ++ [" "%char])).
  { apply Forall_app. split; [exact Hbn | repeat constructor]. }
  assert (Hnn : name ++ [" "%char] <> []) by (destruct name; discriminate).
  intros tkn. subst tkn. rewrite Htext. unfold Wx.CountTokens.
  change (Wx.Tokenizer ?s (wxS "<>")) with
    {| Wx.tk_rest := s; Wx.tk_atBegin := true; Wx.tk_delims := wxS "<>";
       Wx.tk_mode := Wx.wxTOKEN_RET_EMPTY |}.
  cbn [Wx.tk_rest Wx.tk_delims Wx.tk_mode].
  destruct (all_tokens_token (wxS "<>") (name ++ [" "%char])
              (email ++ [">"%char]) "<"%char true Hnn Hname eq_refl)
    as [Hall Hnext].
  destruct (all_tokens_token (wxS "<>") email [] ">"%char false He Hbe eq_refl)
    as [Hall2 Hnext2].
  rewrite Hall, Hall2, Hnext. cbn [fst snd]. rewrite Hnext2.
  rewrite all_tokens_nil. repeat split.
Qed.

Lemma Trim_right_blank (s : wxString) :
  Wx.Trim_right (s ++ [" "%char]) = Wx.Trim_right s.
Proof. unfold Wx.Trim_right. now rewrite rev_app_distr. Qed.

(** ** What the keys read after UpdateDict *)

Ltac key_differs :=
  solve
    [ apply series_key_not; reflexivity
    | apply not_eq_sym; apply series_key_not; reflexivity
    | apply SearchPath_key_not_Excluded
    | apply not_eq_sym; apply SearchPath_key_not_Excluded
    | vm_compute; discriminate ].

Ltac read_store_step :=
  first
    [ rewrite NormalizeHeaderOrder_first_value
    | rewrite first_value_emit_series_other by (intros; key_differs)
    | rewrite first_value_delete_series by (intros; key_differs)
    | rewrite first_value_SetHeader_eq
    | rewrite first_value_SetHeader_ne by key_differs
    | rewrite first_value_SetHeaderNotEmpty_eq
    | rewrite first_value_SetHeaderNotEmpty_ne by key_differs
    | match goal with
      | |- context [m_entries (if ?b then _ else _)] => destruct b eqn:?
      end ].

Ltac read_store := unfold UpdateDict; repeat read_store_step.

Section UpdateDictReads.
Context `{Ext : Externals}.
Variable h : HeaderData.

Lemma UpdateDict_reads_Project :
  first_value (wxS "Project-Id-Version") (m_entries (UpdateDict h)) =
  Some (Project h).
Proof. read_store; reflexivity. Qed.

Lemma UpdateDict_reads_CreationDate :
  first_value (wxS "POT-Creation-Date") (m_entries (UpdateDict h)) =
  Some (CreationDate h).
Proof. read_store; reflexivity. Qed.

Lemma UpdateDict_reads_RevisionDate :
  first_value (wxS "PO-Revision-Date") (m_entries (UpdateDict h)) =
  Some (RevisionDate h).
Proof. read_store; reflexivity. Qed.

Lemma UpdateDict_reads_LanguageTeam :
  first_value (wxS "Language-Team") (m_entries (UpdateDict h)) =
  Some (LanguageTeam h).
Proof. read_store; reflexivity. Qed.

Lemma UpdateDict_reads_ContentType :
  first_value (wxS "Content-Type") (m_entries (UpdateDict h)) =
  Some (wxS "text/plain; charset=" ++ Charset h).
Proof. read_store; reflexivity. Qed.

Lemma UpdateDict_reads_Language :
  first_value (wxS "Language") (m_entries (UpdateDict h)) =
  if Wx.empty (Language_Code (Lang h)) then None
  else Some (Language_Code (Lang h)).
Proof. read_store; reflexivity. Qed.

Lemma UpdateDict_reads_SourceCharset :
  first_value (wxS "X-Poedit-SourceCharset") (m_entries (UpdateDict h)) =
  if Wx.empty (SourceCodeCharset h) then None else Some (SourceCodeCharset h).
Proof. read_store; reflexivity. Qed.

Lemma UpdateDict_reads_Basepath :
  first_value (wxS "X-Poedit-Basepath") (m_entries (UpdateDict h)) =
  if Wx.empty (BasePath h) then None else Some (BasePath h).
Proof. read_store; reflexivity. Qed.

Lemma UpdateDict_reads_KeywordsList :
  first_value (wxS "X-Poedit-KeywordsList") (m_entries (UpdateDict h)) =
  if negb (Nat.eqb (length (Keywords h)) 0)
  then Some (join_keywords (Keywords h))
  else first_value (wxS "X-Poedit-KeywordsList") (m_entries h).
Proof.
  unfold UpdateDict. destruct (negb (Nat.eqb (length (Keywords h)) 0));
    repeat read_store_step; reflexivity.
Qed.





(** The translator line: the name alone, the e-mail alone, or both. *)
Lemma UpdateDict_reads_LastTranslator :
  first_value (wxS "Last-Translator") (m_entries h) = None ->
  first_value (wxS "Last-Translator") (m_entries (UpdateDict h)) =
  Some (if Wx.empty (TranslatorEmail h) then Translator h
        else if Wx.empty (Translator h) then TranslatorEmail h
             else Translator h ++ wxS " <" ++ TranslatorEmail h ++ wxS ">").
Proof.
  intros Hnone. unfold UpdateDict.
  rewrite HasHeader_first_value.
  repeat (rewrite first_value_SetHeader_ne by key_differs).
  rewrite Hnone. cbn [bool_decide decide_rel negb orb].
  replace (bool_decide (is_Some (@None wxString))) with false by reflexivity.
  rewrite orb_true_r.
  destruct (Wx.empty (TranslatorEmail h)); [|destruct (Wx.empty (Translator h))];
    repeat read_store_step; reflexivity.
Qed.

(** The series read the current lists, when no entry of theirs was there
    before. *)
Lemma UpdateDict_reads_SearchPath (n : nat) :
  (forall i, first_value (SearchPath_key i) (m_entries h) = None) ->
  first_value (SearchPath_key (N.of_nat n)) (m_entries (UpdateDict h)) =
  SearchPaths h !! n.
Proof.
  intros Hnone. unfold UpdateDict.
  rewrite NormalizeHeaderOrder_first_value.
  rewrite first_value_emit_series_other by (intros; key_differs).
  rewrite <- (N.add_0_l (N.of_nat n)).
  rewrite first_value_emit_series_at by (apply series_key_inj).
  destruct (SearchPaths h !! n); [reflexivity|].
  rewrite first_value_delete_series by (intros; key_differs).
  apply first_value_delete_series_None.
  repeat read_store_step; apply Hnone.
Qed.

Lemma UpdateDict_reads_SearchPathExcluded (n : nat) :
  (forall i, first_value (SearchPathExcluded_key i) (m_entries h) = None) ->
  first_value (SearchPathExcluded_key (N.of_nat n)) (m_entries (UpdateDict h)) =
  SearchPathsExcluded h !! n.
Proof.
  intros Hnone. unfold UpdateDict.
  rewrite NormalizeHeaderOrder_first_value.
  rewrite <- (N.add_0_l (N.of_nat n)).
  rewrite first_value_emit_series_at by (apply series_key_inj).
  destruct (SearchPathsExcluded h !! n); [reflexivity|].
  rewrite first_value_emit_series_other by (intros; key_differs).
  apply first_value_delete_series_None.
  repeat read_store_step; apply Hnone.
Qed.

End UpdateDictReads.

(** ** Reading a series back *)

Section ReadSeries.
Context `{Ext : Externals}.

Lemma read_series_rounds_paths (paths : list wxString) (fuel : nat)
    (series : N -> wxString) (i : N) (h : HeaderData) (acc : list wxString) :
  Forall path_safe paths ->
  (forall n, first_value (series (i + N.of_nat n)%N) (m_entries h) = paths !! n) ->
  length paths < fuel ->
  read_series_rounds fuel series i h acc = acc ++ paths.
Proof.
  intros Hsafe. revert fuel i acc.
  induction Hsafe as [|p paths (Hne & _ & Hfix) Hsafe IH];
    intros fuel i acc Hread Hfuel;
    (destruct fuel as [|fuel]; [simpl in Hfuel; lia|]); simpl.
  - rewrite HasHeader_first_value.
    specialize (Hread 0). rewrite N.add_0_r in Hread. rewrite Hread.
    simpl. now rewrite app_nil_r.
  - rewrite HasHeader_first_value, GetHeader_first_value.
    pose proof (Hread 0) as H0. rewrite N.add_0_r in H0. rewrite H0.
    cbn [bool_decide decide_rel negb lookup default].
    replace (bool_decide (is_Some (Some p))) with true by reflexivity.
    cbn [negb default from_option]. simpl default. rewrite Hfix.
    apply empty_false_iff in Hne. rewrite Hne. simpl negb. cbv iota.
    rewrite IH.
    + now rewrite <- app_assoc.
    + intros n. specialize (Hread (S n)).
      replace (i + 1 + N.of_nat n)%N with (i + N.of_nat (S n))%N by lia.
      exact Hread.
    + simpl in Hfuel. lia.
Qed.

(** The entries hold at least as many entries as a series has in them. *)
Lemma series_entries_count (series : N -> wxString) (es : Entries) (len : nat) :
  (forall a b, series a = series b -> a = b) ->
  (forall n, n < len -> is_Some (first_value (series (N.of_nat n)) es)) ->
  len <= length es.
Proof.
  intros Hinj Hsome.
  assert (Hle : length (map (fun n => series (N.of_nat n)) (seq 0 len))
                <= length (map Key es));
    [|now rewrite !length_map, length_seq in Hle].
  apply submseteq_length, NoDup_submseteq.
  - apply NoDup_fmap_2_strong; [|apply NoDup_seq].
    intros x y _ _ H%Hinj. lia.
  - intros key (n & -> & Hn)%list_elem_of_fmap.
    apply elem_of_seq in Hn.
    destruct (Hsome n ltac:(lia)) as [v Hv].
    now apply first_value_Some_key in Hv.
Qed.

Lemma read_series_paths (series : N -> wxString) (h : HeaderData)
    (paths : list wxString) :
  (forall a b, series a = series b -> a = b) ->
  Forall path_safe paths ->
  (forall n, first_value (series (N.of_nat n)) (m_entries h) = paths !! n) ->
  read_series series h = paths.
Proof.
  intros Hinj Hsafe Hread. unfold read_series.
  rewrite (read_series_rounds_paths paths); [reflexivity | exact Hsafe | | ].
  - intros n. now rewrite N.add_0_l.
  - apply Nat.lt_succ_r, (series_entries_count series); [exact Hinj|].
    intros n Hn. rewrite Hread. now apply lookup_lt_is_Some_2.
Qed.

End ReadSeries.

(** ** ParseDict after UpdateDict *)


Lemma find_charset (charset : wxString) :
  Wx.find (wxS "; charset=") (wxS "text/plain; charset=" ++ charset) = Some 10.
Proof. reflexivity. Qed.

Section SyncRoundTrip.
Context `{Ext : Externals}.

Lemma DeleteHeader_absent (key : wxString) (h : HeaderData) :
  first_value key (m_entries h) = None -> DeleteHeader key h = h.
Proof.
  intros H. unfold DeleteHeader. now rewrite HasHeader_first_value, H.
Qed.

Lemma delete_series_rounds_same_but_entries (fuel : nat) (series : N -> wxString)
    (i : N) (h : HeaderData) :
  same_but_entries (delete_series_rounds fuel series i h) h.
Proof.
  revert i h. induction fuel as [|fuel IH]; intros i h; simpl.
  - exists (m_entries h). now rewrite set_entries_same.
  - destruct (HasHeader h (series i)); simpl.
    + destruct (IH (i + 1)%N (DeleteHeader (series i) h)) as [es ->].
      rewrite DeleteHeader_same_but_entries. now exists es.
    + exists (m_entries h). now rewrite set_entries_same.
Qed.

Lemma emit_series_same_but_entries (series : N -> wxString)
    (paths : list wxString) (i : N) (h : HeaderData) :
  same_but_entries (emit_series series paths i h) h.
Proof.
  revert i h. induction paths as [|p paths IH]; intros i h; simpl.
  - exists (m_entries h). now rewrite set_entries_same.
  - destruct (IH (i + 1)%N (SetHeader (series i) p h)) as [es ->].
    rewrite SetHeader_same_but_entries. now exists es.
Qed.

Lemma same_but_entries_trans (a b c : HeaderData) :
  same_but_entries a b -> same_but_entries b c -> same_but_entries a c.
Proof. intros [es ->] [es' ->]. now exists es. Qed.

Lemma same_but_entries_refl (a : HeaderData) : same_but_entries a a.
Proof. exists (m_entries a). now rewrite set_entries_same. Qed.

(** [UpdateDict] changes the raw entries and nothing else. *)
Lemma UpdateDict_same_but_entries (h : HeaderData) :
  same_but_entries (UpdateDict h) h.
Proof.
  unfold UpdateDict, NormalizeHeaderOrder, delete_series, SetHeaderNotEmpty.
  repeat
    first
      [ apply same_but_entries_refl
      | match goal with
        | |- same_but_entries (set_entries _ ?x) _ =>
            apply (same_but_entries_trans _ x); [now eexists|]
        | |- same_but_entries (SetHeader ?k ?v ?x) _ =>
            apply (same_but_entries_trans _ x);
            [rewrite SetHeader_same_but_entries; now eexists|]
        | |- same_but_entries (DeleteHeader ?k ?x) _ =>
            apply (same_but_entries_trans _ x);
            [rewrite DeleteHeader_same_but_entries; now eexists|]
        | |- same_but_entries (emit_series ?s ?p ?i ?x) _ =>
            apply (same_but_entries_trans _ x);
            [apply emit_series_same_but_entries|]
        | |- same_but_entries (delete_series_rounds ?f ?s ?i ?x) _ =>
            apply (same_but_entries_trans _ x);
            [apply delete_series_rounds_same_but_entries|]
        | |- same_but_entries (if ?b then _ else _) _ => destruct b
        end ].
Qed.

End SyncRoundTrip.

Lemma default_not_empty (v : wxString) :
  default [] (if Wx.empty v then None else Some v) = v.
Proof. now destruct v. Qed.

(** ** The entries that [UpdateDict] writes are safe on the wire *)


(** A text known in full is checked by computation. *)
Ltac safe_by_computation :=
  repeat split; try reflexivity; apply (bool_decide_unpack _); vm_compute; exact I.

Section EntriesSafe.
Context `{Ext : Externals}.








End EntriesSafe.

(** ** The text that ToString writes *)


(** * Further properties of the code *)

(** ** CatalogItem: the translation slots as a total map *)

Lemma GetTranslation_lookup (it : CatalogItem) (idx : nat) :
  CatalogItem.GetTranslation it idx = default [] (m_translations it !! idx).
Proof.
  unfold CatalogItem.GetTranslation, CatalogItem.GetNumberOfTranslations.
  destruct (Nat.leb_spec (length (m_translations it)) idx) as [Hle|Hlt].
  - now rewrite lookup_ge_None_2.
  - apply nth_lookup.
Qed.

(** [SetTranslation] and [GetTranslation] behave as the update and the read
    of a total map from indices to texts: the slot written reads as the text
    written, every other index reads as before (an index beyond the slots
    reading as the empty text before and after), and the slots grow to hold
    the index. *)
Theorem SetTranslation_GetTranslation (t : wxString) (idx j : nat)
    (it : CatalogItem) :
  CatalogItem.GetTranslation (CatalogItem.SetTranslation t idx it) j =
    (if decide (j = idx) then t else CatalogItem.GetTranslation it j) /\
  CatalogItem.GetNumberOfTranslations (CatalogItem.SetTranslation t idx it) =
    Nat.max (S idx) (CatalogItem.GetNumberOfTranslations it).
Proof.
  rewrite !GetTranslation_lookup.
  unfold CatalogItem.GetNumberOfTranslations.
  rewrite SetTranslation_slots.
  set (ts := m_translations it).
  assert (Hlen : length (ts ++ replicate (S idx - length ts) wxEmptyString) =
                 Nat.max (S idx) (length ts))
    by (rewrite length_app, length_replicate; lia).
  split.
  - destruct (decide (j = idx)) as [->|Hne].
    + rewrite list_lookup_insert_eq by lia. reflexivity.
    + rewrite list_lookup_insert_ne by congruence.
      destruct (Nat.lt_ge_cases j (length ts)) as [Hlt|Hge].
      * now rewrite lookup_app_l.
      * rewrite lookup_app_r by exact Hge.
        rewrite (lookup_ge_None_2 ts) by exact Hge.
        destruct (replicate _ _ !! _) as [x|] eqn:E; [|reflexivity].
        apply lookup_replicate in E as [-> _]. reflexivity.
  - now rewrite length_insert.
Qed.

(** ** CatalogItem: ClearTranslation *)

(** [ClearTranslation] keeps the number of slots and empties each of them,
    drops the translated and the fuzzy flag, marks the item modified exactly
    when it already was or a slot held a text, and clearing again changes
    nothing more. *)
Theorem ClearTranslation_clears (it : CatalogItem) :
  CatalogItem.GetNumberOfTranslations (CatalogItem.ClearTranslation it) =
    CatalogItem.GetNumberOfTranslations it /\
  (forall idx,
     CatalogItem.GetTranslation (CatalogItem.ClearTranslation it) idx = []) /\
  CatalogItem.IsTranslated (CatalogItem.ClearTranslation it) = false /\
  CatalogItem.IsFuzzy (CatalogItem.ClearTranslation it) = false /\
  m_isModified (CatalogItem.ClearTranslation it) =
    m_isModified it || existsb (fun t => negb (Wx.empty t)) (m_translations it) /\
  CatalogItem.ClearTranslation (CatalogItem.ClearTranslation it) =
    CatalogItem.ClearTranslation it.
Proof.
  repeat split.
  - unfold CatalogItem.GetNumberOfTranslations.
    now rewrite ClearTranslation_slots, length_replicate.
  - intros idx. rewrite GetTranslation_lookup, ClearTranslation_slots.
    destruct (replicate _ _ !! idx) as [x|] eqn:E; [|reflexivity].
    apply lookup_replicate in E as [-> _]. reflexivity.
  - apply ClearTranslation_flag.
  - unfold CatalogItem.ClearTranslation. simpl.
    now rewrite clear_slots_spec.
  - unfold CatalogItem.ClearTranslation. simpl.
    now rewrite clear_slots_spec.
  - unfold CatalogItem.ClearTranslation. simpl.
    rewrite !clear_slots_spec. simpl.
    rewrite length_replicate, existsb_replicate_empty, orb_false_r.
    reflexivity.
Qed.

(** ** CatalogItem: SetTranslationFromSource *)

Lemma existsb_replicate_same (plural : wxString) (n : nat) :
  existsb (fun t => negb (Wx.eqb t plural)) (replicate n plural) = false.
Proof.
  induction n as [|n IH]; simpl; [reflexivity|].
  now rewrite wx_eqb_refl.
Qed.

Lemma existsb_differs_false (plural : wxString) (ts : wxArrayString) :
  existsb (fun t => negb (Wx.eqb t plural)) ts = false <->
  ts = replicate (length ts) plural.
Proof.
  induction ts as [|t ts IH]; simpl; [tauto|].
  rewrite orb_false_iff, IH, negb_false_iff, wx_eqb_eq. split.
  - intros [-> <-]. reflexivity.
  - intros H. injection H as <- H. tauto.
Qed.

(** The whole of [SetTranslationFromSource] on an item with a slot. *)
Lemma SetTranslationFromSource_value (it : CatalogItem) (first : wxString)
    (others : wxArrayString) :
  m_translations it = first :: others ->
  CatalogItem.SetTranslationFromSource it =
  Some
    (CatalogItem.set_isModified
       ((if Wx.eqb first (m_string it) then m_isModified it else true) ||
        (m_hasPlural it &&
         existsb (fun t => negb (Wx.eqb t (m_plural it))) others))
       (CatalogItem.set_translations
          (m_string it :: (if m_hasPlural it
                           then replicate (length others) (m_plural it)
                           else others))
          (CatalogItem.set_isTranslated true
             (CatalogItem.set_isPreTranslated false
                (CatalogItem.set_isFuzzy false (CatalogItem.ClearIssue it)))))).
Proof.
  intros Hts. unfold CatalogItem.SetTranslationFromSource. simpl. rewrite Hts.
  destruct (Wx.eqb first (m_string it)) eqn:E; simpl.
  - apply wx_eqb_eq in E as ->.
    destruct (m_hasPlural it); [rewrite copy_plural_spec|];
      simpl; rewrite ?orb_false_r; reflexivity.
  - destruct (m_hasPlural it); [rewrite copy_plural_spec|]; reflexivity.
Qed.

(** [SetTranslationFromSource] has no defined result on an item without a
    slot.  On any other item it keeps the number of slots, puts the item's
    own source text in slot 0 and, for a pluralized item, the plural source
    in every further slot (which a non-pluralized item keeps); it drops the
    fuzzy flag; it marks the item modified when a slot changed and leaves
    the modified flag alone when none did; and a second call changes nothing
    more. *)
Theorem SetTranslationFromSource_copies_source (it : CatalogItem) :
  (m_translations it = [] -> CatalogItem.SetTranslationFromSource it = None) /\
  (m_translations it <> [] ->
   exists it',
     CatalogItem.SetTranslationFromSource it = Some it' /\
     CatalogItem.GetNumberOfTranslations it' =
       CatalogItem.GetNumberOfTranslations it /\
     CatalogItem.GetTranslation it' 0 = CatalogItem.GetRawString it /\
     (forall idx, 0 < idx < CatalogItem.GetNumberOfTranslations it ->
        CatalogItem.GetTranslation it' idx =
          if CatalogItem.HasPlural it then m_plural it
          else CatalogItem.GetTranslation it idx) /\
     CatalogItem.IsFuzzy it' = false /\
     (m_translations it' = m_translations it ->
      m_isModified it' = m_isModified it) /\
     (m_translations it' <> m_translations it -> m_isModified it' = true) /\
     CatalogItem.SetTranslationFromSource it' = Some it').
Proof.
  split.
  - intros Hts. unfold CatalogItem.SetTranslationFromSource. simpl.
    now rewrite Hts.
  - intros Hne. destruct (m_translations it) as [|first others] eqn:Hts;
      [congruence|]. clear Hne.
    eexists. split; [apply (SetTranslationFromSource_value it first others Hts)|].
    set (it' := CatalogItem.set_isModified _ _).
    assert (Hslots : m_translations it' =
                     m_string it :: (if m_hasPlural it
                                     then replicate (length others) (m_plural it)
                                     else others)) by reflexivity.
    assert (Hmod : m_isModified it' =
                   (if Wx.eqb first (m_string it) then m_isModified it else true) ||
                   (m_hasPlural it &&
                    existsb (fun t => negb (Wx.eqb t (m_plural it))) others))
      by reflexivity.
    split; [|split; [|split; [|split; [|split; [|split]]]]].
    + unfold CatalogItem.GetNumberOfTranslations. rewrite Hslots, Hts. simpl.
      destruct (m_hasPlural it); [now rewrite length_replicate | reflexivity].
    + rewrite GetTranslation_lookup, Hslots. reflexivity.
    + intros [|idx] Hidx; [lia|].
      unfold CatalogItem.GetNumberOfTranslations in Hidx. rewrite Hts in Hidx.
      simpl in Hidx.
      rewrite !GetTranslation_lookup, Hslots, Hts. unfold CatalogItem.HasPlural.
      destruct (m_hasPlural it); [|reflexivity]. simpl.
      rewrite (lookup_replicate_2 (length others) (m_plural it) idx) by lia.
      reflexivity.
    + reflexivity.
    + rewrite Hslots, Hmod. intros Heq. injection Heq as Hfirst Hothers.
      rewrite <- Hfirst, wx_eqb_refl.
      destruct (m_hasPlural it); simpl; [|now rewrite orb_false_r].
      assert (Ex : existsb (fun t => negb (Wx.eqb t (m_plural it))) others = false)
        by (apply existsb_differs_false; now symmetry).
      now rewrite Ex, orb_false_r.
    + rewrite Hslots, Hmod. intros Hdiff.
      destruct (Wx.eqb first (m_string it)) eqn:E; [|reflexivity].
      apply wx_eqb_eq in E as ->.
      destruct (m_hasPlural it); simpl.
      * destruct (existsb _ others) eqn:Ex; [now rewrite orb_true_r|].
        apply existsb_differs_false in Ex. now rewrite <- Ex in Hdiff.
      * congruence.
    + rewrite (SetTranslationFromSource_value it' (m_string it)
                 (if m_hasPlural it then replicate (length others) (m_plural it)
                  else others) Hslots).
      f_equal. subst it'. cbn. rewrite wx_eqb_refl.
      destruct (m_hasPlural it); cbn.
      * rewrite length_replicate, existsb_replicate_same, !orb_false_r.
        reflexivity.
      * rewrite !orb_false_r. reflexivity.
Qed.

(** ** CatalogItem: the flags string and the fuzzy flag *)

Lemma Replace_rounds_none (fuel : nat) (old new s : wxString) :
  Wx.find old s = None -> Wx.Replace_rounds fuel old new s = s.
Proof. intros H. destruct fuel; simpl; [reflexivity | now rewrite H]. Qed.

Lemma Replace_none (old new s : wxString) :
  Wx.find old s = None -> Wx.Replace old new s = s.
Proof.
  intros H. unfold Wx.Replace. destruct (Wx.empty old); [reflexivity|].
  now apply Replace_rounds_none.
Qed.

(** One occurrence, at the position [find] gives, and none behind it. *)
Lemma Replace_once (old new a b : wxString) :
  old <> [] ->
  Wx.find old (a ++ old ++ b) = Some (length a) ->
  Wx.find old b = None ->
  Wx.Replace old new (a ++ old ++ b) = a ++ new ++ b.
Proof.
  intros Hne Hfind Hb. unfold Wx.Replace.
  destruct old as [|c old]; [congruence|]. cbn [Wx.empty Wx.Replace_rounds].
  rewrite Hfind. rewrite take_app_length.
  rewrite <- drop_drop, drop_app_length, drop_app_length.
  now rewrite Replace_rounds_none.
Qed.

Lemma find_flag_fuzzy_head (rest : wxString) :
  Wx.find CatalogItem.flag_fuzzy (CatalogItem.flag_fuzzy ++ rest) = Some 0.
Proof. reflexivity. Qed.

(** [SetFlags] after [GetFlags] gives the item back, when the flags text
    the item holds names no fuzzy flag of its own. *)
Theorem SetFlags_GetFlags (it : CatalogItem) :
  Wx.find CatalogItem.flag_fuzzy (m_moreFlags it) = None ->
  CatalogItem.SetFlags (CatalogItem.GetFlags it) it = it.
Proof.
  intros Hnone. destruct it as [s p hp ts ec om fz tr md pt fl ln iss sl].
  unfold CatalogItem.SetFlags, CatalogItem.GetFlags.
  cbn [m_isFuzzy m_moreFlags] in *.
  destruct fz.
  - destruct fl as [|c fl]; cbn [Wx.empty].
    + reflexivity.
    + rewrite find_flag_fuzzy_head. cbn [m_moreFlags CatalogItem.set_isFuzzy
        CatalogItem.set_moreFlags].
      unfold CatalogItem.set_moreFlags, CatalogItem.set_isFuzzy. cbn.
      f_equal.
      apply (Replace_once CatalogItem.flag_fuzzy [] [] (c :: fl));
        [discriminate | reflexivity | exact Hnone].
  - rewrite Hnone. reflexivity.
Qed.

Lemma SetFlags_GetFlags_witness :
  Wx.find CatalogItem.flag_fuzzy
    (m_moreFlags (CatalogItem.SetFuzzy true (flagged_item (wxS ", c-format"))))
    = None /\
  CatalogItem.GetFlags
    (CatalogItem.SetFuzzy true (flagged_item (wxS ", c-format")))
    = wxS ", fuzzy, c-format" /\
  CatalogItem.SetFlags
    (CatalogItem.GetFlags
       (CatalogItem.SetFuzzy true (flagged_item (wxS ", c-format"))))
    (CatalogItem.SetFuzzy true (flagged_item (wxS ", c-format")))
  = CatalogItem.SetFuzzy true (flagged_item (wxS ", c-format")).
Proof.
  split; [reflexivity|]. split; [reflexivity|].
  apply (SetFlags_GetFlags
           (CatalogItem.SetFuzzy true (flagged_item (wxS ", c-format")))).
  reflexivity.
Defined.

(** [GetFlags] after [SetFlags]: a flags text without the fuzzy flag comes
    back as it is and the item is not fuzzy; a flags text with one fuzzy
    flag makes the item fuzzy, keeps the text around the flag, and comes
    back with the flag moved to the front. *)
Theorem GetFlags_SetFlags (flags : wxString) (it : CatalogItem) :
  (Wx.find CatalogItem.flag_fuzzy flags = None ->
   CatalogItem.IsFuzzy (CatalogItem.SetFlags flags it) = false /\
   CatalogItem.GetFlags (CatalogItem.SetFlags flags it) = flags) /\
  (forall a b,
     flags = a ++ CatalogItem.flag_fuzzy ++ b ->
     Wx.find CatalogItem.flag_fuzzy flags = Some (length a) ->
     Wx.find CatalogItem.flag_fuzzy b = None ->
     CatalogItem.IsFuzzy (CatalogItem.SetFlags flags it) = true /\
     m_moreFlags (CatalogItem.SetFlags flags it) = a ++ b /\
     CatalogItem.GetFlags (CatalogItem.SetFlags flags it) =
       CatalogItem.flag_fuzzy ++ a ++ b).
Proof.
  split.
  - intros Hnone. unfold CatalogItem.SetFlags, CatalogItem.GetFlags,
      CatalogItem.IsFuzzy. rewrite Hnone. split; reflexivity.
  - intros a b -> Hfind Hb.
    unfold CatalogItem.SetFlags, CatalogItem.GetFlags, CatalogItem.IsFuzzy.
    rewrite Hfind.
    cbn [m_moreFlags m_isFuzzy CatalogItem.set_isFuzzy CatalogItem.set_moreFlags].
    rewrite (Replace_once CatalogItem.flag_fuzzy [] a b);
      [|discriminate | exact Hfind | exact Hb].
    cbn [app]. repeat split.
    destruct (a ++ b); [|reflexivity]. now rewrite app_nil_r.
Qed.

(** The rounds [Replace] is given are enough: more rounds give the same
    text. *)
Lemma find_lt_length (old s : wxString) (pos : nat) :
  old <> [] -> Wx.find old s = Some pos -> pos + length old <= length s.
Proof.
  intros Hne H. apply find_Some in H as [Hocc _]. unfold occurs_at in Hocc.
  apply starts_with_split in Hocc.
  assert (Hlen : length (drop pos s) = length (old ++ drop (length old) (drop pos s)))
    by now rewrite <- Hocc.
  rewrite length_app, !length_drop in Hlen.
  destruct old as [|c old]; [congruence|]. simpl in *. lia.
Qed.

Lemma Replace_rounds_enough (fuel : nat) (old new s : wxString) :
  old <> [] -> length s < fuel ->
  Wx.Replace_rounds fuel old new s = Wx.Replace old new s.
Proof.
  intros Hne. unfold Wx.Replace.
  destruct (Wx.empty old) eqn:E; [apply empty_true_iff in E; congruence|].
  clear E. remember (S (length s)) as fuel2 eqn:Hf2.
  assert (Hlt2 : length s < fuel2) by lia. clear Hf2.
  revert fuel2 s Hlt2. induction fuel as [|fuel IH]; intros fuel2 s Hlt2 Hlt;
    [lia|].
  destruct fuel2 as [|fuel2]; [lia|]. simpl.
  destruct (Wx.find old s) as [pos|] eqn:Hfind; [|reflexivity].
  pose proof (find_lt_length old s pos Hne Hfind) as Hpos.
  assert (Hold : 0 < length old) by (destruct old; [congruence | simpl; lia]).
  do 2 f_equal. apply IH; rewrite length_drop; lia.
Qed.

(** ** CatalogItem: SetFuzzy and the previous msgid *)

Lemma GetOldMsgid_fold (U : wxString -> wxString) (lines : wxArrayString)
    (acc : wxString) :
  fold_left (fun s line => if length line <? 2 then s
                           else s ++ CatalogItem.old_msgid_line U line)
            lines acc =
  acc ++ concat (map (fun line => if length line <? 2 then []
                                  else CatalogItem.old_msgid_line U line) lines).
Proof.
  revert acc. induction lines as [|line lines IH]; intros acc; simpl.
  - now rewrite app_nil_r.
  - rewrite IH. destruct (length line <? 2); [reflexivity|].
    now rewrite <- app_assoc.
Qed.

Lemma Last_app_quote (s : wxString) (c : ascii) :
  Wx.Last (s ++ [c]) = Some c /\ Wx.RemoveLast (s ++ [c]) = s.
Proof.
  unfold Wx.Last, Wx.RemoveLast. split; [apply last_snoc | apply removelast_last].
Qed.

Lemma old_msgid_line_record (U : wxString -> wxString) (r : old_msgid_record) :
  old_msgid_record_plain r ->
  2 <= length (old_msgid_line_of r) /\
  CatalogItem.old_msgid_line U (old_msgid_line_of r) = U (old_msgid_text_of r).
Proof.
  intros Hplain. destruct r as [a|c|b]; cbn [old_msgid_line_of old_msgid_text_of].
  - split; [rewrite !length_app; simpl; lia|].
    unfold CatalogItem.old_msgid_line.
    change (wxS "msgid " ++ ["034"%char] ++ a ++ ["034"%char])
      with ((wxS "msgid " ++ ["034"%char] ++ a) ++ ["034"%char]).
    destruct (Last_app_quote (wxS "msgid " ++ ["034"%char] ++ a) "034"%char)
      as [-> ->].
    rewrite (bool_decide_eq_true_2 (Some "034"%char = Some "034"%char))
      by reflexivity.
    reflexivity.
  - split; [rewrite !length_app; simpl; lia|].
    unfold CatalogItem.old_msgid_line.
    change (wxS "msgid_plural " ++ ["034"%char] ++ c ++ ["034"%char])
      with ((wxS "msgid_plural " ++ ["034"%char] ++ c) ++ ["034"%char]).
    destruct (Last_app_quote (wxS "msgid_plural " ++ ["034"%char] ++ c) "034"%char)
      as [-> ->].
    rewrite (bool_decide_eq_true_2 (Some "034"%char = Some "034"%char))
      by reflexivity.
    reflexivity.
  - destruct Hplain as [Hs Hp].
    split; [rewrite !length_app; simpl; lia|].
    unfold CatalogItem.old_msgid_line.
    change (["034"%char] ++ b ++ ["034"%char])
      with (("034"%char :: b) ++ ["034"%char]).
    destruct (Last_app_quote ("034"%char :: b) "034"%char) as [-> ->].
    rewrite !(bool_decide_eq_true_2 (Some "034"%char = Some "034"%char))
      by reflexivity.
    change (drop 1 ("034"%char :: b)) with b. now rewrite Hs, Hp.
Qed.

(** [GetOldMsgid] reads the previous msgid from its lines: of a [msgid]
    line, a [msgid_plural] line and continuation lines it takes the quoted
    texts, unescapes each of them and joins them, the plural after a line
    feed; an item without such lines has the empty text. *)
Theorem GetOldMsgid_reads_records (U : wxString -> wxString)
    (rs : list old_msgid_record) (it : CatalogItem) :
  Forall old_msgid_record_plain rs ->
  m_oldMsgid it = map old_msgid_line_of rs ->
  CatalogItem.GetOldMsgid U it = concat (map (fun r => U (old_msgid_text_of r)) rs).
Proof.
  intros Hplain Hlines. unfold CatalogItem.GetOldMsgid.
  rewrite GetOldMsgid_fold, Hlines. cbn [app]. clear Hlines. f_equal.
  rewrite map_map. induction Hplain as [|r rs Hr _ IH]; [reflexivity|].
  cbn [map]. rewrite IH. f_equal.
  destruct (old_msgid_line_record U r Hr) as [Hlen ->].
  destruct (Nat.ltb_spec (length (old_msgid_line_of r)) 2); [lia | reflexivity].
Qed.

Lemma GetOldMsgid_reads_records_witness :
  let rs := [old_msgid (wxS "Open "); old_continued (wxS "file");
             old_msgid_plural (wxS "Open files")] in
  let it := CatalogItem.set_oldMsgid (map old_msgid_line_of rs)
              (plain_item (wxS "Open a file") (Some (wxS "Open files")) [[]; []]) in
  Forall old_msgid_record_plain rs /\
  m_oldMsgid it = map old_msgid_line_of rs /\
  CatalogItem.GetOldMsgid (fun s => s) it =
    wxS "Open file" ++ ["010"%char] ++ wxS "Open files".
Proof.
  split; [repeat constructor|]. split; [reflexivity|].
  apply (GetOldMsgid_reads_records (fun s => s)
           [old_msgid (wxS "Open "); old_continued (wxS "file");
            old_msgid_plural (wxS "Open files")]);
    [repeat constructor | reflexivity].
Defined.

(** [SetFuzzy] sets the fuzzy flag and touches nothing else but the
    previous msgid, which it forgets exactly when it takes the flag off a
    fuzzy item ([GetOldMsgid] is empty from then on); in particular it does
    not mark the item modified.  [SetFlags], which also sets the fuzzy flag,
    never forgets the previous msgid. *)
Theorem SetFuzzy_forgets_old_msgid (U : wxString -> wxString) (fuzzy : bool)
    (it : CatalogItem) :
  CatalogItem.IsFuzzy (CatalogItem.SetFuzzy fuzzy it) = fuzzy /\
  m_oldMsgid (CatalogItem.SetFuzzy fuzzy it) =
    (if negb fuzzy && CatalogItem.IsFuzzy it then [] else m_oldMsgid it) /\
  (fuzzy = false -> CatalogItem.IsFuzzy it = true ->
   CatalogItem.GetOldMsgid U (CatalogItem.SetFuzzy fuzzy it) = []) /\
  CatalogItem.set_oldMsgid (m_oldMsgid it)
    (CatalogItem.set_isFuzzy (m_isFuzzy it) (CatalogItem.SetFuzzy fuzzy it)) = it /\
  (forall flags, m_oldMsgid (CatalogItem.SetFlags flags it) = m_oldMsgid it).
Proof.
  destruct it as [s p hp ts ec om fz tr md pt fl ln iss sl].
  unfold CatalogItem.SetFuzzy, CatalogItem.IsFuzzy. cbn [m_isFuzzy].
  repeat split.
  - destruct (negb fuzzy && fz); reflexivity.
  - intros -> ->. reflexivity.
  - destruct (negb fuzzy && fz); reflexivity.
  - intros flags. unfold CatalogItem.SetFlags.
    destruct (Wx.find _ flags); reflexivity.
Qed.

(** ** Catalog: symbolic IDs, statistics, plural forms *)

Lemma DetectUseOfSymbolicIDs_loop_spec (items : list CatalogItem) :
  Catalog.DetectUseOfSymbolicIDs_loop items = true <->
  forall i c, i ∈ items -> c ∈ CatalogItem.GetRawString i ->
              c <> " "%char /\ (N_of_ascii c < 128)%N.
Proof.
  induction items as [|i items IH]; simpl.
  - split; [|reflexivity]. intros _ i c Hi. now apply elem_of_nil in Hi.
  - destruct (existsb _ (CatalogItem.GetRawString i)) eqn:E.
    + split; [discriminate|]. intros H. exfalso.
      apply existsb_exists in E as (c & Hc & Hbad).
      apply list_elem_of_In in Hc.
      destruct (H i c (list_elem_of_here _ _) Hc) as [Hsp Hlt].
      apply orb_true_iff in Hbad as [Hbad|Hbad].
      * apply Ascii.eqb_eq in Hbad. congruence.
      * apply N.leb_le in Hbad. lia.
    + rewrite IH. split.
      * intros H j c Hj Hc. apply elem_of_cons in Hj as [->|Hj]; [|eauto].
        assert (Hgood : (Ascii.eqb c " "%char || (128 <=? N_of_ascii c)%N) = false).
        { destruct (Ascii.eqb c " "%char || (128 <=? N_of_ascii c)%N) eqn:Hb;
            [|reflexivity].
          assert (Hex : existsb (fun c => Ascii.eqb c " "%char ||
                                          (128 <=? N_of_ascii c)%N)
                                (CatalogItem.GetRawString i) = true)
            by (apply existsb_exists; exists c; split;
                [now apply list_elem_of_In | exact Hb]).
          congruence. }
        apply orb_false_iff in Hgood as [Hsp Hlt]. split.
        -- intros ->. now rewrite Ascii.eqb_refl in Hsp.
        -- apply N.leb_gt in Hlt. exact Hlt.
      * intros H j c Hj. apply H. now apply list_elem_of_further.
Qed.

(** [DetectUseOfSymbolicIDs] answers yes exactly when no raw source string
    of the catalog holds a space or a character outside ASCII; so it does
    for a catalog without items and for one whose sources are all empty. *)
Theorem DetectUseOfSymbolicIDs_no_space_ascii `{Ext : Externals} (cat : Catalog) :
  (Catalog.DetectUseOfSymbolicIDs cat = true <->
   forall i c, i ∈ Catalog.m_items cat -> c ∈ CatalogItem.GetRawString i ->
               c <> " "%char /\ (N_of_ascii c < 128)%N) /\
  ((forall i, i ∈ Catalog.m_items cat -> CatalogItem.GetRawString i = []) ->
   Catalog.DetectUseOfSymbolicIDs cat = true).
Proof.
  split; [apply DetectUseOfSymbolicIDs_loop_spec|].
  intros Hempty. apply DetectUseOfSymbolicIDs_loop_spec.
  intros i c Hi Hc. rewrite (Hempty i Hi) in Hc. now apply elem_of_nil in Hc.
Qed.

(** The loop of [GetStatistics] adds to each counter the number of items it
    counts. *)
Lemma GetStatistics_loop_spec (HasError : CatalogItem -> bool)
    (items : list CatalogItem) (st : Catalog.Statistics) :
  Catalog.GetStatistics_loop HasError items st =
  {| Catalog.stat_all := Catalog.stat_all st + Z.of_nat (length items);
     Catalog.stat_fuzzy :=
       Catalog.stat_fuzzy st +
       Z.of_nat (length (filter (fun i => CatalogItem.IsFuzzy i = true) items));
     Catalog.stat_badtokens :=
       Catalog.stat_badtokens st +
       Z.of_nat (length (filter (fun i => HasError i = true) items));
     Catalog.stat_untranslated :=
       Catalog.stat_untranslated st +
       Z.of_nat (length (filter (fun i => CatalogItem.IsTranslated i = false) items));
     Catalog.stat_unfinished :=
       Catalog.stat_unfinished st +
       Z.of_nat (length (filter (fun i => CatalogItem.IsFuzzy i = true \/
                                          HasError i = true \/
                                          CatalogItem.IsTranslated i = false)
                                items)) |}%Z.
Proof.
  revert st. induction items as [|i items IH]; intros st.
  - destruct st. simpl. f_equal; lia.
  - cbn [Catalog.GetStatistics_loop].
    rewrite !filter_cons.
    destruct (CatalogItem.IsFuzzy i) eqn:Hf, (HasError i) eqn:He,
             (CatalogItem.IsTranslated i) eqn:Ht;
      cbn [negb]; rewrite IH; cbn [Catalog.stat_all Catalog.stat_fuzzy
        Catalog.stat_badtokens Catalog.stat_untranslated Catalog.stat_unfinished];
      repeat (destruct (decide _) as [?|?]; try congruence; try tauto);
      cbn [length]; f_equal; lia.
Qed.

Lemma filter_length_le {A : Type} (P Q : A -> Prop)
    `{forall a, Decision (P a)} `{forall a, Decision (Q a)} (l : list A) :
  (forall a, P a -> Q a) -> length (filter P l) <= length (filter Q l).
Proof.
  intros HPQ. induction l as [|a l IH]; [reflexivity|].
  rewrite !filter_cons.
  destruct (decide (P a)) as [Hp|Hp], (decide (Q a)) as [Hq|Hq]; simpl;
    try lia. exfalso. auto.
Qed.

Lemma filter_length_or3 {A : Type} (P Q R : A -> Prop)
    `{forall a, Decision (P a)} `{forall a, Decision (Q a)}
    `{forall a, Decision (R a)} (l : list A) :
  length (filter (fun a => P a \/ Q a \/ R a) l) <=
  length (filter P l) + length (filter Q l) + length (filter R l).
Proof.
  induction l as [|a l IH]; [reflexivity|].
  rewrite !filter_cons.
  destruct (decide (P a \/ Q a \/ R a)) as [Hor|Hor],
           (decide (P a)), (decide (Q a)), (decide (R a)); simpl; try lia;
    exfalso; tauto.
Qed.

(** [GetStatistics] counts every item, the fuzzy ones, the ones with an
    error and the ones not translated; an item is unfinished when it is
    counted by one of the three at least, so the count of unfinished items
    is at least each of the three counts, at most their sum and at most the
    number of items. *)
Theorem GetStatistics_counts `{Ext : Externals} (HasError : CatalogItem -> bool)
    (cat : Catalog) :
  let st := Catalog.GetStatistics HasError cat in
  Catalog.stat_all st = Z.of_nat (length (Catalog.m_items cat)) /\
  Catalog.stat_fuzzy st =
    Z.of_nat (length (filter (fun i => CatalogItem.IsFuzzy i = true)
                             (Catalog.m_items cat))) /\
  Catalog.stat_badtokens st =
    Z.of_nat (length (filter (fun i => HasError i = true) (Catalog.m_items cat))) /\
  Catalog.stat_untranslated st =
    Z.of_nat (length (filter (fun i => CatalogItem.IsTranslated i = false)
                             (Catalog.m_items cat))) /\
  Catalog.stat_unfinished st =
    Z.of_nat (length (filter (fun i => CatalogItem.IsFuzzy i = true \/
                                       HasError i = true \/
                                       CatalogItem.IsTranslated i = false)
                             (Catalog.m_items cat))) /\
  (Catalog.stat_fuzzy st <= Catalog.stat_unfinished st)%Z /\
  (Catalog.stat_badtokens st <= Catalog.stat_unfinished st)%Z /\
  (Catalog.stat_untranslated st <= Catalog.stat_unfinished st)%Z /\
  (Catalog.stat_unfinished st <=
   Catalog.stat_fuzzy st + Catalog.stat_badtokens st +
   Catalog.stat_untranslated st)%Z /\
  (Catalog.stat_unfinished st <= Catalog.stat_all st)%Z.
Proof.
  cbv zeta. unfold Catalog.GetStatistics. rewrite GetStatistics_loop_spec.
  cbn [Catalog.stat_all Catalog.stat_fuzzy Catalog.stat_badtokens
       Catalog.stat_untranslated Catalog.stat_unfinished].
  set (items := Catalog.m_items cat).
  assert (H1 : length (filter (fun i => CatalogItem.IsFuzzy i = true) items) <=
               length (filter (fun i => CatalogItem.IsFuzzy i = true \/
                                        HasError i = true \/
                                        CatalogItem.IsTranslated i = false) items))
    by (apply filter_length_le; intros a Ha; now left).
  assert (H2 : length (filter (fun i => HasError i = true) items) <=
               length (filter (fun i => CatalogItem.IsFuzzy i = true \/
                                        HasError i = true \/
                                        CatalogItem.IsTranslated i = false) items))
    by (apply filter_length_le; intros a Ha; right; now left).
  assert (H3 : length (filter (fun i => CatalogItem.IsTranslated i = false) items) <=
               length (filter (fun i => CatalogItem.IsFuzzy i = true \/
                                        HasError i = true \/
                                        CatalogItem.IsTranslated i = false) items))
    by (apply filter_length_le; intros a Ha; right; now right).
  pose proof (filter_length_or3 (fun i => CatalogItem.IsFuzzy i = true)
                (fun i => HasError i = true)
                (fun i => CatalogItem.IsTranslated i = false) items) as H4.
  pose proof (length_filter (fun i => CatalogItem.IsFuzzy i = true \/
                                      HasError i = true \/
                                      CatalogItem.IsTranslated i = false)
                            items) as H5.
  repeat split; lia.
Qed.

Lemma fold_left_max_spec {A : Type} (f : A -> nat) (l : list A) (n : nat) :
  let m := fold_left (fun count i => Nat.max count (f i)) l n in
  n <= m /\ (forall i, i ∈ l -> f i <= m) /\
  (m = n \/ exists i, i ∈ l /\ f i = m).
Proof.
  revert n. induction l as [|a l IH]; intros n; cbn [fold_left].
  - cbv zeta. split; [lia|]. split; [|now left].
    intros i Hi. now apply elem_of_nil in Hi.
  - specialize (IH (Nat.max n (f a))). cbv zeta in *.
    destruct IH as (Hle & Hall & Hatt). split; [lia|]. split.
    + intros i Hi. apply elem_of_cons in Hi as [->|Hi]; [lia | auto].
    + destruct Hatt as [Heq|(i & Hi & Hfi)].
      * destruct (Nat.max_spec n (f a)) as [[? Hm]|[? Hm]]; rewrite Hm in Heq.
        -- right. exists a. split; [apply list_elem_of_here | congruence].
        -- left. congruence.
      * right. exists i. split; [now apply list_elem_of_further | exact Hfi].
Qed.

(** [Catalog::GetPluralFormsCount] is the largest plural-forms count of an
    item: no item has more, and unless the count is 0 (as it is for a
    catalog without items) some item has exactly that many. *)
Theorem GetPluralFormsCount_is_maximum `{Ext : Externals} (cat : Catalog) :
  (forall i, i ∈ Catalog.m_items cat ->
     CatalogItem.GetPluralFormsCount i <= Catalog.GetPluralFormsCount cat) /\
  (Catalog.GetPluralFormsCount cat = 0 \/
   exists i, i ∈ Catalog.m_items cat /\
             CatalogItem.GetPluralFormsCount i = Catalog.GetPluralFormsCount cat) /\
  (Catalog.m_items cat = [] -> Catalog.GetPluralFormsCount cat = 0).
Proof.
  unfold Catalog.GetPluralFormsCount.
  destruct (fold_left_max_spec CatalogItem.GetPluralFormsCount
              (Catalog.m_items cat) 0) as (_ & Hall & Hatt).
  split; [exact Hall|]. split; [exact Hatt|].
  intros ->. reflexivity.
Qed.

(** ** Catalog: finding an item by its own line *)

(** In a catalog whose line numbers increase from item to item, looking up
    the line number of an item finds that item. *)
Theorem FindItemByLine_own_line `{Ext : Externals} (cat : Catalog) (k : nat)
    (a : CatalogItem) :
  (forall j l x y, j < l -> Catalog.m_items cat !! j = Some x ->
     Catalog.m_items cat !! l = Some y ->
     (CatalogItem.GetLineNumber x < CatalogItem.GetLineNumber y)%Z) ->
  Catalog.m_items cat !! k = Some a ->
  Catalog.FindItemIndexByLine cat (CatalogItem.GetLineNumber a) = Z.of_nat k /\
  Catalog.FindItemByLine cat (CatalogItem.GetLineNumber a) = Some a.
Proof.
  intros Hstrict Hk.
  assert (Hidx : Catalog.FindItemIndexByLine cat (CatalogItem.GetLineNumber a)
                 = Z.of_nat k).
  { unfold Catalog.FindItemIndexByLine.
    destruct (FindItemIndexByLine_loop_spec (Catalog.m_items cat)
                (CatalogItem.GetLineNumber a) (-1))
      as (m & -> & Hm & Hbefore & Hat).
    assert (Hklt : k < length (Catalog.m_items cat))
      by (apply lookup_lt_is_Some; eauto).
    assert (m = S k); [|lia].
    destruct (Nat.lt_trichotomy m (S k)) as [Hlt|[Heq|Hgt]]; [|exact Heq|].
    - exfalso.
      destruct (lookup_lt_is_Some_2 (Catalog.m_items cat) m ltac:(lia)) as [y Hy].
      specialize (Hat y Hy).
      destruct (decide (m = k)) as [->|Hne].
      + rewrite Hk in Hy. injection Hy as <-. lia.
      + specialize (Hstrict m k y a ltac:(lia) Hy Hk). lia.
    - exfalso.
      destruct (lookup_lt_is_Some_2 (Catalog.m_items cat) (S k) ltac:(lia))
        as [y Hy].
      specialize (Hbefore (S k) y Hgt Hy).
      specialize (Hstrict k (S k) a y ltac:(lia) Hk Hy). lia. }
  split; [exact Hidx|].
  unfold Catalog.FindItemByLine. rewrite Hidx.
  destruct (Z.eqb_spec (Z.of_nat k) (-1)); [lia|].
  now rewrite Nat2Z.id.
Qed.

Lemma FindItemByLine_own_line_witness :
  let cat := @catalog_of sample_Externals
               [item_at_line (wxS "a") [[]] 3; item_at_line (wxS "b") [[]] 7;
                item_at_line (wxS "c") [[]] 12] in
  Catalog.m_items cat !! 1 = Some (item_at_line (wxS "b") [[]] 7) /\
  Catalog.FindItemIndexByLine cat 7 = 1%Z /\
  Catalog.FindItemByLine cat 7 = Some (item_at_line (wxS "b") [[]] 7).
Proof.
  split; [reflexivity|].
  apply (FindItemByLine_own_line
           (@catalog_of sample_Externals
              [item_at_line (wxS "a") [[]] 3; item_at_line (wxS "b") [[]] 7;
               item_at_line (wxS "c") [[]] 12]) 1
           (item_at_line (wxS "b") [[]] 7)); [|reflexivity].
  intros j l x y Hjl Hx Hy.
  destruct j as [|[|[|j]]], l as [|[|[|l]]]; simpl in Hx, Hy;
    try discriminate; try lia;
    injection Hx as <-; injection Hy as <-; vm_compute; reflexivity.
Defined.

(** ** Catalog: RemoveSameAsSourceTranslations run again *)

Lemma ClearTranslation_twice (i : CatalogItem) :
  CatalogItem.ClearTranslation (CatalogItem.ClearTranslation i) =
  CatalogItem.ClearTranslation i.
Proof.
  unfold CatalogItem.ClearTranslation. simpl.
  rewrite !clear_slots_spec. simpl.
  rewrite length_replicate, existsb_replicate_empty, orb_false_r.
  reflexivity.
Qed.

Lemma prune_item_twice (count : nat) (i : CatalogItem) :
  prune_item count (prune_item count i) = prune_item count i.
Proof.
  destruct (decide (same_as_source count i)) as [Hs|Hs].
  - assert (E : prune_item count i = CatalogItem.ClearTranslation i)
      by (unfold prune_item; now destruct (decide _)).
    rewrite E. unfold prune_item.
    destruct (decide _); [apply ClearTranslation_twice | reflexivity].
  - assert (E : prune_item count i = i)
      by (unfold prune_item; now destruct (decide _)).
    rewrite E. exact E.
Qed.

(** [RemoveSameAsSourceTranslations] reports no change only when it has
    left the catalog as it was, and running it again on its result leaves
    that result as it is. *)
Theorem RemoveSameAsSourceTranslations_again `{Ext : Externals} (cat : Catalog) :
  (snd (Catalog.RemoveSameAsSourceTranslations cat) = false ->
   fst (Catalog.RemoveSameAsSourceTranslations cat) = cat) /\
  fst (Catalog.RemoveSameAsSourceTranslations
         (fst (Catalog.RemoveSameAsSourceTranslations cat))) =
  fst (Catalog.RemoveSameAsSourceTranslations cat).
Proof.
  rewrite !RemoveSameAsSourceTranslations_spec. cbn [fst snd]. split.
  - intros Hnone.
    assert (Hmap : map (prune_item (Catalog.GetPluralFormsCount cat))
                       (Catalog.m_items cat) = Catalog.m_items cat);
      [|rewrite Hmap; apply set_items_same].
    rewrite <- (map_id (Catalog.m_items cat)) at 2.
    apply map_ext_in. intros i Hi. unfold prune_item.
    destruct (decide _) as [Hs|]; [|reflexivity]. exfalso.
    assert (Hex : existsb (fun i => bool_decide
                     (same_as_source (Catalog.GetPluralFormsCount cat) i))
                     (Catalog.m_items cat) = true)
      by (apply existsb_exists; exists i; split;
          [exact Hi | now apply bool_decide_eq_true]).
    congruence.
  - cbn [Catalog.m_items Catalog.set_items].
    rewrite (GetPluralFormsCount_ext
               (Catalog.set_items
                  (map (prune_item (Catalog.GetPluralFormsCount cat))
                       (Catalog.m_items cat)) cat) cat).
    + rewrite set_items_twice. f_equal. rewrite map_map.
      apply map_ext. intros i. apply prune_item_twice.
    + cbn [Catalog.m_items Catalog.set_items]. rewrite map_map.
      apply map_ext. intros i. apply prune_item_GetPluralFormsCount.
Qed.

(** ** Catalog: sideloading undone and repeated *)

Lemma ClearSideloadedData_sideload_item (refItems : gmap wxString CatalogItem)
    (i : CatalogItem) :
  CatalogItem.ClearSideloadedData (Catalog.sideload_item refItems i) =
  CatalogItem.ClearSideloadedData i.
Proof.
  unfold Catalog.sideload_item.
  destruct (refItems !! CatalogItem.GetRawString i) as [rdata|];
    [destruct (Wx.empty _)|]; reflexivity.
Qed.

Lemma sideload_item_twice (refItems : gmap wxString CatalogItem) (i : CatalogItem) :
  Catalog.sideload_item refItems (Catalog.sideload_item refItems i) =
  Catalog.sideload_item refItems i.
Proof.
  unfold Catalog.sideload_item at 2.
  destruct (refItems !! CatalogItem.GetRawString i) as [rdata|] eqn:E.
  - destruct (Wx.empty (CatalogItem.GetTranslation rdata 0)) eqn:Et.
    + unfold Catalog.sideload_item. now rewrite E, Et.
    + unfold Catalog.sideload_item.
      cbn [CatalogItem.GetRawString CatalogItem.AttachSideloadedData
           CatalogItem.set_sideloaded m_string].
      change (m_string i) with (CatalogItem.GetRawString i).
      now rewrite E, Et.
  - unfold Catalog.sideload_item. now rewrite E.
Qed.

(** [ClearSideloadedSourceData] undoes [SideloadSourceDataFromReferenceFile]:
    after both the catalog is as [ClearSideloadedSourceData] alone leaves it,
    which for a catalog that carried no sideloaded data is the catalog
    itself.  Sideloading the same reference a second time changes nothing
    more. *)
Theorem Sideload_then_clear `{Ext : Externals} (ref cat : Catalog) :
  Catalog.ClearSideloadedSourceData
    (Catalog.SideloadSourceDataFromReferenceFile ref cat) =
  Catalog.ClearSideloadedSourceData cat /\
  (Catalog.m_sideloaded cat = None ->
   (forall i, i ∈ Catalog.m_items cat -> m_sideloaded i = None) ->
   Catalog.ClearSideloadedSourceData
     (Catalog.SideloadSourceDataFromReferenceFile ref cat) = cat) /\
  Catalog.SideloadSourceDataFromReferenceFile ref
    (Catalog.SideloadSourceDataFromReferenceFile ref cat) =
  Catalog.SideloadSourceDataFromReferenceFile ref cat.
Proof.
  assert (Hclear : Catalog.ClearSideloadedSourceData
                     (Catalog.SideloadSourceDataFromReferenceFile ref cat) =
                   Catalog.ClearSideloadedSourceData cat).
  { unfold Catalog.ClearSideloadedSourceData,
      Catalog.SideloadSourceDataFromReferenceFile, Catalog.items,
      Catalog.set_items, Catalog.set_sideloaded.
    cbn [Catalog.m_items Catalog.m_fileType Catalog.m_header
         Catalog.m_fileName Catalog.m_sideloaded].
    f_equal. rewrite map_map. apply map_ext. intros i.
    apply ClearSideloadedData_sideload_item. }
  split; [exact Hclear|]. split.
  - intros Hnone Hitems. rewrite Hclear.
    unfold Catalog.ClearSideloadedSourceData, Catalog.items.
    clear Hclear. destruct cat as [ft hd its fn sl]. cbn in *. subst sl.
    unfold Catalog.set_items, Catalog.set_sideloaded. cbn. f_equal.
    assert (Hmap : map CatalogItem.ClearSideloadedData its = map (fun x => x) its);
      [|now rewrite Hmap, map_id].
    apply map_ext_in. intros i Hi.
    apply list_elem_of_In in Hi. specialize (Hitems i Hi).
    destruct i. cbn in *. now subst.
  - unfold Catalog.SideloadSourceDataFromReferenceFile, Catalog.items,
      Catalog.set_items, Catalog.set_sideloaded.
    cbn [Catalog.m_items Catalog.m_fileType Catalog.m_header
         Catalog.m_fileName Catalog.m_sideloaded].
    f_equal. rewrite map_map. apply map_ext. intros i.
    apply sideload_item_twice.
Qed.

(** ** HeaderData: the laws of the key/value store *)

Lemma first_value_None_keys (key : wxString) (es : Entries) :
  first_value key es = None <-> key ∉ map Key es.
Proof.
  induction es as [|e es IH]; simpl.
  - split; [intros _; apply not_elem_of_nil | reflexivity].
  - destruct (decide (Key e = key)) as [<-|Hne].
    + split; [discriminate|]. intros H. exfalso. apply H, list_elem_of_here.
    + rewrite IH, not_elem_of_cons. split; [intros H; split; congruence | tauto].
Qed.

Section StoreLaws.
Context `{Ext : Externals}.

(** The entries [set_entry] gives: the first entry with the key gets the
    value, every other entry stays as it is; without such an entry a new one
    goes to the end. *)
Lemma set_entry_first (key value : wxString) (es : Entries) :
  (key ∈ map Key es ->
   exists pre e post,
     es = pre ++ e :: post /\ Key e = key /\ (key ∉ map Key pre) /\
     set_entry key value es = pre ++ {| Key := key; Value := value |} :: post) /\
  ((key ∉ map Key es) ->
   set_entry key value es = es ++ [{| Key := key; Value := value |}]).
Proof.
  induction es as [|e es [IHin IHout]]; simpl.
  - split; [intros Hin; now apply elem_of_nil in Hin | reflexivity].
  - destruct (decide (Key e = key)) as [Heq|Hne].
    + split.
      * intros _. exists [], e, es. rewrite Heq.
        repeat split; [apply not_elem_of_nil].
      * intros Hn. exfalso. apply Hn. rewrite Heq. apply list_elem_of_here.
    + split.
      * intros Hin. apply elem_of_cons in Hin as [Hk|Hin]; [congruence|].
        destruct (IHin Hin) as (pre & e' & post & -> & Hk & Hpre & ->).
        exists (e :: pre), e', post. repeat split; [exact Hk|].
        simpl. apply not_elem_of_cons. split; [congruence | exact Hpre].
      * intros Hn. apply not_elem_of_cons in Hn as [_ Hn].
        now rewrite (IHout Hn).
Qed.

(** [SetHeader] then [GetHeader]: the key written reads as the value
    written and is present; every other key reads and is present as before;
    when the key is there, the first entry with the key gets the value and
    every other entry (a later one with the same key too) stays as it is, in
    its place; when it is not, a new entry goes to the end; no first-class
    field changes. *)
Theorem SetHeader_GetHeader (key value : wxString) (h : HeaderData) :
  GetHeader (SetHeader key value h) key = value /\
  HasHeader (SetHeader key value h) key = true /\
  (forall key', key' <> key ->
     GetHeader (SetHeader key value h) key' = GetHeader h key' /\
     HasHeader (SetHeader key value h) key' = HasHeader h key') /\
  map Key (m_entries (SetHeader key value h)) =
    (if HasHeader h key then map Key (m_entries h)
     else map Key (m_entries h) ++ [key]) /\
  (HasHeader h key = true ->
   exists pre e post,
     m_entries h = pre ++ e :: post /\ Key e = key /\ (key ∉ map Key pre) /\
     m_entries (SetHeader key value h) =
       pre ++ {| Key := key; Value := value |} :: post) /\
  (HasHeader h key = false ->
   m_entries (SetHeader key value h) =
     m_entries h ++ [{| Key := key; Value := value |}]) /\
  same_fields (SetHeader key value h) h.
Proof.
  assert (Hhas : HasHeader h key = bool_decide (key ∈ map Key (m_entries h))).
  { rewrite HasHeader_first_value.
    destruct (decide (key ∈ map Key (m_entries h))) as [Hin|Hnin].
    - rewrite (bool_decide_eq_true_2 (key ∈ _)) by exact Hin.
      apply bool_decide_eq_true_2.
      destruct (first_value key (m_entries h)) eqn:E; [eauto|].
      now apply first_value_None_keys in E.
    - rewrite (bool_decide_eq_false_2 (key ∈ _)) by exact Hnin.
      apply first_value_None_keys in Hnin. now rewrite Hnin. }
  destruct (set_entry_first key value (m_entries h)) as [Hin Hout].
  split; [|split; [|split; [|split; [|split; [|split]]]]].
  - now rewrite GetHeader_first_value, first_value_SetHeader_eq.
  - now rewrite HasHeader_first_value, first_value_SetHeader_eq.
  - intros key' Hne.
    rewrite !GetHeader_first_value, !HasHeader_first_value.
    now rewrite first_value_SetHeader_ne.
  - rewrite SetHeader_entries, set_entry_keys, Hhas.
    destruct (decide (key ∈ map Key (m_entries h))) as [Hk|Hk].
    + now rewrite bool_decide_eq_true_2.
    + now rewrite bool_decide_eq_false_2.
  - rewrite Hhas, SetHeader_entries. intros Hk.
    apply bool_decide_eq_true in Hk. exact (Hin Hk).
  - rewrite Hhas, SetHeader_entries. intros Hk.
    apply bool_decide_eq_false in Hk. exact (Hout Hk).
  - rewrite SetHeader_same_but_entries. unfold same_fields. tauto.
Qed.

(** [DeleteHeader] removes every entry with the key and keeps the others in
    their order: the key is absent afterwards and reads as the empty text,
    every other key reads and is present as before. *)
Theorem DeleteHeader_GetHeader (key : wxString) (h : HeaderData) :
  m_entries (DeleteHeader key h) =
    filter (fun e => Key e <> key) (m_entries h) /\
  (key ∉ map Key (m_entries (DeleteHeader key h))) /\
  HasHeader (DeleteHeader key h) key = false /\
  GetHeader (DeleteHeader key h) key = wxEmptyString /\
  (forall key', key' <> key ->
     GetHeader (DeleteHeader key h) key' = GetHeader h key' /\
     HasHeader (DeleteHeader key h) key' = HasHeader h key') /\
  same_fields (DeleteHeader key h) h.
Proof.
  split; [apply DeleteHeader_entries|]. split; [|split; [|split; [|split]]].
  - apply first_value_None_keys, first_value_DeleteHeader_eq.
  - now rewrite HasHeader_first_value, first_value_DeleteHeader_eq.
  - now rewrite GetHeader_first_value, first_value_DeleteHeader_eq.
  - intros key' Hne.
    rewrite !GetHeader_first_value, !HasHeader_first_value.
    now rewrite first_value_DeleteHeader_ne.
  - rewrite DeleteHeader_same_but_entries. unfold same_fields. tauto.
Qed.

(** [SetHeaderNotEmpty] then [GetHeader] gives the value back whatever it
    is, the key being present afterwards exactly when the value is not
    empty; every other key reads and is present as before. *)
Theorem SetHeaderNotEmpty_GetHeader (key value : wxString) (h : HeaderData) :
  GetHeader (SetHeaderNotEmpty key value h) key = value /\
  HasHeader (SetHeaderNotEmpty key value h) key = negb (Wx.empty value) /\
  (forall key', key' <> key ->
     GetHeader (SetHeaderNotEmpty key value h) key' = GetHeader h key' /\
     HasHeader (SetHeaderNotEmpty key value h) key' = HasHeader h key').
Proof.
  split; [|split].
  - rewrite GetHeader_first_value, first_value_SetHeaderNotEmpty_eq.
    apply default_not_empty.
  - rewrite HasHeader_first_value, first_value_SetHeaderNotEmpty_eq.
    now destruct value.
  - intros key' Hne.
    rewrite !GetHeader_first_value, !HasHeader_first_value.
    now rewrite first_value_SetHeaderNotEmpty_ne.
Qed.

End StoreLaws.

(** ** HeaderData: NormalizeHeaderOrder *)

Lemma stable_sort_sorted_id {A : Type} (rank : A -> Z) (l : list A) :
  StronglySorted (fun a b => (rank a <= rank b)%Z) l ->
  stable_sort (fun a b => (rank a <? rank b)%Z) l = l.
Proof.
  induction 1 as [|x l Hl IH Hx]; simpl; [reflexivity|].
  rewrite IH. destruct l as [|y l]; simpl; [reflexivity|].
  inversion Hx as [|? ? Hxy _]; subst.
  destruct (Z.ltb_spec (rank y) (rank x)); [lia | reflexivity].
Qed.

(** [NormalizeHeaderOrder] only reorders: the entries after it are a
    permutation of the entries before, every key reads and is present as
    before, no first-class field changes, and normalising a second time
    changes nothing more. *)
Theorem NormalizeHeaderOrder_reorders `{Ext : Externals} (h : HeaderData) :
  Permutation (m_entries (NormalizeHeaderOrder h)) (m_entries h) /\
  (forall key,
     GetHeader (NormalizeHeaderOrder h) key = GetHeader h key /\
     HasHeader (NormalizeHeaderOrder h) key = HasHeader h key) /\
  same_fields (NormalizeHeaderOrder h) h /\
  NormalizeHeaderOrder (NormalizeHeaderOrder h) = NormalizeHeaderOrder h.
Proof.
  split; [|split; [|split]].
  - apply (stable_sort_Permutation (fun e => canonical_rank (Key e))).
  - intros key. rewrite !GetHeader_first_value, !HasHeader_first_value.
    now rewrite NormalizeHeaderOrder_first_value.
  - unfold same_fields, NormalizeHeaderOrder. cbn. tauto.
  - unfold NormalizeHeaderOrder at 1. unfold set_entries.
    pose proof (NormalizeHeaderOrder_sorted h) as Hs.
    change (stable_sort header_order_less (m_entries (NormalizeHeaderOrder h)))
      with (stable_sort (fun a b => (canonical_rank (Key a) <?
                                     canonical_rank (Key b))%Z)
              (m_entries (NormalizeHeaderOrder h))).
    rewrite (stable_sort_sorted_id (fun e => canonical_rank (Key e))
               (m_entries (NormalizeHeaderOrder h)) Hs).
    now destruct (NormalizeHeaderOrder h).
Qed.

(** ** HeaderData: what UpdateDict writes, whatever the entries were *)

Section UpdateDictWrites.
Context `{Ext : Externals}.
Variable h : HeaderData.

Lemma UpdateDict_reads_MIME_Version :
  first_value (wxS "MIME-Version") (m_entries (UpdateDict h)) = Some (wxS "1.0").
Proof. read_store; reflexivity. Qed.

Lemma UpdateDict_reads_Content_Transfer_Encoding :
  first_value (wxS "Content-Transfer-Encoding") (m_entries (UpdateDict h)) =
  Some (wxS "8bit").
Proof. read_store; reflexivity. Qed.

Lemma UpdateDict_reads_X_Generator :
  first_value (wxS "X-Generator") (m_entries (UpdateDict h)) =
  Some (wxS "Poedit " ++ POEDIT_VERSION).
Proof. read_store; reflexivity. Qed.

Lemma UpdateDict_reads_LastTranslator_any :
  first_value (wxS "Last-Translator") (m_entries (UpdateDict h)) =
  Some (if Wx.empty (TranslatorEmail h) then
          if Wx.empty (Translator h)
          then default [] (first_value (wxS "Last-Translator") (m_entries h))
          else Translator h
        else if Wx.empty (Translator h) then TranslatorEmail h
             else Translator h ++ wxS " <" ++ TranslatorEmail h ++ wxS ">").
Proof.
  unfold UpdateDict. rewrite HasHeader_first_value.
  repeat (rewrite first_value_SetHeader_ne by key_differs).
  destruct (Wx.empty (TranslatorEmail h)); [|destruct (Wx.empty (Translator h))];
    [|repeat read_store_step; reflexivity ..].
  destruct (Translator h) as [|c name]; cbn [Wx.empty negb orb];
    [|repeat read_store_step; reflexivity].
  destruct (first_value (wxS "Last-Translator") (m_entries h)) as [v|] eqn:E.
  - rewrite bool_decide_eq_true_2 by eauto. cbn [negb].
    repeat read_store_step; exact E.
  - rewrite bool_decide_eq_false_2 by (now intros [? ?]). cbn [negb].
    repeat read_store_step; reflexivity.
Qed.

End UpdateDictWrites.

(** After [UpdateDict] the headers of the first-class fields read as the
    fields, whatever the raw entries held before: the project, the dates and
    the team; the fixed MIME version and transfer encoding; the content type
    made from the charset; the generator made from the version; and the
    language code, the source charset and the base path, whose headers are
    absent when the field is empty; and the keyword list when there are
    keywords. *)
Theorem UpdateDict_writes_fields `{Ext : Externals} (h : HeaderData) :
  GetHeader (UpdateDict h) (wxS "Project-Id-Version") = Project h /\
  GetHeader (UpdateDict h) (wxS "POT-Creation-Date") = CreationDate h /\
  GetHeader (UpdateDict h) (wxS "PO-Revision-Date") = RevisionDate h /\
  GetHeader (UpdateDict h) (wxS "Language-Team") = LanguageTeam h /\
  GetHeader (UpdateDict h) (wxS "MIME-Version") = wxS "1.0" /\
  GetHeader (UpdateDict h) (wxS "Content-Type") =
    wxS "text/plain; charset=" ++ Charset h /\
  GetHeader (UpdateDict h) (wxS "Content-Transfer-Encoding") = wxS "8bit" /\
  GetHeader (UpdateDict h) (wxS "X-Generator") = wxS "Poedit " ++ POEDIT_VERSION /\
  (GetHeader (UpdateDict h) (wxS "Language") = Language_Code (Lang h) /\
   HasHeader (UpdateDict h) (wxS "Language") =
     negb (Wx.empty (Language_Code (Lang h)))) /\
  (GetHeader (UpdateDict h) (wxS "X-Poedit-SourceCharset") = SourceCodeCharset h /\
   HasHeader (UpdateDict h) (wxS "X-Poedit-SourceCharset") =
     negb (Wx.empty (SourceCodeCharset h))) /\
  (GetHeader (UpdateDict h) (wxS "X-Poedit-Basepath") = BasePath h /\
   HasHeader (UpdateDict h) (wxS "X-Poedit-Basepath") =
     negb (Wx.empty (BasePath h))) /\
  (Keywords h <> [] ->
   GetHeader (UpdateDict h) (wxS "X-Poedit-KeywordsList") =
     join_keywords (Keywords h)).
Proof.
  rewrite !GetHeader_first_value, !HasHeader_first_value.
  rewrite UpdateDict_reads_Project, UpdateDict_reads_CreationDate,
    UpdateDict_reads_RevisionDate, UpdateDict_reads_LanguageTeam,
    UpdateDict_reads_MIME_Version, UpdateDict_reads_ContentType,
    UpdateDict_reads_Content_Transfer_Encoding, UpdateDict_reads_X_Generator,
    UpdateDict_reads_Language, UpdateDict_reads_SourceCharset,
    UpdateDict_reads_Basepath, UpdateDict_reads_KeywordsList.
  rewrite !default_not_empty.
  repeat split.
  - now destruct (Language_Code (Lang h)).
  - now destruct (SourceCodeCharset h).
  - now destruct (BasePath h).
  - intros Hne. destruct (Keywords h); [congruence | reflexivity].
Qed.

(** The translator's header after [UpdateDict]: it is always present; it
    reads as the name, as the e-mail address when there is no name, as
    [name <e-mail>] when there are both; and when there is neither, the
    value the header had before is kept (empty if it was absent). *)
Theorem UpdateDict_Last_Translator `{Ext : Externals} (h : HeaderData) :
  HasHeader (UpdateDict h) (wxS "Last-Translator") = true /\
  GetHeader (UpdateDict h) (wxS "Last-Translator") =
    (if Wx.empty (TranslatorEmail h) then
       if Wx.empty (Translator h) then GetHeader h (wxS "Last-Translator")
       else Translator h
     else if Wx.empty (Translator h) then TranslatorEmail h
          else Translator h ++ wxS " <" ++ TranslatorEmail h ++ wxS ">").
Proof.
  rewrite !GetHeader_first_value, HasHeader_first_value,
    UpdateDict_reads_LastTranslator_any.
  split; reflexivity.
Qed.

(** ** HeaderData: UpdateDict leaves the other headers alone *)

Lemma not_managed_fixed (key k : wxString) :
  ~ managed_key key -> k ∈ managed_keys -> key <> k.
Proof. intros Hn Hk ->. apply Hn. now left. Qed.

Lemma not_managed_indexed (key : wxString) :
  ~ managed_key key ->
  (forall j, key <> SearchPath_key j) /\
  (forall j, key <> SearchPathExcluded_key j).
Proof.
  intros Hn. split; intros j ->; apply Hn; right; exists j; tauto.
Qed.

Ltac fixed_key Hn :=
  apply (not_managed_fixed _ _ Hn); apply (bool_decide_unpack _);
  vm_compute; exact I.

Ltac other_key_step Hn Hsp Hspe :=
  first
    [ rewrite NormalizeHeaderOrder_first_value
    | rewrite first_value_emit_series_other by (first [exact Hsp | exact Hspe])
    | rewrite first_value_delete_series by (first [exact Hsp | exact Hspe])
    | rewrite first_value_SetHeader_ne by fixed_key Hn
    | rewrite first_value_SetHeaderNotEmpty_ne by fixed_key Hn
    | match goal with
      | |- context [m_entries (if ?b then _ else _)] => destruct b eqn:?
      end ].

Lemma UpdateDict_reads_other `{Ext : Externals} (h : HeaderData)
    (key : wxString) :
  ~ managed_key key ->
  first_value key (m_entries (UpdateDict h)) = first_value key (m_entries h).
Proof.
  intros Hn. destruct (not_managed_indexed key Hn) as [Hsp Hspe].
  unfold UpdateDict. repeat other_key_step Hn Hsp Hspe; reflexivity.
Qed.

(** [UpdateDict] leaves alone every header it does not manage: a key that
    is neither one of those it writes nor of an indexed series reads and is
    present after it as before. *)
Theorem UpdateDict_keeps_other_headers `{Ext : Externals} (h : HeaderData)
    (key : wxString) :
  ~ managed_key key ->
  GetHeader (UpdateDict h) key = GetHeader h key /\
  HasHeader (UpdateDict h) key = HasHeader h key.
Proof.
  intros Hn. rewrite !GetHeader_first_value, !HasHeader_first_value.
  now rewrite UpdateDict_reads_other.
Qed.

Lemma Plural_Forms_not_managed : ~ managed_key (wxS "Plural-Forms").
Proof.
  intros [Hfixed|(i & [Hi|Hi])].
  - revert Hfixed. apply (bool_decide_unpack _). vm_compute. exact I.
  - symmetry in Hi. revert Hi. apply series_key_not. reflexivity.
  - symmetry in Hi. revert Hi. apply series_key_not. reflexivity.
Defined.

Lemma UpdateDict_keeps_other_headers_witness :
  let h := @blank_header sample_Externals
             [{| Key := wxS "Plural-Forms";
                 Value := wxS "nplurals=2; plural=(n != 1);" |}] in
  ~ managed_key (wxS "Plural-Forms") /\
  GetHeader (UpdateDict h) (wxS "Plural-Forms") =
    wxS "nplurals=2; plural=(n != 1);" /\
  HasHeader (UpdateDict h) (wxS "Plural-Forms") = true.
Proof.
  split; [exact Plural_Forms_not_managed|].
  apply (UpdateDict_keeps_other_headers
           (@blank_header sample_Externals
              [{| Key := wxS "Plural-Forms";
                  Value := wxS "nplurals=2; plural=(n != 1);" |}])
           (wxS "Plural-Forms") Plural_Forms_not_managed).
Defined.

(** ** HeaderData: what ParseDict derives from the entries *)

Section ParseDictFields.
Context `{Ext : Externals}.
Variable h : HeaderData.

Lemma ParseDict_Charset :
  Charset (ParseDict h) =
  match Wx.find (wxS "; charset=") (GetHeader h (wxS "Content-Type")) with
  | Some charsetPos =>
      Wx.Strip Wx.both
        (Wx.substr_from (GetHeader h (wxS "Content-Type"))
                        (charsetPos + length (wxS "; charset=")))
  | None => wxS "UTF-8"
  end.
Proof.
  unfold ParseDict.
  repeat match goal with
         | |- context [let '(_, _) := ?x in _] => destruct x
         end.
  reflexivity.
Qed.

Lemma ParseDict_Translator :
  (Translator (ParseDict h), TranslatorEmail (ParseDict h)) =
  (let dummy := GetHeader h (wxS "Last-Translator") in
   if negb (Wx.empty dummy) then
     let tkn := Wx.Tokenizer dummy (wxS "<>") in
     if negb (Nat.eqb (Wx.CountTokens tkn) 2) then (dummy, wxEmptyString)
     else
       (Wx.Strip Wx.trailing (fst (Wx.GetNextToken tkn)),
        fst (Wx.GetNextToken (snd (Wx.GetNextToken tkn))))
   else (Translator h, TranslatorEmail h)).
Proof.
  unfold ParseDict. cbv zeta.
  destruct (negb (Wx.empty (GetHeader h (wxS "Last-Translator")))).
  - destruct (negb (Wx.CountTokens _ =? 2)).
    + repeat match goal with
             | |- context [let '(_, _) := ?x in _] => destruct x
             end.
      reflexivity.
    + destruct (Wx.GetNextToken (Wx.Tokenizer _ _)) as [t1 tkn1]. cbn [fst snd].
      destruct (Wx.GetNextToken tkn1) as [t2 tkn2]. cbn [fst snd].
      repeat match goal with
             | |- context [let '(_, _) := ?x in _] => destruct x
             end.
      reflexivity.
  - repeat match goal with
           | |- context [let '(_, _) := ?x in _] => destruct x
           end.
    reflexivity.
Qed.

Lemma ParseDict_Lang :
  Lang (ParseDict h) =
  (let lang :=
     if negb (Wx.empty (GetHeader h (wxS "Language")))
     then Language_TryParse (GetHeader h (wxS "Language")) else Language_new in
   let lang :=
     if negb (Language_IsValid lang) then
       if negb (Wx.empty (GetHeader h (wxS "X-Language")))
       then Language_TryParse (GetHeader h (wxS "X-Language")) else lang
     else lang in
   if negb (Language_IsValid lang) then
     if negb (Wx.empty (GetHeader h (wxS "X-Poedit-Language")))
     then Language_FromLegacyNames (GetHeader h (wxS "X-Poedit-Language"))
                                   (GetHeader h (wxS "X-Poedit-Country"))
     else lang
   else lang).
Proof.
  unfold ParseDict.
  repeat match goal with
         | |- context [let '(_, _) := ?x in _] => destruct x
         end.
  reflexivity.
Qed.

End ParseDictFields.

Lemma find_first_occurrence (sub s : wxString) (pos : nat) :
  first_occurrence sub s pos -> Wx.find sub s = Some pos.
Proof.
  intros [Hocc Hfirst].
  destruct (Wx.find sub s) as [p|] eqn:E.
  - apply find_Some in E as [Hp Hpfirst]. f_equal.
    destruct (Nat.lt_trichotomy p pos) as [Hlt|[Heq|Hgt]]; [|exact Heq|].
    + exfalso. exact (Hfirst p Hlt Hp).
    + exfalso. exact (Hpfirst pos Hgt Hocc).
  - exfalso. exact (find_None sub s E pos Hocc).
Qed.

(** [ParseDict] takes the charset from the [Content-Type] header: what
    follows the first ["; charset="] in it, whatever stands in front, without
    white space around it; and ["UTF-8"] when the header does not name a
    charset or is missing. *)
Theorem ParseDict_charset_of_content_type `{Ext : Externals} (h : HeaderData) :
  (Wx.find (wxS "; charset=") (GetHeader h (wxS "Content-Type")) = None ->
   Charset (ParseDict h) = wxS "UTF-8") /\
  (HasHeader h (wxS "Content-Type") = false ->
   Charset (ParseDict h) = wxS "UTF-8") /\
  (forall cs,
     GetHeader h (wxS "Content-Type") = wxS "text/plain; charset=" ++ cs ->
     Charset (ParseDict h) = Wx.Strip Wx.both cs) /\
  (forall pre cs,
     GetHeader h (wxS "Content-Type") = pre ++ wxS "; charset=" ++ cs ->
     first_occurrence (wxS "; charset=") (GetHeader h (wxS "Content-Type"))
                      (length pre) ->
     Charset (ParseDict h) = Wx.Strip Wx.both cs) /\
  (forall pos,
     first_occurrence (wxS "; charset=") (GetHeader h (wxS "Content-Type")) pos ->
     Charset (ParseDict h) =
       Wx.Strip Wx.both
         (drop (pos + length (wxS "; charset="))
               (GetHeader h (wxS "Content-Type")))).
Proof.
  rewrite ParseDict_Charset. split; [|split; [|split; [|split]]].
  - now intros ->.
  - rewrite HasHeader_first_value, GetHeader_first_value.
    destruct (first_value _ _) as [v|]; [|reflexivity].
    intros Hf. apply bool_decide_eq_false in Hf. exfalso. apply Hf. eauto.
  - intros cs ->. rewrite find_charset. reflexivity.
  - intros pre cs Heq Hfirst. rewrite (find_first_occurrence _ _ _ Hfirst).
    rewrite Heq. unfold Wx.substr_from.
    rewrite <- drop_drop, drop_app_length.
    reflexivity.
  - intros pos Hfirst. now rewrite (find_first_occurrence _ _ _ Hfirst).
Qed.

(** [ParseDict] splits the translator's header at the angle brackets: a
    text without brackets is the name, with an empty e-mail address;
    [name <e-mail>] gives the name without the white space in front of the
    bracket, and the e-mail address; and when the header is empty or
    missing, the name and the address the object held before are left in
    place. *)
Theorem ParseDict_translator `{Ext : Externals} (h : HeaderData) :
  (GetHeader h (wxS "Last-Translator") = [] ->
   Translator (ParseDict h) = Translator h /\
   TranslatorEmail (ParseDict h) = TranslatorEmail h) /\
  (forall name,
     name <> [] -> Forall (fun c => Wx.one_of (wxS "<>") c = false) name ->
     GetHeader h (wxS "Last-Translator") = name ->
     Translator (ParseDict h) = name /\ TranslatorEmail (ParseDict h) = []) /\
  (forall name email,
     name <> [] -> email <> [] ->
     Forall (fun c => Wx.one_of (wxS "<>") c = false) (name ++ email) ->
     GetHeader h (wxS "Last-Translator") =
       name ++ wxS " <" ++ email ++ wxS ">" ->
     Translator (ParseDict h) = Wx.Trim_right name /\
     TranslatorEmail (ParseDict h) = email).
Proof.
  pose proof (ParseDict_Translator h) as H. cbv zeta in H.
  split; [|split].
  - intros Hd. rewrite Hd in H. cbn [Wx.empty negb] in H.
    now injection H.
  - intros name Hne Hb Hd. rewrite Hd in H.
    destruct name as [|c name]; [congruence|]. cbn [Wx.empty negb] in H.
    rewrite (CountTokens_name (c :: name)) in H by (assumption || discriminate).
    cbn [Nat.eqb negb] in H. now injection H.
  - intros name email Hn He Hb Hd. rewrite Hd in H.
    destruct (tokens_name_email name email Hn He Hb) as (Hc & Ht1 & Ht2).
    cbv zeta in Hc, Ht1, Ht2.
    assert (Hnonempty : Wx.empty (name ++ wxS " <" ++ email ++ wxS ">") = false)
      by (destruct name; [congruence | reflexivity]).
    rewrite Hnonempty, Hc, Ht1, Ht2 in H. cbn [Nat.eqb negb Wx.Strip] in H.
    rewrite Trim_right_blank in H. now injection H.
Qed.

(** The language [ParseDict] derives: the [Language] header wins when it
    parses to a valid language; when it does not, a valid [X-Language]
    header is taken; and with none of [Language], [X-Language] and
    [X-Poedit-Language] set, the language is the empty one. *)
Theorem ParseDict_language_precedence `{Ext : Externals} (h : HeaderData) :
  (GetHeader h (wxS "Language") <> [] ->
   Language_IsValid (Language_TryParse (GetHeader h (wxS "Language"))) = true ->
   Lang (ParseDict h) = Language_TryParse (GetHeader h (wxS "Language"))) /\
  (Language_IsValid
     (if negb (Wx.empty (GetHeader h (wxS "Language")))
      then Language_TryParse (GetHeader h (wxS "Language"))
      else Language_new) = false ->
   GetHeader h (wxS "X-Language") <> [] ->
   Language_IsValid (Language_TryParse (GetHeader h (wxS "X-Language"))) = true ->
   Lang (ParseDict h) = Language_TryParse (GetHeader h (wxS "X-Language"))) /\
  (GetHeader h (wxS "Language") = [] ->
   GetHeader h (wxS "X-Language") = [] ->
   GetHeader h (wxS "X-Poedit-Language") = [] ->
   Lang (ParseDict h) = Language_new).
Proof.
  rewrite ParseDict_Lang. cbv zeta. split; [|split].
  - intros Hne Hv. apply empty_false_iff in Hne. rewrite Hne. cbn [negb].
    rewrite Hv. cbn [negb]. rewrite Hv. reflexivity.
  - intros Hinv Hne Hv. rewrite Hinv. cbn [negb].
    apply empty_false_iff in Hne. rewrite Hne. cbn [negb]. now rewrite Hv.
  - intros -> -> ->. cbn [Wx.empty negb].
    destruct (Language_IsValid Language_new) eqn:Hv; cbn [negb];
      rewrite ?Hv; reflexivity.
Qed.

(** ** FixBrokenSearchPathValue *)

Lemma Replace_char_backslash (p : wxString) :
  "092"%char ∉ Wx.Replace_char "092"%char "/"%char p.
Proof.
  unfold Wx.Replace_char. intros Hin. apply list_elem_of_In in Hin.
  apply in_map_iff in Hin as (c & Hc & _).
  destruct (Ascii.eqb c "092"%char) eqn:E; [discriminate|].
  subst c. now rewrite Ascii.eqb_refl in E.
Qed.

Lemma Replace_char_plain (p : wxString) :
  ("092"%char ∉ p) -> Wx.Replace_char "092"%char "/"%char p = p.
Proof.
  unfold Wx.Replace_char. induction p as [|c p IH]; intros Hn; simpl; [reflexivity|].
  apply not_elem_of_cons in Hn as [Hc Hp]. rewrite IH by exact Hp.
  destruct (Ascii.eqb_spec c "092"%char); [congruence | reflexivity].
Qed.

Lemma not_elem_of_removelast {A : Type} (x : A) (l : list A) :
  x ∉ l -> x ∉ removelast l.
Proof.
  intros Hn Hin. apply Hn. destruct (decide (l = [])) as [->|Hne]; [exact Hin|].
  destruct (exists_last Hne) as (l' & a & ->).
  rewrite removelast_last in Hin. apply elem_of_app. now left.
Qed.

(** [FixBrokenSearchPathValue] gives a path without backslash, at most one
    character shorter than the one it is given (only one separator is taken
    off the end); it leaves alone a path that has no backslash and does not
    end in a slash; and its result is empty only for the empty path and for
    a lone separator. *)
Theorem FixBrokenSearchPathValue_result (p : wxString) :
  ("092"%char ∉ FixBrokenSearchPathValue p) /\
  length p - 1 <= length (FixBrokenSearchPathValue p) <= length p /\
  (("092"%char ∉ p) -> Wx.Last p <> Some "/"%char ->
   FixBrokenSearchPathValue p = p) /\
  (FixBrokenSearchPathValue p = [] <->
   p = [] \/ p = ["/"%char] \/ p = ["092"%char]).
Proof.
  unfold FixBrokenSearchPathValue.
  destruct p as [|c p]; cbn [Wx.empty].
  - split; [apply not_elem_of_nil|]. split; [simpl; lia|].
    split; [reflexivity|]. split; [tauto | reflexivity].
  - set (q := Wx.Replace_char "092"%char "/"%char (c :: p)).
    assert (Hq : "092"%char ∉ q) by apply Replace_char_backslash.
    assert (Hlen : length q = length (c :: p))
      by (unfold q, Wx.Replace_char; apply length_map).
    assert (Hqne : q <> []) by (intros Hnil; rewrite Hnil in Hlen; discriminate).
    destruct (exists_last Hqne) as (q' & z & Hqz).
    assert (Hrem : Wx.RemoveLast q = q')
      by (unfold Wx.RemoveLast; rewrite Hqz; apply removelast_last).
    assert (Hlast : Wx.Last q = Some z)
      by (unfold Wx.Last; rewrite Hqz; apply last_snoc).
    assert (Hlen' : length q = S (length q'))
      by (rewrite Hqz, length_app; simpl; lia).
    split; [|split; [|split]].
    + destruct (bool_decide _); [|exact Hq].
      now apply not_elem_of_removelast.
    + destruct (bool_decide _); [rewrite Hrem|]; simpl in *; lia.
    + intros Hn Hl. unfold q. rewrite Replace_char_plain by exact Hn.
      now rewrite bool_decide_eq_false_2.
    + destruct (bool_decide (Wx.Last q = Some "/"%char)) eqn:Hb.
      * apply bool_decide_eq_true in Hb. rewrite Hrem. split.
        -- intros ->. right. simpl in Hlen'.
           destruct p as [|d p]; [|simpl in *; lia].
           destruct (Ascii.eqb_spec c "092"%char) as [->|Hne]; [tauto|].
           left. unfold q, Wx.Replace_char in Hb. simpl in Hb.
           destruct (Ascii.eqb_spec c "092"%char); [congruence|].
           cbv in Hb. congruence.
        -- intros [Heq|[Heq|Heq]]; [discriminate| |];
             injection Heq as -> ->; unfold q in Hrem; cbv in Hrem; congruence.
      * split; [congruence|].
        apply bool_decide_eq_false in Hb.
        intros [Heq|[Heq|Heq]]; [discriminate| |];
          injection Heq as -> ->; exfalso; apply Hb; reflexivity.
Qed.

(** ** Catalog: CreateNewHeader *)

Section CreateNewHeader.
Context `{Ext : Externals}.
Lemma CreateNewHeader_from_reads (now translator_name translator_email : wxString)
    (pot_header : HeaderData) (cat : Catalog) :
  let cat' := Catalog.CreateNewHeader_from now translator_name translator_email
                pot_header cat in
  let h' := Catalog.m_header cat' in
  GetHeader h' (wxS "Content-Type") = wxS "text/plain; charset=UTF-8" /\
  GetHeader h' (wxS "Last-Translator") =
    (if Wx.empty translator_email then translator_name
     else if Wx.empty translator_name then translator_email
          else translator_name ++ wxS " <" ++ translator_email ++ wxS ">") /\
  GetHeader h' (wxS "Project-Id-Version") =
    (if Wx.eqb (Project pot_header) (wxS "PROJECT VERSION") then []
     else Project pot_header) /\
  GetHeader h' (wxS "Language-Team") =
    (if Wx.eqb (LanguageTeam pot_header) (wxS "LANGUAGE <LL@li.org>") then []
     else LanguageTeam pot_header) /\
  GetHeader h' (wxS "POT-Creation-Date") = CreationDate pot_header /\
  GetHeader h' (wxS "PO-Revision-Date") =
    (if Wx.empty (RevisionDate pot_header) then [] else now) /\
  (GetHeader pot_header (wxS "Plural-Forms") = Catalog.default_plural_forms ->
   HasHeader h' (wxS "Plural-Forms") = false) /\
  (GetHeader pot_header (wxS "Plural-Forms") <> Catalog.default_plural_forms ->
   GetHeader h' (wxS "Plural-Forms") = GetHeader pot_header (wxS "Plural-Forms")) /\
  Lang h' = Language_new /\
  Catalog.m_items cat' = Catalog.m_items cat.
Proof.
  cbv zeta. unfold Catalog.CreateNewHeader_from.
  cbn [Catalog.m_header Catalog.set_header Catalog.m_items].
  match goal with
  | |- context [GetHeader ?d (wxS "Plural-Forms")] =>
      match d with
      | Build_HeaderData _ _ _ _ _ _ _ _ _ _ _ _ _ _ => set (dt0 := d)
      end
  end.
  assert (HP0 : Project dt0 =
                if Wx.eqb (Project pot_header) (wxS "PROJECT VERSION") then []
                else Project pot_header) by reflexivity.
  assert (HL0 : LanguageTeam dt0 =
                if Wx.eqb (LanguageTeam pot_header) (wxS "LANGUAGE <LL@li.org>")
                then [] else LanguageTeam pot_header) by reflexivity.
  assert (HC0 : CreationDate dt0 = CreationDate pot_header) by reflexivity.
  assert (HR0 : RevisionDate dt0 =
                if negb (Wx.empty (RevisionDate pot_header)) then now
                else RevisionDate pot_header) by reflexivity.
  assert (HCh0 : Charset dt0 = wxS "UTF-8") by reflexivity.
  assert (HLn0 : Lang dt0 = Language_new) by reflexivity.
  assert (Hes0 : m_entries dt0 = m_entries pot_header) by reflexivity.
  clearbody dt0.
  set (dt1 := if Wx.eqb (GetHeader dt0 (wxS "Plural-Forms"))
                        Catalog.default_plural_forms
              then DeleteHeader (wxS "Plural-Forms") dt0 else dt0).
  set (dt2 := DeleteHeader (wxS "Last-Translator") dt1).
  assert (Hframe : exists es, dt2 = set_entries es dt0).
  { unfold dt2. rewrite DeleteHeader_same_but_entries. unfold dt1.
    destruct (Wx.eqb (GetHeader dt0 _) _);
      [rewrite (DeleteHeader_same_but_entries _ dt0)|]; eexists; reflexivity. }
  assert (HLt : first_value (wxS "Last-Translator") (m_entries dt2) = None)
    by apply first_value_DeleteHeader_eq.
  assert (HPl : first_value (wxS "Plural-Forms") (m_entries dt2) =
                if Wx.eqb (GetHeader pot_header (wxS "Plural-Forms"))
                          Catalog.default_plural_forms
                then None
                else first_value (wxS "Plural-Forms") (m_entries pot_header)).
  { unfold dt2.
    rewrite first_value_DeleteHeader_ne by (vm_compute; discriminate).
    unfold dt1. rewrite !GetHeader_first_value, Hes0.
    destruct (Wx.eqb (default [] _) Catalog.default_plural_forms).
    - apply first_value_DeleteHeader_eq.
    - now rewrite Hes0. }
  destruct Hframe as [es Hframe].
  match goal with
  | |- context [UpdateDict ?d] => set (dt := d)
  end.
  assert (HT : Translator dt = translator_name) by reflexivity.
  assert (HE : TranslatorEmail dt = translator_email) by reflexivity.
  assert (HP : Project dt =
               if Wx.eqb (Project pot_header) (wxS "PROJECT VERSION") then []
               else Project pot_header)
    by (unfold dt; cbn [Project]; rewrite Hframe; exact HP0).
  assert (HL : LanguageTeam dt =
               if Wx.eqb (LanguageTeam pot_header) (wxS "LANGUAGE <LL@li.org>")
               then [] else LanguageTeam pot_header)
    by (unfold dt; cbn [LanguageTeam]; rewrite Hframe; exact HL0).
  assert (HC : CreationDate dt = CreationDate pot_header)
    by (unfold dt; cbn [CreationDate]; rewrite Hframe; exact HC0).
  assert (HR : RevisionDate dt =
               if negb (Wx.empty (RevisionDate pot_header)) then now
               else RevisionDate pot_header)
    by (unfold dt; cbn [RevisionDate]; rewrite Hframe; exact HR0).
  assert (HCh : Charset dt = wxS "UTF-8")
    by (unfold dt; cbn [Charset]; rewrite Hframe; exact HCh0).
  assert (HLn : Lang dt = Language_new)
    by (unfold dt; cbn [Lang]; rewrite Hframe; exact HLn0).
  assert (HLt' : first_value (wxS "Last-Translator") (m_entries dt) = None)
    by exact HLt.
  assert (HPl' : first_value (wxS "Plural-Forms") (m_entries dt) =
                 if Wx.eqb (GetHeader pot_header (wxS "Plural-Forms"))
                           Catalog.default_plural_forms
                 then None
                 else first_value (wxS "Plural-Forms") (m_entries pot_header))
    by exact HPl.
  assert (HLang : Lang (UpdateDict dt) = Lang dt)
    by (destruct (UpdateDict_same_but_entries dt) as [es' ->]; reflexivity).
  clear HLt HPl Hframe.
  clearbody dt.
  rewrite !GetHeader_first_value, HasHeader_first_value.
  rewrite UpdateDict_reads_ContentType, (UpdateDict_reads_LastTranslator dt HLt'),
    UpdateDict_reads_Project, UpdateDict_reads_LanguageTeam,
    UpdateDict_reads_CreationDate, UpdateDict_reads_RevisionDate,
    (UpdateDict_reads_other dt _ Plural_Forms_not_managed).
  rewrite HT, HE, HP, HL, HC, HR, HCh, HPl', HLang, HLn.
  repeat split.
  - now destruct (RevisionDate pot_header).
  - intros Hd. now rewrite GetHeader_first_value, Hd, wx_eqb_refl.
  - intros Hd. apply wx_eqb_neq in Hd. now rewrite GetHeader_first_value, Hd.
Qed.

(** The header of a new translation made from a template: the content type
    names UTF-8 whatever the template's charset; the translator's header is
    made from the configured name and e-mail address, never the template's;
    the placeholder project, team and plural forms of a template are
    dropped, real ones are kept; the revision date is the current time when
    the template has one; the language is the empty one; and the items of
    the catalog are not touched. *)
Theorem CreateNewHeader_from_template
    (now translator_name translator_email : wxString)
    (pot_header : HeaderData) (cat : Catalog) :
  let cat' := Catalog.CreateNewHeader_from now translator_name translator_email
                pot_header cat in
  let h' := Catalog.m_header cat' in
  GetHeader h' (wxS "Content-Type") = wxS "text/plain; charset=UTF-8" /\
  GetHeader h' (wxS "Last-Translator") =
    (if Wx.empty translator_email then translator_name
     else if Wx.empty translator_name then translator_email
          else translator_name ++ wxS " <" ++ translator_email ++ wxS ">") /\
  GetHeader h' (wxS "Project-Id-Version") =
    (if Wx.eqb (Project pot_header) (wxS "PROJECT VERSION") then []
     else Project pot_header) /\
  GetHeader h' (wxS "Language-Team") =
    (if Wx.eqb (LanguageTeam pot_header) (wxS "LANGUAGE <LL@li.org>") then []
     else LanguageTeam pot_header) /\
  GetHeader h' (wxS "POT-Creation-Date") = CreationDate pot_header /\
  GetHeader h' (wxS "PO-Revision-Date") =
    (if Wx.empty (RevisionDate pot_header) then [] else now) /\
  (GetHeader pot_header (wxS "Plural-Forms") = Catalog.default_plural_forms ->
   HasHeader h' (wxS "Plural-Forms") = false) /\
  (GetHeader pot_header (wxS "Plural-Forms") <> Catalog.default_plural_forms ->
   GetHeader h' (wxS "Plural-Forms") = GetHeader pot_header (wxS "Plural-Forms")) /\
  Lang h' = Language_new /\
  Catalog.m_items cat' = Catalog.m_items cat.
Proof. apply CreateNewHeader_from_reads. Qed.

(** The header [CreateNewHeader] makes for a new catalog: both dates are
    the current time, the content type names UTF-8, the base path is ["."],
    the project is empty and there is no source charset header; a template
    gets the placeholder plural forms, which making a translation's header
    from that template removes again, and any other catalog keeps the plural
    forms it had; the keywords and the search paths of the header are not
    reset. *)
Theorem CreateNewHeader_fresh (now translator_name translator_email : wxString)
    (cat : Catalog) :
  let h' := Catalog.m_header
              (Catalog.CreateNewHeader now translator_name translator_email cat) in
  GetHeader h' (wxS "POT-Creation-Date") = now /\
  GetHeader h' (wxS "PO-Revision-Date") = now /\
  GetHeader h' (wxS "Content-Type") = wxS "text/plain; charset=UTF-8" /\
  GetHeader h' (wxS "X-Poedit-Basepath") = wxS "." /\
  GetHeader h' (wxS "Project-Id-Version") = [] /\
  HasHeader h' (wxS "X-Poedit-SourceCharset") = false /\
  (Catalog.m_fileType cat = Catalog.POT ->
   GetHeader h' (wxS "Plural-Forms") = Catalog.default_plural_forms /\
   forall now' name' email' cat2,
     HasHeader (Catalog.m_header
                  (Catalog.CreateNewHeader_from now' name' email' h' cat2))
               (wxS "Plural-Forms") = false) /\
  (Catalog.m_fileType cat <> Catalog.POT ->
   GetHeader h' (wxS "Plural-Forms") =
     GetHeader (Catalog.m_header cat) (wxS "Plural-Forms")) /\
  Keywords h' = Keywords (Catalog.m_header cat) /\
  SearchPaths h' = SearchPaths (Catalog.m_header cat) /\
  SearchPathsExcluded h' = SearchPathsExcluded (Catalog.m_header cat).
Proof.
  cbv zeta. unfold Catalog.CreateNewHeader.
  cbn [Catalog.m_header Catalog.set_header].
  match goal with
  | |- context [UpdateDict ?d] => set (dt := d)
  end.
  assert (Hframe : exists es, UpdateDict dt = set_entries es dt)
    by apply UpdateDict_same_but_entries.
  assert (HPl : first_value (wxS "Plural-Forms") (m_entries dt) =
                match Catalog.m_fileType cat with
                | Catalog.POT => Some Catalog.default_plural_forms
                | _ => first_value (wxS "Plural-Forms")
                         (m_entries (Catalog.m_header cat))
                end).
  { unfold dt. cbn [m_entries].
    destruct (Catalog.m_fileType cat); try reflexivity.
    apply first_value_SetHeader_eq. }
  assert (HK : Keywords dt = Keywords (Catalog.m_header cat) /\
               SearchPaths dt = SearchPaths (Catalog.m_header cat) /\
               SearchPathsExcluded dt = SearchPathsExcluded (Catalog.m_header cat)).
  { unfold dt. cbn [Keywords SearchPaths SearchPathsExcluded].
    destruct (Catalog.m_fileType cat); try (repeat split; reflexivity).
    rewrite SetHeader_same_but_entries. repeat split; reflexivity. }
  assert (HC : CreationDate dt = now /\ RevisionDate dt = now).
  { unfold dt. cbn [CreationDate RevisionDate].
    destruct (Catalog.m_fileType cat); try (split; reflexivity).
    rewrite SetHeader_same_but_entries. split; reflexivity. }
  assert (HCh : Charset dt = wxS "UTF-8") by reflexivity.
  assert (HB : BasePath dt = wxS ".") by reflexivity.
  assert (HP : Project dt = []) by reflexivity.
  assert (HS : SourceCodeCharset dt = []) by reflexivity.
  clearbody dt. destruct HC as [HC HR]. destruct HK as (HK1 & HK2 & HK3).
  assert (HPF : first_value (wxS "Plural-Forms") (m_entries (UpdateDict dt)) =
                first_value (wxS "Plural-Forms") (m_entries dt))
    by apply (UpdateDict_reads_other dt _ Plural_Forms_not_managed).
  rewrite !GetHeader_first_value, !HasHeader_first_value.
  rewrite UpdateDict_reads_CreationDate, UpdateDict_reads_RevisionDate,
    UpdateDict_reads_ContentType, UpdateDict_reads_Basepath,
    UpdateDict_reads_Project, UpdateDict_reads_SourceCharset, HPF, HPl.
  rewrite HC, HR, HCh, HB, HP, HS.
  destruct Hframe as [es Hframe].
  split; [reflexivity|]. split; [reflexivity|]. split; [reflexivity|].
  split; [reflexivity|]. split; [reflexivity|]. split; [reflexivity|].
  split; [|split; [|split; [|split]]].
  - intros Hpot. rewrite Hpot. split; [reflexivity|].
    intros now' name' email' cat2.
    pose proof (CreateNewHeader_from_reads now' name' email'
                  (UpdateDict dt) cat2) as Hfrom.
    cbv zeta in Hfrom. destruct Hfrom as (_ & _ & _ & _ & _ & _ & Hdrop & _).
    apply Hdrop.
    rewrite GetHeader_first_value, HPF, HPl, Hpot. reflexivity.
  - intros Hpot. destruct (Catalog.m_fileType cat); congruence.
  - now rewrite Hframe.
  - now rewrite Hframe.
  - now rewrite Hframe.
Qed.

End CreateNewHeader.

(** ** HeaderData: UpdateDict replaces a series numbered without a gap *)

Section ReplaceSeries.
Context `{Ext : Externals}.

Lemma delete_series_rounds_contiguous (series : N -> wxString) (n : N) :
  (forall a b, series a = series b -> a = b) ->
  forall (fuel : nat) (i : N) (h : HeaderData),
    (forall j, (i <= j)%N ->
       (is_Some (first_value (series j) (m_entries h)) <-> (j < n)%N)) ->
    (forall j, (j < i)%N -> first_value (series j) (m_entries h) = None) ->
    N.to_nat (n - i) < fuel ->
    forall j, first_value (series j)
                (m_entries (delete_series_rounds fuel series i h)) = None.
Proof.
  intros Hinj. induction fuel as [|fuel IH]; intros i h Hfrom Hbelow Hfuel j;
    [lia|].
  cbn [delete_series_rounds]. rewrite HasHeader_first_value.
  destruct (decide (i < n)%N) as [Hlt|Hge].
  - rewrite bool_decide_eq_true_2 by (apply Hfrom; [lia | exact Hlt]).
    cbn [negb]. apply IH.
    + intros k Hk. rewrite first_value_DeleteHeader_ne
        by (intros Heq; apply Hinj in Heq; lia).
      apply Hfrom. lia.
    + intros k Hk. destruct (decide (k = i)) as [->|Hne].
      * apply first_value_DeleteHeader_eq.
      * rewrite first_value_DeleteHeader_ne
          by (intros Heq; apply Hinj in Heq; lia).
        apply Hbelow. lia.
    + lia.
  - rewrite bool_decide_eq_false_2
      by (intros Hsome; apply Hfrom in Hsome; lia).
    cbn [negb].
    destruct (decide (j < i)%N) as [Hji|Hji]; [now apply Hbelow|].
    destruct (first_value (series j) (m_entries h)) eqn:E; [|reflexivity].
    assert (Hsome : is_Some (first_value (series j) (m_entries h)))
      by (rewrite E; eauto).
    apply Hfrom in Hsome; lia.
Qed.

Lemma delete_series_contiguous (series : N -> wxString) (n : nat)
    (h : HeaderData) :
  (forall a b, series a = series b -> a = b) ->
  series_contiguous series (m_entries h) n ->
  forall j, first_value (series j) (m_entries (delete_series series h)) = None.
Proof.
  intros Hinj Hcont. unfold delete_series.
  apply (delete_series_rounds_contiguous series (N.of_nat n) Hinj).
  - intros j _. apply Hcont.
  - intros j Hj. lia.
  - assert (Hn : n <= length (m_entries h)).
    { apply (series_entries_count series); [exact Hinj|].
      intros k Hk. apply Hcont. lia. }
    lia.
Qed.

(** [UpdateDict] replaces the search paths of a header whose entries of
    both indexed series are numbered from 0 without a gap: afterwards the
    entry of index [k] of either series reads as the path of index [k] of
    the field, and there is none beyond the last path, however many there
    were before. *)
Theorem UpdateDict_replaces_series (h : HeaderData) (n m : nat) (k : nat) :
  series_contiguous SearchPath_key (m_entries h) n ->
  series_contiguous SearchPathExcluded_key (m_entries h) m ->
  first_value (SearchPath_key (N.of_nat k)) (m_entries (UpdateDict h)) =
    SearchPaths h !! k /\
  first_value (SearchPathExcluded_key (N.of_nat k)) (m_entries (UpdateDict h)) =
    SearchPathsExcluded h !! k.
Proof.
  intros Hsp Hspe. unfold UpdateDict.
  match goal with
  | |- context [delete_series SearchPath_key ?x] => set (ha := x)
  end.
  assert (Ha : series_contiguous SearchPath_key (m_entries ha) n).
  { intros j. unfold ha. repeat read_store_step; apply Hsp. }
  assert (Hae : series_contiguous SearchPathExcluded_key (m_entries ha) m).
  { intros j. unfold ha. repeat read_store_step; apply Hspe. }
  clearbody ha.
  set (hb := delete_series SearchPath_key ha).
  assert (Hb : forall j, first_value (SearchPath_key j) (m_entries hb) = None)
    by (apply (delete_series_contiguous SearchPath_key n);
        [apply series_key_inj | exact Ha]).
  assert (Hbe : series_contiguous SearchPathExcluded_key (m_entries hb) m).
  { intros j. unfold hb.
    rewrite first_value_delete_series by (intros; key_differs). apply Hae. }
  clearbody hb.
  set (hc := delete_series SearchPathExcluded_key hb).
  assert (Hc : forall j, first_value (SearchPath_key j) (m_entries hc) = None).
  { intros j. unfold hc.
    rewrite first_value_delete_series by (intros; key_differs). apply Hb. }
  assert (Hce : forall j, first_value (SearchPathExcluded_key j) (m_entries hc)
                          = None)
    by (apply (delete_series_contiguous SearchPathExcluded_key m);
        [apply series_key_inj | exact Hbe]).
  clearbody hc.
  rewrite !NormalizeHeaderOrder_first_value. split.
  - rewrite first_value_emit_series_other by (intros; key_differs).
    rewrite <- (N.add_0_l (N.of_nat k)).
    rewrite first_value_emit_series_at by (apply series_key_inj).
    destruct (SearchPaths h !! k); [reflexivity | apply Hc].
  - rewrite <- (N.add_0_l (N.of_nat k)).
    rewrite first_value_emit_series_at by (apply series_key_inj).
    destruct (SearchPathsExcluded h !! k); [reflexivity|].
    rewrite first_value_emit_series_other by (intros; key_differs).
    apply Hce.
Qed.

End ReplaceSeries.

Lemma UpdateDict_replaces_series_witness :
  let old :=
    [ {| Key := wxS "X-Poedit-SearchPath-0"; Value := wxS "src" |};
      {| Key := wxS "X-Poedit-SearchPath-1"; Value := wxS "old" |} ] in
  let h := @header_with_paths sample_Externals old [wxS "lib"] in
  series_contiguous SearchPath_key (m_entries h) 2 /\
  series_contiguous SearchPathExcluded_key (m_entries h) 0 /\
  first_value (SearchPath_key 1) (m_entries (UpdateDict h)) = None /\
  first_value (SearchPathExcluded_key 1) (m_entries (UpdateDict h)) = None.
Proof.
  cbv zeta.
  assert (H2 : series_contiguous SearchPath_key
                 (m_entries (@header_with_paths sample_Externals
                    [ {| Key := wxS "X-Poedit-SearchPath-0"; Value := wxS "src" |};
                      {| Key := wxS "X-Poedit-SearchPath-1"; Value := wxS "old" |} ]
                    [wxS "lib"])) 2).
  { intros j. cbn [m_entries header_with_paths first_value Key Value].
    change (wxS "X-Poedit-SearchPath-0") with (SearchPath_key 0).
    change (wxS "X-Poedit-SearchPath-1") with (SearchPath_key 1).
    destruct (decide (SearchPath_key 0 = SearchPath_key j)) as [Heq|Hne].
    - apply series_key_inj in Heq. subst j. split; [lia | eauto].
    - destruct (decide (SearchPath_key 1 = SearchPath_key j)) as [Heq|Hne1].
      + apply series_key_inj in Heq. subst j. split; [lia | eauto].
      + split; [now intros [? ?]|]. intros Hj. exfalso.
        assert (j = 0 \/ j = 1)%N as [->| ->] by lia; congruence. }
  assert (H0 : series_contiguous SearchPathExcluded_key
                 (m_entries (@header_with_paths sample_Externals
                    [ {| Key := wxS "X-Poedit-SearchPath-0"; Value := wxS "src" |};
                      {| Key := wxS "X-Poedit-SearchPath-1"; Value := wxS "old" |} ]
                    [wxS "lib"])) 0).
  { intros j. cbn [m_entries header_with_paths first_value Key Value].
    change (wxS "X-Poedit-SearchPath-0") with (SearchPath_key 0).
    change (wxS "X-Poedit-SearchPath-1") with (SearchPath_key 1).
    destruct (decide (SearchPath_key 0 = SearchPathExcluded_key j)) as [Heq|_];
      [now apply SearchPath_key_not_Excluded in Heq|].
    destruct (decide (SearchPath_key 1 = SearchPathExcluded_key j)) as [Heq|_];
      [now apply SearchPath_key_not_Excluded in Heq|].
    split; [now intros [? ?] | lia]. }
  split; [exact H2|]. split; [exact H0|].
  apply (UpdateDict_replaces_series
           (@header_with_paths sample_Externals
              [ {| Key := wxS "X-Poedit-SearchPath-0"; Value := wxS "src" |};
                {| Key := wxS "X-Poedit-SearchPath-1"; Value := wxS "old" |} ]
              [wxS "lib"]) 2 0 1 H2 H0).
Defined.

(** ** HeaderData: the search paths ParseDict reads *)

Lemma first_value_filter_legacy (key : wxString) (es es' : Entries) :
  ~ legacy_key es key ->
  first_value key (filter (fun e => ~ legacy_key es (Key e)) es') =
  first_value key es'.
Proof.
  intros Hn. induction es' as [|e es' IH]; [reflexivity|].
  rewrite filter_cons. destruct (decide (~ legacy_key es (Key e))) as [Hk|Hk].
  - simpl. destruct (decide (Key e = key)); [reflexivity | exact IH].
  - simpl. destruct (decide (Key e = key)) as [Heq|Hne]; [|exact IH].
    exfalso. apply Hk. now rewrite Heq.
Qed.

Lemma series_key_not_legacy (format : wxString) (i : N) (es : Entries) :
  Wx.starts_with format (wxS "X-Poedit-Language") = false ->
  Wx.starts_with format (wxS "X-Poedit-Country") = false ->
  Wx.starts_with format (wxS "X-Poedit-Keywords") = false ->
  ~ legacy_key es (series_key format i).
Proof.
  intros H1 H2 H3 [Heq|[Heq|[Heq _]]]; revert Heq; now apply series_key_not.
Qed.

Section ReadSearchPaths.
Context `{Ext : Externals}.

Lemma read_series_rounds_entries (fuel : nat) (series : N -> wxString) (i : N)
    (a b : HeaderData) (acc : list wxString) :
  m_entries a = m_entries b ->
  read_series_rounds fuel series i a acc = read_series_rounds fuel series i b acc.
Proof.
  intros Heq. revert i acc. induction fuel as [|fuel IH]; intros i acc;
    [reflexivity|].
  cbn [read_series_rounds].
  rewrite !HasHeader_first_value, !GetHeader_first_value, Heq.
  destruct (negb _); [reflexivity|]. apply IH.
Qed.

Lemma read_series_entries (series : N -> wxString) (a b : HeaderData) :
  m_entries a = m_entries b -> read_series series a = read_series series b.
Proof.
  intros Heq. unfold read_series. rewrite Heq.
  now apply read_series_rounds_entries.
Qed.

Lemma ParseDict_SearchPaths (h : HeaderData) :
  SearchPaths (ParseDict h) = read_series SearchPath_key (ParseDict h) /\
  SearchPathsExcluded (ParseDict h) =
    read_series SearchPathExcluded_key (ParseDict h).
Proof.
  unfold ParseDict.
  repeat match goal with
         | |- context [let '(_, _) := ?x in _] => destruct x
         end.
  cbn [SearchPaths SearchPathsExcluded].
  split; apply read_series_entries; reflexivity.
Qed.

Lemma read_series_rounds_values (vs : list wxString) (fuel : nat)
    (series : N -> wxString) (i : N) (h : HeaderData) (acc : list wxString) :
  (forall n, n <= length vs ->
     first_value (series (i + N.of_nat n)%N) (m_entries h) = vs !! n) ->
  length vs < fuel ->
  read_series_rounds fuel series i h acc =
  acc ++ filter (fun p => p <> []) (map FixBrokenSearchPathValue vs).
Proof.
  revert fuel i acc. induction vs as [|v vs IH]; intros fuel i acc Hread Hfuel;
    (destruct fuel as [|fuel]; [simpl in Hfuel; lia|]);
    cbn [read_series_rounds].
  - rewrite HasHeader_first_value.
    specialize (Hread 0 ltac:(simpl; lia)). rewrite N.add_0_r in Hread.
    rewrite Hread. simpl. now rewrite app_nil_r.
  - rewrite HasHeader_first_value, GetHeader_first_value.
    pose proof (Hread 0 ltac:(simpl; lia)) as H0. rewrite N.add_0_r in H0.
    rewrite H0. cbn [lookup list_lookup].
    rewrite bool_decide_eq_true_2 by eauto. cbn [negb default from_option id].
    rewrite IH.
    + cbn [map]. rewrite filter_cons.
      destruct (FixBrokenSearchPathValue v) as [|c p] eqn:E; cbn [Wx.empty negb].
      * rewrite decide_False by congruence. reflexivity.
      * rewrite decide_True by discriminate. now rewrite <- app_assoc.
    + intros n Hn. specialize (Hread (S n) ltac:(simpl; lia)).
      replace (i + 1 + N.of_nat n)%N with (i + N.of_nat (S n))%N by lia.
      exact Hread.
    + simpl in Hfuel. lia.
Qed.

Lemma read_series_values (series : N -> wxString) (h : HeaderData)
    (vs : list wxString) :
  (forall a b, series a = series b -> a = b) ->
  (forall n, n <= length vs ->
     first_value (series (N.of_nat n)) (m_entries h) = vs !! n) ->
  read_series series h = filter (fun p => p <> []) (map FixBrokenSearchPathValue vs).
Proof.
  intros Hinj Hread. unfold read_series.
  rewrite (read_series_rounds_values vs); [reflexivity | | ].
  - intros n Hn. rewrite N.add_0_l. now apply Hread.
  - apply Nat.lt_succ_r, (series_entries_count series); [exact Hinj|].
    intros n Hn. rewrite Hread by lia. now apply lookup_lt_is_Some_2.
Qed.

(** [ParseDict] reads the search paths (and the excluded ones likewise) from
    the entries numbered 0, 1, 2, ... up to the first index that has none:
    each value goes through [FixBrokenSearchPathValue], the ones that are
    empty then are left out, and entries numbered beyond the first gap are
    not read. *)
Theorem ParseDict_reads_search_paths (h : HeaderData) (vs ws : list wxString) :
  (forall n, n <= length vs ->
     first_value (SearchPath_key (N.of_nat n)) (m_entries h) = vs !! n) ->
  (forall n, n <= length ws ->
     first_value (SearchPathExcluded_key (N.of_nat n)) (m_entries h) = ws !! n) ->
  SearchPaths (ParseDict h) =
    filter (fun p => p <> []) (map FixBrokenSearchPathValue vs) /\
  SearchPathsExcluded (ParseDict h) =
    filter (fun p => p <> []) (map FixBrokenSearchPathValue ws).
Proof.
  intros Hvs Hws. destruct (ParseDict_SearchPaths h) as [-> ->].
  split; apply read_series_values; try apply series_key_inj;
    intros n Hn; rewrite ParseDict_entries, first_value_filter_legacy;
    auto; apply series_key_not_legacy; reflexivity.
Qed.

End ReadSearchPaths.

Lemma ParseDict_reads_search_paths_witness :
  let h := @blank_header sample_Externals
             [ {| Key := wxS "X-Poedit-SearchPath-0"; Value := wxS "src/" |};
               {| Key := wxS "X-Poedit-SearchPath-1"; Value := wxS "/" |};
               {| Key := wxS "X-Poedit-SearchPath-3"; Value := wxS "far" |} ] in
  SearchPaths (ParseDict h) = [wxS "src"] /\
  SearchPathsExcluded (ParseDict h) = [].
Proof.
  apply (ParseDict_reads_search_paths
           (@blank_header sample_Externals
              [ {| Key := wxS "X-Poedit-SearchPath-0"; Value := wxS "src/" |};
                {| Key := wxS "X-Poedit-SearchPath-1"; Value := wxS "/" |};
                {| Key := wxS "X-Poedit-SearchPath-3"; Value := wxS "far" |} ])
           [wxS "src/"; wxS "/"] []).
  - intros [|[|[|n]]] Hn; [reflexivity | reflexivity | reflexivity | simpl in Hn; lia].
  - intros [|n] Hn; [reflexivity | simpl in Hn; lia].
Defined.

(** ** What ParseDict derives for the remaining fields *)

Section ParseDictPlainFields.
Context `{Ext : Externals}.
Variable h : HeaderData.



End ParseDictPlainFields.

(** ** The series after UpdateDict, with old entries around *)

Section SeriesNoGap.
Context `{Ext : Externals}.






End SeriesNoGap.

(** ** ParseDict after UpdateDict *)


Section SyncRoundTripFields.
Context `{Ext : Externals}.
Variable h : HeaderData.
Hypothesis R : round_trip_ready h.









End SyncRoundTripFields.

(** ** The entries that FromString reads are safe on the wire *)

Lemma Trim_left_sub (c : ascii) (s : wxString) :
  c ∈ Wx.Trim_left s -> c ∈ s.
Proof.
  induction s as [|x s IH]; simpl; [auto|].
  destruct (Wx.wxIsspace x); [|auto].
  intros H. apply list_elem_of_further. auto.
Qed.

Lemma Trim_right_sub (c : ascii) (s : wxString) :
  c ∈ Wx.Trim_right s -> c ∈ s.
Proof.
  unfold Wx.Trim_right. rewrite !list_elem_of_In, <- in_rev.
  rewrite <- !list_elem_of_In. intros H%Trim_left_sub.
  now rewrite list_elem_of_In, in_rev, <- list_elem_of_In.
Qed.

Lemma Trim_left_idem (s : wxString) :
  Wx.Trim_left (Wx.Trim_left s) = Wx.Trim_left s.
Proof.
  induction s as [|x s IH]; simpl; [reflexivity|].
  destruct (Wx.wxIsspace x) eqn:E; [exact IH|]. simpl. now rewrite E.
Qed.

Lemma Trim_left_snoc (a : wxString) (c : ascii) :
  Wx.wxIsspace c = false -> Wx.Trim_left (a ++ [c]) = Wx.Trim_left a ++ [c].
Proof.
  intros Hc. induction a as [|x a IH]; simpl; [now rewrite Hc|].
  now destruct (Wx.wxIsspace x).
Qed.

Lemma Trim_left_length (s : wxString) : length (Wx.Trim_left s) <= length s.
Proof.
  induction s as [|x s IH]; simpl; [lia|].
  destruct (Wx.wxIsspace x); simpl; lia.
Qed.

Lemma Trim_right_idem (s : wxString) :
  Wx.Trim_right (Wx.Trim_right s) = Wx.Trim_right s.
Proof. unfold Wx.Trim_right. now rewrite rev_involutive, Trim_left_idem. Qed.

Lemma Trim_left_Trim_right (s : wxString) :
  Wx.Trim_left s = s -> Wx.Trim_left (Wx.Trim_right s) = Wx.Trim_right s.
Proof.
  destruct s as [|c s]; [reflexivity|]. simpl.
  destruct (Wx.wxIsspace c) eqn:E.
  - intros H. pose proof (Trim_left_length s) as Hlen.
    rewrite H in Hlen. simpl in Hlen. lia.
  - intros _. unfold Wx.Trim_right. simpl rev.
    rewrite Trim_left_snoc by exact E.
    rewrite rev_app_distr. simpl. now rewrite E.
Qed.

(** A text without line feed is line safe once stripped. *)
Lemma Strip_both_safe (x : wxString) :
  (LF ∉ x) -> line_safe (Wx.Strip Wx.both x).
Proof.
  intros Hx. simpl. split; [|split].
  - intros H. apply Hx. now apply Trim_left_sub, Trim_right_sub.
  - apply Trim_left_Trim_right, Trim_left_idem.
  - apply Trim_right_idem.
Qed.

Lemma split_on_pieces (delims s : wxString) :
  Forall (Forall (fun c => Wx.one_of delims c = false)) (split_on delims s).
Proof.
  induction s as [|c s IH]; simpl.
  - repeat constructor.
  - destruct (Wx.one_of delims c) eqn:E.
    + constructor; [constructor | exact IH].
    + destruct (split_on delims s) as [|piece pieces].
      * repeat constructor. exact E.
      * inversion IH; subst. constructor; [|assumption].
        constructor; assumption.
Qed.

Lemma lines_no_LF (str ln : wxString) : ln ∈ lines str -> LF ∉ ln.
Proof.
  unfold lines. intros [_ Hin]%list_elem_of_filter Hlf.
  pose proof (split_on_pieces [LF] str) as Hp.
  rewrite Forall_forall in Hp. specialize (Hp ln Hin).
  rewrite Forall_forall in Hp. specialize (Hp LF Hlf).
  apply one_of_LF in Hp. congruence.
Qed.

Lemma parse_line_entry_safe (ln : wxString) (en : Entry) :
  (LF ∉ ln) -> parse_line ln = Some en -> entry_safe en.
Proof.
  intros Hlf (before & after & -> & Hcolon & HK & HV)%parse_line_entry.
  rewrite elem_of_app, elem_of_cons in Hlf.
  split; [split|].
  - rewrite HK. apply Strip_both_safe. tauto.
  - rewrite HK. simpl. intros H. apply Hcolon.
    now apply Trim_left_sub, Trim_right_sub.
  - rewrite HV. apply Strip_both_safe. tauto.
Qed.

(** Every entry of a header that [FromString] has read fits on a header
    line: a header read from a file meets the first condition of the round
    trip, and it still does after [SetHeader] with safe values. *)
Lemma FromString_entries_safe `{Ext : Externals} (str : wxString)
    (h : HeaderData) :
  entries_safe (fst (FromString str h)).
Proof.
  unfold entries_safe, FromString.
  rewrite FromString_lines_spec by (simpl; lia).
  change ["010"%char] with [LF]. rewrite Tokenizer_LF. simpl.
  rewrite ParseDict_entries. cbn [m_entries set_entries].
  apply Forall_forall. intros e [_ He]%list_elem_of_filter.
  apply list_elem_of_omap in He as (ln & Hln & Hparse).
  apply (parse_line_entry_safe ln); [|exact Hparse].
  now apply (lines_no_LF str).
Qed.

(** ** The round trip of the header *)

Lemma sample_header_ready : @round_trip_ready sample_Externals sample_header.
Proof.
  constructor; try (constructor; fail); try reflexivity;
    try (intros H; vm_compute in H; discriminate);
    try (intros _; discriminate);
    try safe_by_computation.
Qed.


Section RoundTrip.
Context `{Ext : Externals}.


End RoundTrip.



(** The stale entries matter: without keywords [UpdateDict] leaves an old
    keyword list in the entries, and without name and e-mail an old
    translator line, and [ParseDict] reads both back into the fields. *)
Lemma UpdateDict_keeps_stale_entries :
  let h := @blank_header sample_Externals
             [ {| Key := wxS "X-Poedit-KeywordsList"; Value := wxS "_;N_" |};
               {| Key := wxS "Last-Translator"; Value := wxS "Old Name" |} ] in
  Keywords h = [] /\ Translator h = [] /\
  Keywords (ParseDict (UpdateDict h)) = [wxS "_"; wxS "N_"] /\
  Translator (ParseDict (UpdateDict h)) = wxS "Old Name".
Proof. vm_compute. repeat split; reflexivity. Qed.
